(** * Smart Inventory dashboard: the derived-view pipeline of
      [InventoryHealthPageEnhanced.jsx]

    A shallow embedding of the client-side code of the dashboard component:
    the CSV export helper [downloadCSV], the filter-and-sort effect, the
    aggregates computed on every render ([countCritical], [countWarning],
    [countSafe], [criticalByStore], [topCritical]), the [BarChart] cap and
    the cancel-on-supersede [fetchData] callback.

    Conventions.
    - A JavaScript number is a [number]: an exact rational, the two
      infinities, or NaN.  The code only subtracts numbers to learn a sign,
      adds one to a counter and prints with [toFixed]; the sign of a
      difference of two doubles is the sign of the exact difference, a
      counter stays far below 2^53, and [toFixed] is specified on the exact
      value, so exact rationals are faithful for every operation used.
    - Arrays live in a heap of array objects, because [Array.prototype.sort]
      sorts in place and returns the same array.
    - What the host (the JavaScript engine and its locale data) decides is
      gathered in the class [Host]: the collation, the string methods, the
      printing of numbers and the sorting algorithm.  The language fixes the
      result of a sort only for a consistent comparator
      ([JSArray.stableSort]); for any other it is the engine's.  [V8] is
      the sort of one engine on a short array, and [AsciiHost] the host
      the examples run on. *)

From Stdlib Require Import ZArith QArith Qround Qabs String Ascii List Lia Permutation.
From Stdlib Require Import DecimalString DecimalPos DecimalN Sorted.
From stdpp Require Import base decidable option list sorting gmap strings fin_maps.

Local Open Scope Z_scope.
Local Open Scope string_scope.
Local Open Scope list_scope.

(* ===================================================================== *)
(** ** JavaScript numbers *)
(* ===================================================================== *)

Module JSNumber.

Inductive number : Type :=
| Finite (q : Q)
| PosInf
| NegInf
| NaN.

Definition of_Z (z : Z) : number := Finite (inject_Z z).

(** [a - b] *)
Definition sub (a b : number) : number :=
  match a, b with
  | NaN, _ | _, NaN => NaN
  | Finite x, Finite y => Finite (x - y)
  | Finite _, PosInf => NegInf
  | Finite _, NegInf => PosInf
  | PosInf, PosInf => NaN
  | PosInf, _ => PosInf
  | NegInf, NegInf => NaN
  | NegInf, _ => NegInf
  end.

(** [a + b] *)
Definition add (a b : number) : number :=
  match a, b with
  | NaN, _ | _, NaN => NaN
  | Finite x, Finite y => Finite (x + y)
  | Finite _, PosInf => PosInf
  | Finite _, NegInf => NegInf
  | PosInf, NegInf => NaN
  | PosInf, _ => PosInf
  | NegInf, PosInf => NaN
  | NegInf, _ => NegInf
  end.

(** [a === b] on two numbers: NaN equals nothing. *)
Definition strict_eq (a b : number) : bool :=
  match a, b with
  | Finite x, Finite y => Qeq_bool x y
  | PosInf, PosInf => true
  | NegInf, NegInf => true
  | _, _ => false
  end.

(** ToBoolean on a number: [0] and [NaN] are falsy. *)
Definition truthy (a : number) : bool :=
  match a with
  | Finite x => negb (Qeq_bool x 0)
  | PosInf | NegInf => true
  | NaN => false
  end.

Definition is_nan (a : number) : bool :=
  match a with NaN => true | _ => false end.

Definition is_finite (a : number) : bool :=
  match a with Finite _ => true | _ => false end.

(** The sign of a number as the sort sees it: step "if v is NaN, return +0"
    of SortCompare, then the test [v < 0], [v > 0]. *)
Definition sign (v : number) : comparison :=
  match v with
  | Finite q => (q ?= 0)%Q
  | PosInf => Gt
  | NegInf => Lt
  | NaN => Eq
  end.

(** The numeric order on the numbers other than NaN. *)
Definition lt (a b : number) : Prop :=
  match a, b with
  | NaN, _ | _, NaN => False
  | NegInf, NegInf => False
  | NegInf, _ => True
  | PosInf, _ => False
  | Finite x, Finite y => (x < y)%Q
  | Finite _, PosInf => True
  | Finite _, NegInf => False
  end.

End JSNumber.

Abbreviation number := JSNumber.number.

(* ===================================================================== *)
(** ** What the language requires of a sort *)
(* ===================================================================== *)

Module JSArray.
Section Sort.
Context {A : Type} (comparefn : A -> A -> number).

(** SortCompare(x, y): the sign of [comparefn(x, y)], NaN read as +0. *)
Definition SortCompare (x y : A) : comparison := JSNumber.sign (comparefn x y).

(** [x] is put in front of the first element it is strictly smaller than
    or equal to; it came before them in the input, so ties keep the input
    order. *)
Fixpoint insert (x : A) (l : list A) : list A :=
  match l with
  | [] => [x]
  | y :: l' =>
      match SortCompare x y with
      | Gt => y :: insert x l'
      | _ => x :: l
      end
  end.

(** The arrangement the language requires of [Array.prototype.sort] when
    the comparator is consistent: sorted, a permutation of the input, and
    stable (since ES2019).  There is one such arrangement
    ([stable_sort_unique]); this insertion sort computes it.  It is the
    measure for the engine's sort, not the engine's sort: for a comparator
    that is not consistent the language leaves the order to the engine
    ([Array_prototype_sort] of [Host]).  It is also the order in which
    [Object.entries] lists the array-index names. *)
Fixpoint stableSort (l : list A) : list A :=
  match l with
  | [] => []
  | x :: l' => insert x (stableSort l')
  end.

End Sort.
End JSArray.

(** A comparator is consistent on the elements of [l]: the signs that
    SortCompare reads off it are those of a total preorder. *)
Definition consistent_on {A} (comparefn : A -> A -> number) (l : list A) : Prop :=
  (forall a b, a ∈ l -> b ∈ l ->
     JSArray.SortCompare comparefn a b = CompOpp (JSArray.SortCompare comparefn b a)) /\
  (forall a b c, a ∈ l -> b ∈ l -> c ∈ l ->
     JSArray.SortCompare comparefn a b <> Gt ->
     JSArray.SortCompare comparefn b c <> Gt ->
     JSArray.SortCompare comparefn a c <> Gt).

(* ===================================================================== *)
(** ** The host: what the engine and its locale data decide *)
(* ===================================================================== *)

(** [localeCompare] is [String.prototype.localeCompare] with no locale
    argument: its result is implementation-defined, but the language
    requires it to be a consistent comparator on all strings, which is what
    the two laws say.  [toLowerCase] and [trim] are the string methods of the
    same names, [numberToString] is Number::toString in radix 10, and
    [inheritedToString k] is the text that the object found under the name
    [k] on [Object.prototype] converts to in a string concatenation.

    [Array_prototype_sort comparefn l] is what [Array.prototype.sort]
    makes of an array whose elements are [l] (none of them [undefined]).
    The engine chooses the algorithm and sees the elements only through
    SortCompare.  It returns the elements it was given, in some order; when
    the comparator is consistent that order is the one the language
    requires.  When it is not, the order is the engine's own: V8, for one,
    then returns neither a sorted nor a stable arrangement (see
    [V8]). *)
Class Host : Type := {
  localeCompare : string -> string -> Z;
  toLowerCase : string -> string;
  trim : string -> string;
  numberToString : number -> string;
  inheritedToString : string -> string;
  Array_prototype_sort : forall A : Type, (A -> A -> number) -> list A -> list A;
  localeCompare_antisym :
    forall a b, Z.sgn (localeCompare b a) = - Z.sgn (localeCompare a b);
  localeCompare_trans :
    forall a b c, localeCompare a b <= 0 -> localeCompare b c <= 0 ->
                  localeCompare a c <= 0;
  trim_empty : trim EmptyString = EmptyString;
  Array_prototype_sort_perm :
    forall (A : Type) (comparefn : A -> A -> number) (l : list A),
      Array_prototype_sort A comparefn l ≡ₚ l;
  Array_prototype_sort_consistent :
    forall (A : Type) (comparefn : A -> A -> number) (l : list A),
      consistent_on comparefn l ->
      Array_prototype_sort A comparefn l = JSArray.stableSort comparefn l
}.

Global Arguments Array_prototype_sort {_ A} comparefn l.

(* ===================================================================== *)
(** ** Strings *)
(* ===================================================================== *)

Module JSString.

(** The double quote, U+0022. *)
Definition dquote : string := String (ascii_of_nat 34) EmptyString.

(** The line feed, U+000A. *)
Definition newline : string := String (ascii_of_nat 10) EmptyString.

(** ToBoolean on a string: only the empty string is falsy. *)
Definition truthy (s : string) : bool :=
  match s with EmptyString => false | String _ _ => true end.

(** [s || d] where [s] is a string. *)
Definition or_else (s d : string) : string := if truthy s then s else d.

(** [s.includes(t)]: [t] occurs somewhere in [s]. *)
Fixpoint includes (s t : string) : bool :=
  String.prefix t s ||
  match s with
  | EmptyString => false
  | String _ s' => includes s' t
  end.

(** [parts.join(sep)] *)
Fixpoint join (sep : string) (parts : list string) : string :=
  match parts with
  | [] => EmptyString
  | [x] => x
  | x :: rest => x ++ sep ++ join sep rest
  end.

(** The decimal digits of a non-negative integer, without leading zeros. *)
Definition int_digits (n : Z) : string :=
  NilEmpty.string_of_uint (N.to_uint (Z.to_N n)).

Definition digit_char (d : Z) : ascii := ascii_of_nat (48 + Z.to_nat d).

(** The [f] low decimal digits of [m], most significant first, with leading
    zeros kept. *)
Fixpoint frac_digits (f : nat) (m : Z) : string :=
  match f with
  | O => EmptyString
  | S f' => frac_digits f' (m / 10) ++ String (digit_char (m mod 10)) EmptyString
  end.

End JSString.

Section NumberMethods.
Context `{Host}.

(** [x.toFixed(f)].  A NaN or an infinity prints as Number::toString does;
    the sign is split off; a magnitude of at least 10^21 prints as
    Number::toString does; otherwise [n] is the integer nearest to
    [x * 10^f], the larger one on a tie, printed with a point before its
    last [f] digits (no point when [f] is 0). *)
Definition toFixed (f : nat) (x : number) : string :=
  match x with
  | JSNumber.Finite q =>
      let neg := negb (Qle_bool 0 q) in
      let s := if neg then "-" else EmptyString in
      let x' := if neg then Qopp q else q in
      if Qle_bool (inject_Z (10 ^ 21)) x'
      then s ++ numberToString (JSNumber.Finite x')
      else
        let n := Qfloor (x' * inject_Z (10 ^ Z.of_nat f) + (1 # 2)) in
        s ++ match f with
             | O => JSString.int_digits n
             | S _ => JSString.int_digits (n / 10 ^ Z.of_nat f) ++ "." ++
                      JSString.frac_digits f (n mod 10 ^ Z.of_nat f)
             end
  | _ => numberToString x
  end.

End NumberMethods.

(* ===================================================================== *)
(** ** Plain objects used as dictionaries *)
(* ===================================================================== *)

Module JSObject.

(** The values the reducer of [criticalByStore] stores: numbers, and
    strings once a concatenation has happened. *)
Inductive primitive : Type :=
| PUndefined
| PNumber (n : number)
| PString (s : string).

(** What a property read gives: a stored primitive, or an object inherited
    from [Object.prototype] (a built-in method, or the prototype itself for
    [__proto__]). *)
Inductive value : Type :=
| Prim (p : primitive)
| Inherited (name : string).

(** An object created by the literal [{}]: its own properties in creation
    order; its prototype is [Object.prototype]. *)
Definition object : Type := list (string * primitive).

Definition empty : object := [].

(** The property names of [Object.prototype]. *)
Definition prototype_names : list string :=
  [ "constructor"; "__defineGetter__"; "__defineSetter__"; "hasOwnProperty";
    "__lookupGetter__"; "__lookupSetter__"; "isPrototypeOf";
    "propertyIsEnumerable"; "toString"; "valueOf"; "__proto__";
    "toLocaleString" ].

Definition inherited (k : string) : bool :=
  existsb (String.eqb k) prototype_names.

Fixpoint own (o : object) (k : string) : option primitive :=
  match o with
  | [] => None
  | (k', v) :: o' => if String.eqb k' k then Some v else own o' k
  end.

(** [o[k]]: the own property, else what the prototype chain has. *)
Definition get (o : object) (k : string) : value :=
  match own o k with
  | Some v => Prim v
  | None => if inherited k then Inherited k else Prim PUndefined
  end.

Fixpoint put (o : object) (k : string) (v : primitive) : object :=
  match o with
  | [] => [(k, v)]
  | (k', v') :: o' =>
      if String.eqb k' k then (k', v) :: o' else (k', v') :: put o' k v
  end.

(** [o[k] = v] for a primitive [v].  The name [__proto__] is the accessor
    inherited from [Object.prototype]: given a primitive its setter does
    nothing, and no own property is created.  Every other name is created
    or overwritten as an own data property. *)
Definition set (o : object) (k : string) (v : primitive) : object :=
  if String.eqb k "__proto__" then o else put o k v.

(** ToBoolean *)
Definition truthy (v : value) : bool :=
  match v with
  | Prim PUndefined => false
  | Prim (PNumber n) => JSNumber.truthy n
  | Prim (PString s) => JSString.truthy s
  | Inherited _ => true
  end.

(** [v || d] *)
Definition or_else (v d : value) : value := if truthy v then v else d.

(** An array index: the canonical decimal text of an integer below
    2^32 - 1. *)
Definition array_index (k : string) : option N :=
  match NilEmpty.uint_of_string k with
  | Some d =>
      let n := N.of_uint d in
      if String.eqb (NilEmpty.string_of_uint (N.to_uint n)) k
         && (n <? 2 ^ 32 - 1)%N
      then Some n else None
  | None => None
  end.

Definition is_array_index (k : string) : bool :=
  match array_index k with Some _ => true | None => false end.

Definition index_of (e : string * primitive) : number :=
  JSNumber.of_Z (Z.of_N (default 0%N (array_index (fst e)))).

(** [Object.entries(o)]: the array-index names in ascending numeric order,
    then the other names in creation order. *)
Definition entries (o : object) : list (string * primitive) :=
  JSArray.stableSort (fun a b => JSNumber.sub (index_of a) (index_of b))
               (List.filter (fun e => is_array_index (fst e)) o)
  ++ List.filter (fun e => negb (is_array_index (fst e))) o.

(** [Object.keys(o)] *)
Definition keys (o : object) : list string := map fst (entries o).

Section Plus.
Context `{Host}.

(** [v + 1]: numeric addition on a number ([undefined] converts to NaN),
    concatenation with the text of [1] on a string or on an object, which
    first converts to its text. *)
Definition plus_one (v : value) : primitive :=
  match v with
  | Prim (PNumber n) => PNumber (JSNumber.add n (JSNumber.of_Z 1))
  | Prim (PString s) => PString (s ++ "1")
  | Prim PUndefined => PNumber JSNumber.NaN
  | Inherited k => PString (inheritedToString k ++ "1")
  end.

End Plus.
End JSObject.

(* ===================================================================== *)
(** ** The data model *)
(* ===================================================================== *)

(** One element of [predictions] as the component reads it.  The fields the
    code reads through [?.] or [||] may be absent: [None] is a property
    that is missing, so that reading it gives [undefined]. *)
Record PredictionRecord : Type := {
  sku_id : string;
  store_id : string;
  current_stock : number;
  avg_daily_sales : option number;
  days_to_stockout : option number;
  status : string;
  recommended_reorder_quantity : option number;
  category : option string;
  city : option string;
  last_updated : option string
}.

(** SORT_COLUMNS *)
Inductive SortField : Type :=
| col_sku_id
| col_store_id
| col_days_to_stockout
| col_recommended_reorder_quantity.

(** The state [sortOrder]: ["asc"] or ["desc"]. *)
Inductive SortOrder : Type := asc | desc.

(** The filter and sort state of the component. *)
Record Criteria : Type := {
  storeFilter : string;
  categoryFilter : string;
  search : string;
  showCriticalOnly : bool;
  sortField : SortField;
  sortOrder : SortOrder
}.

(** The initial state of the six [useState] hooks. *)
Definition initialCriteria : Criteria :=
  {| storeFilter := "ALL"; categoryFilter := "ALL"; search := EmptyString;
     showCriticalOnly := false; sortField := col_sku_id; sortOrder := asc |}.

(** ToNumber on a numeric field: [undefined] is NaN. *)
Definition ToNumber (v : option number) : number :=
  match v with Some n => n | None => JSNumber.NaN end.

(** [r[sortField]] when it is a string *)
Definition string_column (f : SortField) (r : PredictionRecord) : option string :=
  match f with
  | col_sku_id => Some (sku_id r)
  | col_store_id => Some (store_id r)
  | _ => None
  end.

(** [r[sortField]] when it is not a string *)
Definition number_column (f : SortField) (r : PredictionRecord) : option number :=
  match f with
  | col_days_to_stockout => days_to_stockout r
  | col_recommended_reorder_quantity => recommended_reorder_quantity r
  | _ => None
  end.

Definition isCritical (r : PredictionRecord) : bool := String.eqb (status r) "Critical".
Definition isWarning (r : PredictionRecord) : bool := String.eqb (status r) "Warning".
Definition isSafe (r : PredictionRecord) : bool := String.eqb (status r) "Safe".

(* ===================================================================== *)
(** ** The heap of array objects *)
(* ===================================================================== *)

Module Heap.

(** An array reference. *)
Abbreviation loc := nat (only parsing).

(** The store of the arrays allocated so far. *)
Abbreviation heap A := (gmap nat (list A)).

(** A computation that reads and writes the heap. *)
Definition M (A R : Type) : Type := heap A -> R * heap A.

Section Arrays.
Context {A : Type}.

#[global] Instance ret : MRet (M A) := fun R (r : R) h => (r, h).

#[global] Instance bind : MBind (M A) :=
  fun R S (k : R -> M A S) (m : M A R) h => let (r, h') := m h in k r h'.

(** A new array object with the given elements. *)
Definition alloc (xs : list A) : M A loc :=
  fun h => let l := fresh (dom h) in (l, <[l := xs]> h).

(** The elements of a live array. *)
Definition contents (l : loc) : M A (list A) :=
  fun h => (default [] (h !! l), h).

(** Overwrite the elements of the array object [l]. *)
Definition write (l : loc) (xs : list A) : M A unit :=
  fun h => (tt, <[l := xs]> h).

End Arrays.

Section Methods.
Context `{Host} {A : Type}.

(** [[...a]]: a new array with the elements of [a]. *)
Definition spread (a : loc) : M A loc :=
  xs ← contents a; alloc xs.

(** [a.filter(p)]: a new array. *)
Definition Array_filter (p : A -> bool) (a : loc) : M A loc :=
  xs ← contents a; alloc (List.filter p xs).

(** [a.sort(comparefn)]: sorts the array object [a] itself and returns it. *)
Definition Array_sort (comparefn : A -> A -> number) (a : loc) : M A loc :=
  xs ← contents a; _ ← write a (Array_prototype_sort comparefn xs); mret a.

(** [a.slice(0, n)]: a new array. *)
Definition Array_slice0 (n : nat) (a : loc) : M A loc :=
  xs ← contents a; alloc (take n xs).

(** [a.length] *)
Definition Array_length (a : loc) : M A nat :=
  xs ← contents a; mret (length xs).

(** [a.reduce(f, init)] *)
Definition Array_reduce {B} (f : B -> A -> B) (init : B) (a : loc) : M A B :=
  xs ← contents a; mret (fold_left f xs init).

End Methods.
End Heap.

Import Heap.

(* ===================================================================== *)
(** ** The component: filter effect and computed values *)
(* ===================================================================== *)

Section Component.
Context `{Host}.

(** The comparator handed to [data.sort] in the filter effect. *)
Definition compareRecords (c : Criteria) (a b : PredictionRecord) : number :=
  match string_column (sortField c) a, string_column (sortField c) b with
  | Some aVal, Some bVal =>
      JSNumber.of_Z
        match sortOrder c with
        | asc => localeCompare aVal bVal
        | desc => localeCompare bVal aVal
        end
  | _, _ =>
      let aVal := ToNumber (number_column (sortField c) a) in
      let bVal := ToNumber (number_column (sortField c) b) in
      match sortOrder c with
      | asc => JSNumber.sub aVal bVal
      | desc => JSNumber.sub bVal aVal
      end
  end.

(** The four filter callbacks. *)
Definition matchesStore (c : Criteria) (r : PredictionRecord) : bool :=
  String.eqb (store_id r) (storeFilter c).

Definition matchesCategory (c : Criteria) (r : PredictionRecord) : bool :=
  match category r with
  | Some x => String.eqb x (categoryFilter c)
  | None => false
  end.

Definition term (c : Criteria) : string := toLowerCase (trim (search c)).

Definition matchesSearch (c : Criteria) (r : PredictionRecord) : bool :=
  JSString.includes (toLowerCase (sku_id r)) (term c).

(** The body of the "Apply filters" effect; the reference it returns is the
    argument of [setFiltered]. *)
Definition applyFiltersM (c : Criteria) (records : loc) : M PredictionRecord loc :=
  data ← spread records;
  data ← (if negb (String.eqb (storeFilter c) "ALL")
           then Array_filter (matchesStore c) data else mret data);
  data ← (if negb (String.eqb (categoryFilter c) "ALL")
           then Array_filter (matchesCategory c) data else mret data);
  data ← (if showCriticalOnly c
           then Array_filter isCritical data else mret data);
  data ← (if JSString.truthy (trim (search c))
           then Array_filter (matchesSearch c) data else mret data);
  Array_sort (compareRecords c) data.

(** The computed values of a render. *)
Definition countCriticalM (records : loc) : M PredictionRecord nat :=
  a ← Array_filter isCritical records; Array_length a.

Definition countWarningM (records : loc) : M PredictionRecord nat :=
  a ← Array_filter isWarning records; Array_length a.

Definition countSafeM (records : loc) : M PredictionRecord nat :=
  a ← Array_filter isSafe records; Array_length a.

(** The reducer of [criticalByStore]. *)
Definition countByStore (acc : JSObject.object) (r : PredictionRecord) : JSObject.object :=
  if isCritical r then
    JSObject.set acc (store_id r)
      (JSObject.plus_one
         (JSObject.or_else (JSObject.get acc (store_id r))
                           (JSObject.Prim (JSObject.PNumber (JSNumber.of_Z 0)))))
  else acc.

Definition criticalByStoreM (records : loc) : M PredictionRecord JSObject.object :=
  Array_reduce countByStore JSObject.empty records.

(** The comparator of [topCritical]. *)
Definition byDaysDescending (a b : PredictionRecord) : number :=
  JSNumber.sub (ToNumber (days_to_stockout b)) (ToNumber (days_to_stockout a)).

Definition topCriticalM (records : loc) : M PredictionRecord loc :=
  a ← Array_filter isCritical records;
  a ← Array_sort byDaysDescending a;
  Array_slice0 5 a.

(** What the render shows of the aggregates. *)
Record Aggregates : Type := {
  shown_countCritical : nat;
  shown_countWarning : nat;
  shown_countSafe : nat;
  shown_criticalByStore : JSObject.object;
  shown_topCritical : list PredictionRecord
}.

Definition renderM (records : loc) : M PredictionRecord Aggregates :=
  cc ← countCriticalM records;
  cw ← countWarningM records;
  cs ← countSafeM records;
  cbs ← criticalByStoreM records;
  tc ← topCriticalM records;
  top ← contents tc;
  mret {| shown_countCritical := cc; shown_countWarning := cw;
         shown_countSafe := cs; shown_criticalByStore := cbs;
         shown_topCritical := top |}.

(** The effect runs with the criteria [c]; the render that follows its
    [setFiltered] shows the table rows and the aggregates. *)
Definition effectThenRenderM (c : Criteria) (records : loc)
  : M PredictionRecord (list PredictionRecord * Aggregates) :=
  data ← applyFiltersM c records;
  rows ← contents data;
  aggs ← renderM records;
  mret (rows, aggs).

(** *** The same values as functions of the contents of [records] *)

Inductive FilterKind : Type := by_store | by_category | by_critical | by_search.

(** Whether the [if] around a filter lets it run. *)
Definition active (k : FilterKind) (c : Criteria) : bool :=
  match k with
  | by_store => negb (String.eqb (storeFilter c) "ALL")
  | by_category => negb (String.eqb (categoryFilter c) "ALL")
  | by_critical => showCriticalOnly c
  | by_search => JSString.truthy (trim (search c))
  end.

Definition predicate (k : FilterKind) (c : Criteria) : PredictionRecord -> bool :=
  match k with
  | by_store => matchesStore c
  | by_category => matchesCategory c
  | by_critical => isCritical
  | by_search => matchesSearch c
  end.

(** One of the four [if (...) data = data.filter(...)] statements. *)
Definition filterStep (k : FilterKind) (c : Criteria)
  (data : list PredictionRecord) : list PredictionRecord :=
  if active k c then List.filter (predicate k c) data else data.

(** A record passes a statement when the [if] is off or the callback
    accepts it. *)
Definition passes (k : FilterKind) (c : Criteria) (r : PredictionRecord) : bool :=
  implb (active k c) (predicate k c r).

(** The four statements in the order of the source. *)
Definition filterOnly (c : Criteria) (recs : list PredictionRecord) : list PredictionRecord :=
  filterStep by_search c
    (filterStep by_critical c (filterStep by_category c (filterStep by_store c recs))).

(** The contents of [filtered]. *)
Definition filtered (c : Criteria) (recs : list PredictionRecord) : list PredictionRecord :=
  Array_prototype_sort (compareRecords c) (filterOnly c recs).

Definition countCritical (recs : list PredictionRecord) : nat :=
  length (List.filter isCritical recs).
Definition countWarning (recs : list PredictionRecord) : nat :=
  length (List.filter isWarning recs).
Definition countSafe (recs : list PredictionRecord) : nat :=
  length (List.filter isSafe recs).

Definition criticalByStore (recs : list PredictionRecord) : JSObject.object :=
  fold_left countByStore recs JSObject.empty.

Definition topCritical (recs : list PredictionRecord) : list PredictionRecord :=
  take 5 (Array_prototype_sort byDaysDescending (List.filter isCritical recs)).

Definition aggregates (recs : list PredictionRecord) : Aggregates :=
  {| shown_countCritical := countCritical recs;
     shown_countWarning := countWarning recs;
     shown_countSafe := countSafe recs;
     shown_criticalByStore := criticalByStore recs;
     shown_topCritical := topCritical recs |}.

(** [BarChart]: [None] is the "No data" placeholder, otherwise the entries
    that get a bar. *)
Definition BarChart (data : JSObject.object) : option (list (string * JSObject.primitive)) :=
  if Nat.eqb (length (JSObject.keys data)) 0 then None
  else Some (take 6 (JSObject.entries data)).

(** [handleSort] *)
Definition handleSort (field : SortField) (c : Criteria) : Criteria :=
  let same :=
    match sortField c, field with
    | col_sku_id, col_sku_id | col_store_id, col_store_id
    | col_days_to_stockout, col_days_to_stockout
    | col_recommended_reorder_quantity, col_recommended_reorder_quantity => true
    | _, _ => false
    end in
  if same then
    {| storeFilter := storeFilter c; categoryFilter := categoryFilter c;
       search := search c; showCriticalOnly := showCriticalOnly c;
       sortField := sortField c;
       sortOrder := match sortOrder c with asc => desc | desc => asc end |}
  else
    {| storeFilter := storeFilter c; categoryFilter := categoryFilter c;
       search := search c; showCriticalOnly := showCriticalOnly c;
       sortField := field; sortOrder := asc |}.

End Component.

(* ===================================================================== *)
(** ** [downloadCSV] *)
(* ===================================================================== *)

Module Csv.

(** An element of a row array: a string or a number. *)
Inductive cell : Type :=
| text (s : string)
| num (n : number).

(** What a call of [downloadCSV] does to the page. *)
Inductive Action : Type :=
| alert (message : string)
| saveBlob (content : string) (type : string) (download : string).

Definition headers : list string :=
  [ "SKU"; "Store"; "Current Stock"; "Avg Daily Sales"; "Days to Stockout";
    "Status"; "Reorder Qty"; "Category"; "City" ].

Definition is_alert (a : Action) : bool :=
  match a with alert _ => true | saveBlob _ _ _ => false end.

Definition is_saveBlob (a : Action) : bool :=
  match a with alert _ => false | saveBlob _ _ _ => true end.

Section Encoder.
Context `{Host}.

(** The text a template literal makes of a cell. *)
Definition cellToString (c : cell) : string :=
  match c with
  | text s => s
  | num n => numberToString n
  end.

(** [r.avg_daily_sales?.toFixed(2) || "0"] *)
Definition avgCell (r : PredictionRecord) : cell :=
  match avg_daily_sales r with
  | Some n => text (JSString.or_else (toFixed 2 n) "0")
  | None => text "0"
  end.

(** [r.days_to_stockout === Infinity ? "∞" : r.days_to_stockout?.toFixed(1) || "0"] *)
Definition daysCell (r : PredictionRecord) : cell :=
  match days_to_stockout r with
  | Some n =>
      if JSNumber.strict_eq n JSNumber.PosInf then text "∞"
      else text (JSString.or_else (toFixed 1 n) "0")
  | None => text "0"
  end.

(** [r.recommended_reorder_quantity || "0"] *)
Definition reorderCell (r : PredictionRecord) : cell :=
  match recommended_reorder_quantity r with
  | Some n => if JSNumber.truthy n then num n else text "0"
  | None => text "0"
  end.

(** [r.category || "-"], [r.city || "-"] *)
Definition orDash (v : option string) : cell :=
  match v with
  | Some s => text (JSString.or_else s "-")
  | None => text "-"
  end.

(** The callback of [data.map]. *)
Definition row (r : PredictionRecord) : list cell :=
  [ text (sku_id r); text (store_id r); num (current_stock r); avgCell r;
    daysCell r; text (status r); reorderCell r; orDash (category r);
    orDash (city r) ].

Definition rows (data : list PredictionRecord) : list (list cell) := map row data.

(** The template literal with the cell between two double quotes. *)
Definition quoted (c : cell) : string :=
  JSString.dquote ++ cellToString c ++ JSString.dquote.

Definition line (cells : list cell) : string :=
  JSString.join "," (map quoted cells).

(** The texts of the cells of a record's row. *)
Definition fields (r : PredictionRecord) : list string := map cellToString (row r).

(** A line of already converted texts: each between two double quotes,
    with commas between them. *)
Definition quotedLine (texts : list string) : string :=
  JSString.join "," (map (fun s => (JSString.dquote ++ s ++ JSString.dquote)%string) texts).

(** [[headers, ...rows].map(...).join("\n")] *)
Definition csv (data : list PredictionRecord) : string :=
  JSString.join JSString.newline (map line (map text headers :: rows data)).

Definition downloadCSV (data : list PredictionRecord) (filename : string) : list Action :=
  if Nat.eqb (length data) 0 then [alert "No data to export"]
  else [saveBlob (csv data) "text/csv;charset=utf-8;" filename].

(** The click handler of the export button: the default file name. *)
Definition exportFiltered (filtered : list PredictionRecord) : list Action :=
  downloadCSV filtered "inventory_export.csv".

End Encoder.
End Csv.

(** The document as the specification words it (section 4.7): the header
    row first, then one row per record, every field value between two
    double quotes.  It is written without [join]: a row is its first value
    and then, for each further value, a comma and the value; a document is
    its first row and then, for each further row, a line feed and the row.
    [hasDecimalPlaces f s] reads the text [s] character by character: an
    optional minus sign, one digit or more, a point, and [f] digits. *)
Module CsvSpec.
Local Open Scope string_scope.

Definition columns : list string :=
  [ "SKU"; "Store"; "Current Stock"; "Avg Daily Sales"; "Days to Stockout";
    "Status"; "Reorder Qty"; "Category"; "City" ].

Definition wrapped (value : string) : string :=
  String (ascii_of_nat 34) (value ++ String (ascii_of_nat 34) EmptyString).

Definition row (values : list string) : string :=
  match values with
  | [] => EmptyString
  | first :: others =>
      wrapped first ++
      fold_right (fun value acc => "," ++ wrapped value ++ acc) EmptyString others
  end.

Definition document (rows : list (list string)) : string :=
  match rows with
  | [] => EmptyString
  | first :: others =>
      row first ++
      fold_right (fun r acc => String (ascii_of_nat 10) (row r ++ acc)) EmptyString others
  end.

Definition isDigit (c : ascii) : bool :=
  Nat.leb 48 (nat_of_ascii c) && Nat.leb (nat_of_ascii c) 57.

Fixpoint allDigits (s : string) : bool :=
  match s with
  | EmptyString => true
  | String c s' => isDigit c && allDigits s'
  end.

(** The text before the first point and the text after it. *)
Fixpoint splitAtPoint (s : string) : option (string * string) :=
  match s with
  | EmptyString => None
  | String c s' =>
      if Ascii.eqb c "." then Some (EmptyString, s')
      else match splitAtPoint s' with
           | Some (whole, fraction) => Some (String c whole, fraction)
           | None => None
           end
  end.

Definition unsigned (s : string) : string :=
  match s with
  | String c s' => if Ascii.eqb c "-" then s' else s
  | EmptyString => s
  end.

Definition hasDecimalPlaces (f : nat) (s : string) : bool :=
  match splitAtPoint (unsigned s) with
  | Some (whole, fraction) =>
      negb (String.eqb whole EmptyString) && allDigits whole &&
      allDigits fraction && Nat.eqb (String.length fraction) f
  | None => false
  end.

(** The number a text of digits stands for, read from the left. *)
Definition digitValue (c : ascii) : Z := Z.of_nat (nat_of_ascii c) - 48.

Fixpoint readFrom (acc : Z) (s : string) : option Z :=
  match s with
  | EmptyString => Some acc
  | String c s' => if isDigit c then readFrom (10 * acc + digitValue c) s' else None
  end.

Definition readDigits (s : string) : option Z :=
  match s with
  | EmptyString => None
  | _ => readFrom 0 s
  end.

(** A text of several digits does not start with a zero. *)
Definition noLeadingZero (s : string) : bool :=
  match s with
  | String c (String _ _) => negb (Ascii.eqb c "0")
  | _ => true
  end.

(** [s] is [q] with [f] decimal places: an integer [n] nearest to the
    magnitude of [q] times [10^f] (the larger one when two are as near),
    printed as a minus sign when [q] is negative, the digits of
    [n / 10^f] with no zero in front, a point, and the [f] digits of
    [n mod 10^f]. *)
Definition rounded (f : nat) (q : Q) (s : string) : Prop :=
  exists (n : Z) (whole fraction : string),
    (inject_Z n <= Qabs q * inject_Z (10 ^ Z.of_nat f) + (1 # 2))%Q /\
    (Qabs q * inject_Z (10 ^ Z.of_nat f) + (1 # 2) < inject_Z (n + 1))%Q /\
    s = (if Qle_bool 0 q then EmptyString else "-") ++ whole ++ "." ++ fraction /\
    readDigits whole = Some (n / 10 ^ Z.of_nat f) /\
    noLeadingZero whole = true /\
    String.length fraction = f /\
    readFrom 0 fraction = Some (n mod 10 ^ Z.of_nat f).

End CsvSpec.

(* ===================================================================== *)
(** ** [fetchData]: one request at a time *)
(* ===================================================================== *)

Module Fetch.

(** The body of the reply of [GET /latest] after [res.json()]. *)
Record Data : Type := {
  predictions : option (list PredictionRecord);
  data_records : option (list PredictionRecord);
  data_last_updated : option string
}.

(** How the promise of [fetch] settles when nobody aborts it. *)
Inductive FetchOutcome : Type :=
| fetchRejected (message : string)
| fetchResponse (ok : bool) (status : Z).

(** How the promise of [res.json()] settles when nobody aborts it. *)
Inductive JsonOutcome : Type :=
| jsonRejected (message : string)
| jsonData (data : Data).

(** Where a call of [fetchData] is suspended. *)
Inductive Phase : Type :=
| awaitingFetch
| awaitingJson
| finished.

(** A call of [fetchData] with the [AbortController] it created. *)
Record Request : Type := {
  aborted : bool;
  phase : Phase
}.

(** The state the callback reads and writes: four [useState] values, the
    ref, and the calls made so far (a request is named by its position). *)
Record State : Type := {
  records : list PredictionRecord;
  lastUpdated : option string;
  loading : bool;
  error : option string;
  abortControllerRef : option nat;
  requests : list Request
}.

Definition initial : State :=
  {| records := []; lastUpdated := None; loading := false; error := None;
     abortControllerRef := None; requests := [] |}.

(** What the operator can see of the state. *)
Definition visible (s : State) : list PredictionRecord * option string * bool * option string :=
  (records s, lastUpdated s, loading s, error s).

Inductive Event : Type :=
| call                                        (* fetchData() is called *)
| fetchSettles (id : nat) (o : FetchOutcome)  (* the awaited fetch settles *)
| jsonSettles (id : nat) (o : JsonOutcome)    (* the awaited res.json() settles *)
| unmount.                                    (* the cleanup of the effect *)

Definition request_of (e : Event) : option nat :=
  match e with
  | fetchSettles id _ | jsonSettles id _ => Some id
  | call | unmount => None
  end.

(** [controller.abort()] *)
Definition abort (id : nat) (rs : list Request) : list Request :=
  alter (fun r => {| aborted := true; phase := phase r |}) id rs.

Definition set_phase (id : nat) (p : Phase) (rs : list Request) : list Request :=
  alter (fun r => {| aborted := aborted r; phase := p |}) id rs.

Definition is_aborted (s : State) (id : nat) : bool :=
  match requests s !! id with Some r => aborted r | None => false end.

Definition phase_of (s : State) (id : nat) : Phase :=
  match requests s !! id with Some r => phase r | None => finished end.

Definition outstanding (s : State) (id : nat) : bool :=
  match phase_of s id with finished => false | _ => true end.

Section Callback.
Context `{Host}.

(** The [catch] block for an error with the given [name] and [message]. *)
Definition catch (id : nat) (name message : string) (s : State) : State :=
  if negb (String.eqb name "AbortError") then
    {| records := records s; lastUpdated := lastUpdated s;
       loading := false;
       error := Some (JSString.or_else message "Failed to fetch data");
       abortControllerRef := abortControllerRef s;
       requests := set_phase id finished (requests s) |}
  else
    {| records := records s; lastUpdated := lastUpdated s;
       loading := loading s; error := error s;
       abortControllerRef := abortControllerRef s;
       requests := set_phase id finished (requests s) |}.

(** [data.predictions || data.records || []]: an array is truthy even when
    it is empty. *)
Definition recs_of (d : Data) : list PredictionRecord :=
  match predictions d with
  | Some p => p
  | None => match data_records d with Some r => r | None => [] end
  end.

(** [data.last_updated || (recs.length > 0 ? recs[0].last_updated : null)] *)
Definition lastUpdated_of (d : Data) : option string :=
  match data_last_updated d with
  | Some t => if JSString.truthy t then Some t
              else match recs_of d with r :: _ => last_updated r | [] => None end
  | None => match recs_of d with r :: _ => last_updated r | [] => None end
  end.

(** From the call to the first [await]. *)
Definition start (s : State) : State :=
  let rs := match abortControllerRef s with
            | Some c => abort c (requests s)
            | None => requests s
            end in
  {| records := records s; lastUpdated := lastUpdated s;
     loading := true; error := None;
     abortControllerRef := Some (length rs);
     requests := rs ++ [{| aborted := false; phase := awaitingFetch |}] |}.

(** From the first [await] to the second, or to the end.  An aborted signal
    makes the awaited promise reject with an "AbortError" whatever the
    network delivers. *)
Definition afterFetch (id : nat) (o : FetchOutcome) (s : State) : State :=
  if is_aborted s id then catch id "AbortError" "The user aborted a request." s
  else
    match o with
    | fetchRejected message => catch id "TypeError" message s
    | fetchResponse ok status =>
        if negb ok
        then catch id "Error"
               ("API error: " ++ numberToString (JSNumber.of_Z status)) s
        else
          {| records := records s; lastUpdated := lastUpdated s;
             loading := loading s; error := error s;
             abortControllerRef := abortControllerRef s;
             requests := set_phase id awaitingJson (requests s) |}
    end.

(** From the second [await] to the end. *)
Definition afterJson (id : nat) (o : JsonOutcome) (s : State) : State :=
  if is_aborted s id then catch id "AbortError" "The user aborted a request." s
  else
    match o with
    | jsonRejected message => catch id "SyntaxError" message s
    | jsonData d =>
        {| records := recs_of d; lastUpdated := lastUpdated_of d;
           loading := false; error := error s;
           abortControllerRef := abortControllerRef s;
           requests := set_phase id finished (requests s) |}
    end.

(** The cleanup returned by the "Initial fetch" effect. *)
Definition cleanup (s : State) : State :=
  match abortControllerRef s with
  | Some c =>
      {| records := records s; lastUpdated := lastUpdated s;
         loading := loading s; error := error s;
         abortControllerRef := abortControllerRef s;
         requests := abort c (requests s) |}
  | None => s
  end.

(** One turn of the event loop.  A promise settles once, in the phase that
    awaits it; any other settlement event changes nothing. *)
Definition step (s : State) (e : Event) : State :=
  match e with
  | call => start s
  | fetchSettles id o =>
      match phase_of s id with
      | awaitingFetch => afterFetch id o s
      | _ => s
      end
  | jsonSettles id o =>
      match phase_of s id with
      | awaitingJson => afterJson id o s
      | _ => s
      end
  | unmount => cleanup s
  end.

Definition run (s : State) (es : list Event) : State := fold_left step es s.

End Callback.

(** The event is the settlement of a promise of the request [id]. *)
Definition about (id : nat) (e : Event) : bool :=
  match request_of e with Some i => Nat.eqb i id | None => false end.

(** The events with the settlements of the request [id] left out. *)
Definition without (id : nat) (es : list Event) : list Event :=
  List.filter (fun e => negb (about id e)) es.

(** Two tables of requests that differ at most at [id]. *)
Definition same_but (id : nat) (rs rs' : list Request) : Prop :=
  length rs = length rs' /\ forall j, j <> id -> rs !! j = rs' !! j.

(** Two states that differ at most in how far the aborted request [id]
    has got. *)
Definition agree (id : nat) (s s' : State) : Prop :=
  visible s = visible s' /\
  abortControllerRef s = abortControllerRef s' /\
  length (requests s) = length (requests s') /\
  (forall j, j <> id -> requests s !! j = requests s' !! j) /\
  is_aborted s id = true /\ is_aborted s' id = true.

(** The event sets the error indicator to a failure message. *)
Definition raises_error (s s' : State) : Prop :=
  error s' <> error s /\ error s' <> None.

(** The event is a failure that is not a cancellation: a rejected fetch, a
    reply that is not ok, or a body that does not parse, of a request that
    was not aborted. *)
Definition genuine_failure (s : State) (e : Event) : Prop :=
  match e with
  | fetchSettles id (fetchRejected _) => is_aborted s id = false
  | fetchSettles id (fetchResponse ok _) => is_aborted s id = false /\ ok = false
  | jsonSettles id (jsonRejected _) => is_aborted s id = false
  | _ => False
  end.
End Fetch.

(* ===================================================================== *)
(** ** The sort of one engine: V8 on a short array *)
(* ===================================================================== *)

(** [Array.prototype.sort] in V8 is a TimSort (builtins/array-sort.tq).
    The elements are copied to a work array and every comparison goes
    through a wrapper that reads NaN as 0.  The minimum run length of an
    array of fewer than 64 elements is its length, so the sort is one call
    of [CountAndMakeRun] and one of [BinaryInsertionSort], with nothing to
    merge.  This module follows that path; the runs and merges of longer
    arrays are not modelled. *)
Module V8.
Section TimSort.
Context {A : Type} (comparefn : A -> A -> number).

(** [order < 0] for the [order] the wrapper returns. *)
Definition less (x y : A) : bool :=
  match JSArray.SortCompare comparefn x y with Lt => true | _ => false end.

(** The loop of [CountAndMakeRun]: how many of the next elements continue
    the run that so far ends in [previous].  A descending run goes on while
    [order < 0], an ascending one while [order >= 0]. *)
Fixpoint continueRun (descending : bool) (previous : A) (next : list A) : nat :=
  match next with
  | [] => 0%nat
  | current :: next' =>
      if Bool.eqb (less current previous) descending
      then S (continueRun descending current next')
      else 0%nat
  end.

(** [CountAndMakeRun(0, length)]: the length of the run the array starts
    with, and the work array, in which a descending run has been
    reversed. *)
Definition CountAndMakeRun (work : list A) : nat * list A :=
  match work with
  | [] | [_] => (length work, work)
  | first :: second :: next =>
      let descending := less second first in
      let runLength := (2 + continueRun descending second next)%nat in
      (runLength,
       if descending then rev (take runLength work) ++ drop runLength work
       else work)
  end.

(** The search loop of [BinaryInsertionSort]: the slot of [pivot] among
    [sorted], between [left] and [right].  [steps] bounds the number of
    halvings. *)
Fixpoint insertionPoint (steps : nat) (sorted : list A) (pivot : A)
    (left right : nat) : nat :=
  match steps with
  | O => left
  | S steps' =>
      if (left <? right)%nat then
        let mid := (left + Nat.div2 (right - left))%nat in
        match sorted !! mid with
        | Some element =>
            if less pivot element
            then insertionPoint steps' sorted pivot left mid
            else insertionPoint steps' sorted pivot (S mid) right
        | None => left
        end
      else left
  end.

(** [BinaryInsertionSort(0, start, length)] on the work array
    [sorted ++ rest], where [start] is the length of [sorted]: each element
    of [rest] in turn is the pivot, and is moved to its slot among the
    elements before it. *)
Fixpoint BinaryInsertionSort (sorted rest : list A) : list A :=
  match rest with
  | [] => sorted
  | pivot :: rest' =>
      let left := insertionPoint (length sorted) sorted pivot 0%nat (length sorted) in
      BinaryInsertionSort (take left sorted ++ pivot :: drop left sorted) rest'
  end.

(** [ArrayTimSortImpl] when the minimum run length is the length of the
    array. *)
Definition sort (l : list A) : list A :=
  if (length l <? 2)%nat then l
  else
    let run := CountAndMakeRun l in
    BinaryInsertionSort (take run.1 run.2) (drop run.1 run.2).

End TimSort.
End V8.

(* ===================================================================== *)
(** ** The built-ins of one engine, on ASCII text *)
(* ===================================================================== *)

(** The built-ins of [Host] for strings that are ASCII: the collation is
    the code-unit order (the locale's collation is not modelled), case and
    white space are the ASCII ones, and a number prints as Number::toString
    prints the double nearest to it. *)
Module AsciiText.
Local Open Scope string_scope.

Definition compareStrings (a b : string) : Z :=
  match String.compare a b with Lt => -1 | Eq => 0 | Gt => 1 end.

Definition lower (c : ascii) : ascii :=
  let n := nat_of_ascii c in
  if Nat.leb 65 n && Nat.leb n 90 then ascii_of_nat (n + 32) else c.

Fixpoint lowerString (s : string) : string :=
  match s with
  | EmptyString => EmptyString
  | String c s' => String (lower c) (lowerString s')
  end.

Definition is_space (c : ascii) : bool :=
  let n := nat_of_ascii c in
  (Nat.leb 9 n && Nat.leb n 13) || Nat.eqb n 32.

Fixpoint trimStart (s : string) : string :=
  match s with
  | EmptyString => EmptyString
  | String c s' => if is_space c then trimStart s' else s
  end.

Definition reverse (s : string) : string :=
  string_of_list_ascii (rev (list_ascii_of_string s)).

Definition trimString (s : string) : string :=
  reverse (trimStart (reverse (trimStart s))).

(** The double nearest to a positive rational (ties to even): its
    significand and the exponent of its binade, [m * 2^(e - 52)] with
    [m < 2^53] and [e >= -1022]. *)
Definition floorLog2 (x : Q) : Z :=
  let e := Z.log2 (Qnum x) - Z.log2 (Z.pos (Qden x)) in
  if Qle_bool (Qpower 2 e) x then e else e - 1.

Definition roundHalfEven (x : Q) : Z :=
  let f := Qfloor x in
  match Qcompare (x - inject_Z f)%Q (1 # 2)%Q with
  | Lt => f
  | Gt => f + 1
  | Eq => if Z.even f then f else f + 1
  end.

Definition nearestDouble (x : Q) : Z * Z :=
  let e := Z.max (floorLog2 x) (-1022) in
  let m := roundHalfEven (x / Qpower 2 (e - 52))%Q in
  if Z.eqb m (2 ^ 53) then (2 ^ 52, e + 1) else (m, e).

Definition doubleValue (d : Z * Z) : Q :=
  (inject_Z (fst d) * Qpower 2 (snd d - 52))%Q.

(** A decimal is read as the double [d] when it lies within half a gap of
    it; on the edge it does when the significand is even.  The gap below a
    power of two is half the gap above. *)
Definition readsAs (d : Z * Z) (c : Q) : bool :=
  let (m, e) := d in
  let v := doubleValue d in
  let gap := Qpower 2 (e - 52) in
  let above := (v + gap / 2)%Q in
  let below := if Z.eqb m (2 ^ 52) && Z.ltb (-1022) e then (v - gap / 4)%Q else (v - gap / 2)%Q in
  if Z.even m then Qle_bool below c && Qle_bool c above
  else negb (Qle_bool c below) && negb (Qle_bool above c).

(** The [n] with [10^(n-1) <= x < 10^n]. *)
Definition decimalExponent (x : Q) : Z :=
  let guess := floorLog2 x * 30103 / 100000 - 1 in
  let step (n : Z) := if Qle_bool (Qpower 10 n) x then n + 1 else n in
  step (step (step (step guess))).

(** Number::toString, step 5: the least number [k] of digits, and the
    integer [s] of [k] digits nearest to [v / 10^(n-k)], for which
    [s * 10^(n-k)] is read as the double; [digits] counts down the
    numbers of digits still to try. *)
Fixpoint shortest (digits : nat) (k : Z) (d : Z * Z) (n : Z) : Z * Z :=
  let v := doubleValue d in
  let scale := Qpower 10 (n - k) in
  let low := Qfloor (v / scale)%Q in
  let lowFits := readsAs d (inject_Z low * scale)%Q in
  let highFits := readsAs d (inject_Z (low + 1) * scale)%Q in
  let lowNearer :=
    match Qcompare (v - inject_Z low * scale)%Q (inject_Z (low + 1) * scale - v)%Q with
    | Lt => true
    | Gt => false
    | Eq => Z.even low
    end in
  match digits with
  | O => (low, k)
  | S digits' =>
      if lowFits && (lowNearer || negb highFits) then (low, k)
      else if highFits then (low + 1, k)
      else shortest digits' (k + 1) d n
  end.

Fixpoint zeros (n : nat) : string :=
  match n with O => EmptyString | S n' => String "0" (zeros n') end.

(** Number::toString, steps 6 to 10: the digits [ds] of [s] and the
    exponent [n] laid out. *)
Definition layOut (ds : string) (n : Z) : string :=
  let k := Z.of_nat (String.length ds) in
  if Z.leb k n && Z.leb n 21 then ds ++ zeros (Z.to_nat (n - k))
  else if Z.ltb 0 n && Z.leb n 21 then
    String.substring 0 (Z.to_nat n) ds ++ "." ++
    String.substring (Z.to_nat n) (String.length ds - Z.to_nat n) ds
  else if Z.ltb (-6) n && Z.leb n 0 then "0." ++ zeros (Z.to_nat (- n)) ++ ds
  else
    let e := n - 1 in
    let exponent := (if Z.ltb e 0 then "-" else "+") ++ JSString.int_digits (Z.abs e) in
    match ds with
    | String c EmptyString => String c ("e" ++ exponent)
    | String c rest => String c ("." ++ rest ++ "e" ++ exponent)
    | EmptyString => ds
    end.

(** Number::toString in radix 10, of the double nearest to the value. *)
Definition printNumber (x : number) : string :=
  match x with
  | JSNumber.NaN => "NaN"
  | JSNumber.PosInf => "Infinity"
  | JSNumber.NegInf => "-Infinity"
  | JSNumber.Finite q =>
      let sign := if Qle_bool 0 q then EmptyString else "-" in
      let d := nearestDouble (Qabs q) in
      if Z.eqb (fst d) 0 then "0"
      else if Z.ltb 1023 (snd d) then sign ++ "Infinity"
      else
        let n := decimalExponent (doubleValue d) in
        let (s, k) := shortest 17 1 d n in
        (* a carry makes [s] a power of ten with one more digit *)
        if Z.eqb s (10 ^ k) then sign ++ layOut "1" (n + 1)
        else sign ++ layOut (JSString.int_digits s) n
  end.

Definition printInherited (k : string) : string :=
  if String.eqb k "__proto__" then "[object Object]"
  else if String.eqb k "constructor" then "function Object() { [native code] }"
  else "function " ++ k ++ "() { [native code] }".

End AsciiText.

(* ===================================================================== *)
(** ** Sample snapshots *)
(* ===================================================================== *)

Module Samples.

Definition tshirt : PredictionRecord :=
  {| sku_id := "TSHIRT_RED_M"; store_id := "STORE_MUMBAI";
     current_stock := JSNumber.of_Z 45;
     avg_daily_sales := Some (JSNumber.Finite (3 # 2));
     days_to_stockout := Some (JSNumber.of_Z 30);
     status := "Safe";
     recommended_reorder_quantity := Some (JSNumber.of_Z 20);
     category := Some "T-Shirts"; city := Some "Mumbai";
     last_updated := None |}.

Definition jeans : PredictionRecord :=
  {| sku_id := "JEANS_BLUE_32"; store_id := "STORE_DELHI";
     current_stock := JSNumber.of_Z 2;
     avg_daily_sales := Some (JSNumber.of_Z 1);
     days_to_stockout := Some (JSNumber.of_Z 2);
     status := "Critical";
     recommended_reorder_quantity := Some (JSNumber.of_Z 30);
     category := Some "Jeans"; city := None;
     last_updated := None |}.

Definition cap : PredictionRecord :=
  {| sku_id := "cap_black"; store_id := "STORE_MUMBAI";
     current_stock := JSNumber.of_Z 10;
     avg_daily_sales := Some (JSNumber.of_Z 0);
     days_to_stockout := Some JSNumber.PosInf;
     status := "Safe";
     recommended_reorder_quantity := None;
     category := None; city := Some "Mumbai";
     last_updated := None |}.

Definition socks : PredictionRecord :=
  {| sku_id := "SOCKS_WHITE"; store_id := "STORE_DELHI";
     current_stock := JSNumber.of_Z 3;
     avg_daily_sales := Some (JSNumber.Finite (5 # 4));
     days_to_stockout := Some (JSNumber.Finite (12 # 5));
     status := "Critical";
     recommended_reorder_quantity := Some (JSNumber.of_Z 30);
     category := Some "Socks"; city := Some "Delhi";
     last_updated := None |}.

Definition snapshot : list PredictionRecord := [tshirt; cap; jeans; socks].

(** A Critical record of the store [store]. *)
Definition criticalOf (store : string) : PredictionRecord :=
  {| sku_id := "JEANS_BLUE_32"; store_id := store;
     current_stock := JSNumber.of_Z 2;
     avg_daily_sales := Some (JSNumber.of_Z 1);
     days_to_stockout := Some (JSNumber.of_Z 2);
     status := "Critical";
     recommended_reorder_quantity := Some (JSNumber.of_Z 30);
     category := Some "Jeans"; city := None;
     last_updated := None |}.

Definition byDays (o : SortOrder) : Criteria :=
  {| storeFilter := "ALL"; categoryFilter := "ALL"; search := EmptyString;
     showCriticalOnly := false; sortField := col_days_to_stockout;
     sortOrder := o |}.

(** Two replies of [GET /latest]. *)
Definition staleReply : Fetch.Data :=
  {| Fetch.predictions := Some [tshirt];
     Fetch.data_records := None;
     Fetch.data_last_updated := Some "2024-01-01T10:00:00" |}.

Definition freshReply : Fetch.Data :=
  {| Fetch.predictions := Some snapshot;
     Fetch.data_records := None;
     Fetch.data_last_updated := Some "2024-01-01T10:05:00" |}.

Definition onlyCritical : Criteria :=
  {| storeFilter := "ALL"; categoryFilter := "ALL"; search := EmptyString;
     showCriticalOnly := true; sortField := col_sku_id; sortOrder := asc |}.

End Samples.

(* ===================================================================== *)
(** ** The rest of the component: option lists, badge, theme, search box *)
(* ===================================================================== *)

Module JSSet.

(** [set.add(x)] on the values of a Set in insertion order: a value that is
    already there changes nothing. *)
Definition add (values : list string) (x : string) : list string :=
  if existsb (String.eqb x) values then values else values ++ [x].

(** [Array.from(new Set(values))] *)
Definition from (values : list string) : list string := fold_left add values [].

End JSSet.

(** [["ALL", ...Array.from(new Set(records.map((r) => r.store_id)))]] *)
Definition stores (recs : list PredictionRecord) : list string :=
  "ALL" :: JSSet.from (map store_id recs).

(** What [.filter(Boolean)] keeps of a category: a string that is not
    empty. *)
Definition keptCategory (r : PredictionRecord) : option string :=
  match category r with
  | Some s => if JSString.truthy s then Some s else None
  | None => None
  end.

(** [["ALL", ...Array.from(new Set(records.map((r) => r.category).filter(Boolean)))]] *)
Definition categories (recs : list PredictionRecord) : list string :=
  "ALL" :: JSSet.from (omap keptCategory recs).

(** The three entries of [styles] that [StatusBadge] chooses from. *)
Inductive BadgeStyle : Type := statusCritical | statusWarning | statusSafe.

(** [StatusBadge]: the style spread over [styles.statusBadge]. *)
Definition StatusBadge (status : string) : BadgeStyle :=
  if String.eqb status "Critical" then statusCritical
  else if String.eqb status "Warning" then statusWarning
  else statusSafe.

(** The dark mode state, its effect and the background of the container. *)
Module Theme.

(** The two stores the code touches: [localStorage] and the inline style of
    [document.documentElement]. *)
Record Page : Type := {
  localStorage : gmap string string;
  rootStyle : gmap string string
}.

(** The initialiser of [useState]: [localStorage.getItem("darkMode") === "true"];
    [getItem] gives [null] for a key that is not stored. *)
Definition initialDarkMode (p : Page) : bool :=
  match localStorage p !! "darkMode" with
  | Some v => String.eqb v "true"
  | None => false
  end.

(** The text [setItem] stores for a boolean. *)
Definition booleanToString (b : bool) : string := if b then "true" else "false".

(** The body of the "Dark mode" effect. *)
Definition darkModeEffect (darkMode : bool) (p : Page) : Page :=
  {| localStorage := <["darkMode" := booleanToString darkMode]> (localStorage p);
     rootStyle :=
       if darkMode then
         <["--text-secondary" := "#d1d5db"]>
           (<["--text-primary" := "#f3f4f6"]>
              (<["--bg-tertiary" := "#4b5563"]>
                 (<["--bg-secondary" := "#374151"]>
                    (<["--bg-primary" := "#1f2937"]> (rootStyle p)))))
       else
         <["--text-secondary" := "#6b7280"]>
           (<["--text-primary" := "#111827"]>
              (<["--bg-tertiary" := "#f3f4f6"]>
                 (<["--bg-secondary" := "#ffffff"]>
                    (<["--bg-primary" := "#f9fafb"]> (rootStyle p))))) |}.

(** [style.getPropertyValue(name)]: the empty string when the property is
    not set. *)
Definition getPropertyValue (p : Page) (name : string) : string :=
  default EmptyString (rootStyle p !! name).

(** [mainStyle.backgroundColor], computed by the render. *)
Definition backgroundColor (darkMode : bool) (p : Page) : string :=
  if darkMode then JSString.or_else (getPropertyValue p "--bg-primary") "#1f2937"
  else "#f9fafb".

(** The state [darkMode], the page, and the background the last render gave
    the container. *)
Record State : Type := {
  darkMode : bool;
  page : Page;
  shownBackground : string
}.

(** The first render and the effect that follows it. *)
Definition mount (p : Page) : State :=
  let dm := initialDarkMode p in
  {| darkMode := dm; page := darkModeEffect dm p;
     shownBackground := backgroundColor dm p |}.

(** The click on the toggle: [setDarkMode(!darkMode)], the render with the
    new state, then the effect, whose dependency changed. *)
Definition toggle (s : State) : State :=
  let dm := negb (darkMode s) in
  {| darkMode := dm; page := darkModeEffect dm (page s);
     shownBackground := backgroundColor dm (page s) |}.

(** A render caused by any other state: the effect does not run again. *)
Definition rerender (s : State) : State :=
  {| darkMode := darkMode s; page := page s;
     shownBackground := backgroundColor (darkMode s) (page s) |}.

(** The five custom properties the effect assigns. *)
Definition variables : list string :=
  [ "--bg-primary"; "--bg-secondary"; "--bg-tertiary"; "--text-primary";
    "--text-secondary" ].

(** What happens to the mounted component, as far as the theme goes. *)
Inductive Event : Type :=
| toggleClick      (* the click on the dark mode toggle *)
| otherRender.     (* a render for another reason *)

Definition step (s : State) (e : Event) : State :=
  match e with
  | toggleClick => toggle s
  | otherRender => rerender s
  end.

Definition run (s : State) (es : list Event) : State := fold_left step es s.

End Theme.

(** The search box: [handleSearchChange] and its timer. *)
Module SearchBox.

(** The state [search], the ref, and the timers that were set and have
    neither fired nor been cleared; a timer is named by a number. *)
Record State : Type := {
  search : string;
  searchTimeoutRef : option nat;
  pending : list nat;
  nextTimer : nat
}.

Definition initial : State :=
  {| search := EmptyString; searchTimeoutRef := None; pending := [];
     nextTimer := 0 |}.

Inductive Event : Type :=
| change (val : string)      (* onChange of the input *)
| timerFires (id : nat).     (* a pending timer runs its callback *)

(** [clearTimeout(ref)]: nothing happens for [null] or a timer that is gone. *)
Definition clearTimeout (ref : option nat) (timers : list nat) : list nat :=
  match ref with
  | Some id => List.filter (fun t => negb (Nat.eqb t id)) timers
  | None => timers
  end.

(** [handleSearchChange(val)] *)
Definition handleSearchChange (val : string) (s : State) : State :=
  {| search := val;
     searchTimeoutRef := Some (nextTimer s);
     pending := clearTimeout (searchTimeoutRef s) (pending s) ++ [nextTimer s];
     nextTimer := S (nextTimer s) |}.

(** A timer that fires runs the callback, whose body is a comment. *)
Definition fire (id : nat) (s : State) : State :=
  {| search := search s;
     searchTimeoutRef := searchTimeoutRef s;
     pending := List.filter (fun t => negb (Nat.eqb t id)) (pending s);
     nextTimer := nextTimer s |}.

Definition step (s : State) (e : Event) : State :=
  match e with
  | change val => handleSearchChange val s
  | timerFires id => if existsb (Nat.eqb id) (pending s) then fire id s else s
  end.

Definition run (s : State) (es : list Event) : State := fold_left step es s.

(** The value of the last [change], if there is one. *)
Definition lastTyped (start : string) (es : list Event) : string :=
  fold_left (fun v e => match e with change val => val | timerFires _ => v end) es start.

End SearchBox.

(** Notions about the run of [fetchData]. *)
Module FetchRun.

(** A state the component can be in: the initial state after some events. *)
Definition reachable `{Host} (s : Fetch.State) : Prop :=
  exists es, s = Fetch.run Fetch.initial es.

(** The promise the event settles is the one its request is waiting for. *)
Definition awaited (s : Fetch.State) (e : Fetch.Event) : Prop :=
  match e with
  | Fetch.fetchSettles id _ => Fetch.phase_of s id = Fetch.awaitingFetch
  | Fetch.jsonSettles id _ => Fetch.phase_of s id = Fetch.awaitingJson
  | _ => True
  end.

Definition is_call (e : Fetch.Event) : bool :=
  match e with Fetch.call => true | _ => false end.

Definition is_unmount (e : Fetch.Event) : bool :=
  match e with Fetch.unmount => true | _ => false end.

(** Every request other than the one of the ref is aborted, and the ref
    names a request of the table. *)
Definition one_live (s : Fetch.State) : Prop :=
  (forall id r, Fetch.requests s !! id = Some r ->
     Fetch.abortControllerRef s <> Some id -> Fetch.aborted r = true) /\
  (forall c, Fetch.abortControllerRef s = Some c ->
     (c < length (Fetch.requests s))%nat).

(** The spinner is on exactly while the request of the ref is outstanding,
    and that request is not aborted. *)
Definition spinner_tracks_request (s : Fetch.State) : Prop :=
  (forall c, Fetch.abortControllerRef s = Some c -> Fetch.is_aborted s c = false) /\
  (Fetch.loading s = true <->
   exists c, Fetch.abortControllerRef s = Some c /\ Fetch.outstanding s c = true).

(** Every controller created so far has been aborted. *)
Definition all_aborted (s : Fetch.State) : Prop :=
  forall id r, Fetch.requests s !! id = Some r -> Fetch.aborted r = true.

End FetchRun.

(** No double quote in a text. *)
Fixpoint no_dquote (s : string) : bool :=
  match s with
  | EmptyString => true
  | String c s' => negb (Ascii.eqb c (ascii_of_nat 34)) && no_dquote s'
  end.

(** More sample inputs. *)
Module MoreSamples.

Definition delhi : Criteria :=
  {| storeFilter := "STORE_DELHI"; categoryFilter := "ALL";
     search := EmptyString; showCriticalOnly := false;
     sortField := col_sku_id; sortOrder := asc |}.

(** The record of [Samples.jeans] as a later snapshot has it. *)
Definition jeansLater : PredictionRecord :=
  {| sku_id := "JEANS_BLUE_32"; store_id := "STORE_DELHI";
     current_stock := JSNumber.of_Z 2;
     avg_daily_sales := Some (JSNumber.of_Z 1);
     days_to_stockout := Some (JSNumber.of_Z 2);
     status := "Critical";
     recommended_reorder_quantity := Some (JSNumber.of_Z 30);
     category := Some "Jeans"; city := None;
     last_updated := Some "2024-01-01T10:05:00" |}.

(** A record with the given SKU, days to stock-out and reorder quantity;
    [None] is a field the reply does not have. *)
Definition item (sku : string) (days quantity : option number) : PredictionRecord :=
  {| sku_id := sku; store_id := "STORE_DELHI";
     current_stock := JSNumber.of_Z 4;
     avg_daily_sales := Some (JSNumber.of_Z 1);
     days_to_stockout := days;
     status := "Warning";
     recommended_reorder_quantity := quantity;
     category := None; city := None;
     last_updated := None |}.

Definition byQuantity : Criteria :=
  {| storeFilter := "ALL"; categoryFilter := "ALL";
     search := EmptyString; showCriticalOnly := false;
     sortField := col_recommended_reorder_quantity; sortOrder := asc |}.

(** Seven records, three of them without a reorder quantity. *)
Definition fiveFirst : PredictionRecord :=
  item "SKU_E" (Some (JSNumber.of_Z 4)) (Some (JSNumber.of_Z 5)).
Definition fiveSecond : PredictionRecord :=
  item "SKU_G" (Some (JSNumber.of_Z 4)) (Some (JSNumber.of_Z 5)).
Definition partlyPlanned : list PredictionRecord :=
  [ item "SKU_A" (Some (JSNumber.of_Z 4)) None;
    item "SKU_B" (Some (JSNumber.of_Z 4)) None;
    item "SKU_C" (Some (JSNumber.of_Z 4)) (Some (JSNumber.of_Z 9));
    item "SKU_D" (Some (JSNumber.of_Z 4)) None;
    fiveFirst;
    item "SKU_F" (Some (JSNumber.of_Z 4)) (Some (JSNumber.of_Z 0));
    fiveSecond ].

(** A record without [days_to_stockout]. *)
Definition undated : PredictionRecord :=
  item "SKU_U" None (Some (JSNumber.of_Z 10)).

(** A record whose days to stock-out are 10^21. *)
Definition farAway : PredictionRecord :=
  item "SKU_X" (Some (JSNumber.of_Z (10 ^ 21))) (Some (JSNumber.of_Z 10)).

(** A record without [avg_daily_sales]. *)
Definition unsold : PredictionRecord :=
  {| sku_id := "SKU_N"; store_id := "STORE_DELHI";
     current_stock := JSNumber.of_Z 4;
     avg_daily_sales := None;
     days_to_stockout := Some JSNumber.PosInf;
     status := "Safe";
     recommended_reorder_quantity := None;
     category := None; city := None;
     last_updated := None |}.

(** Four records with 3, 2, no and 1 days to stock-out. *)
Definition fourDays : list PredictionRecord :=
  [ item "K0" (Some (JSNumber.of_Z 3)) (Some (JSNumber.of_Z 10));
    item "K1" (Some (JSNumber.of_Z 2)) (Some (JSNumber.of_Z 10));
    item "K2" None (Some (JSNumber.of_Z 10));
    item "K3" (Some (JSNumber.of_Z 1)) (Some (JSNumber.of_Z 10)) ].

End MoreSamples.

(** The record [r] with another SKU and store. *)
Definition relabelled (r : PredictionRecord) (sku store : string) : PredictionRecord :=
  {| sku_id := sku; store_id := store;
     current_stock := current_stock r;
     avg_daily_sales := avg_daily_sales r;
     days_to_stockout := days_to_stockout r;
     status := status r;
     recommended_reorder_quantity := recommended_reorder_quantity r;
     category := category r; city := city r;
     last_updated := last_updated r |}.

(* ===================================================================== *)
(** ** Notions used to state the properties *)
(* ===================================================================== *)

(** [x] occurs in [l] somewhere before an occurrence of [y]. *)
Definition precedes {A} (x y : A) (l : list A) : Prop :=
  exists l1 l2 l3, l = l1 ++ x :: l2 ++ y :: l3.

(** The position in [l] that each element of the sorted array came from:
    the elements are tagged with their positions before the sort and the
    tags are read off after it. *)
Definition tagged {A} (l : list A) : list (nat * A) := zip (seq 0 (length l)) l.

Definition sourcePositions {A} (comparefn : A -> A -> number) (l : list A) : list nat :=
  map fst (JSArray.stableSort (fun x y => comparefn (snd x) (snd y)) (tagged l)).

(** The order a stable sort has to put the tagged elements in: by the
    comparator, and by position among the elements that compare equal. *)
Definition stable_order {A} (comparefn : A -> A -> number) (x y : nat * A) : Prop :=
  match JSArray.SortCompare comparefn (snd x) (snd y) with
  | Lt => True
  | Eq => (fst x <= fst y)%nat
  | Gt => False
  end.

(** No element is followed, anywhere later, by one it is greater than. *)
Definition sorted_by {A} (comparefn : A -> A -> number) (l : list A) : Prop :=
  forall i j a b, (i < j)%nat -> l !! i = Some a -> l !! j = Some b ->
    JSArray.SortCompare comparefn a b <> Gt.

(** [x], which came after the elements of [l] in the input, is put in
    front of the first element it is strictly smaller than: where a stable
    sort puts it when [l] is sorted. *)
Fixpoint insertLast {A} (comparefn : A -> A -> number) (x : A) (l : list A) : list A :=
  match l with
  | [] => [x]
  | z :: l' =>
      match JSArray.SortCompare comparefn x z with
      | Lt => x :: l
      | _ => z :: insertLast comparefn x l'
      end
  end.

(** The number of Critical records of a store. *)
Definition criticalAt (s : string) (recs : list PredictionRecord) : nat :=
  length (List.filter (fun r => isCritical r && String.eqb (store_id r) s) recs).

(** The sum of the values of an object, as JavaScript would add them up when
    they are all numbers. *)
Definition total (o : JSObject.object) : number :=
  fold_right (fun e acc =>
                match snd e with
                | JSObject.PNumber n => JSNumber.add n acc
                | _ => JSNumber.NaN
                end) (JSNumber.of_Z 0) o.

(** A table of integer counters, the object that holds them, and the
    counting step on the table: used to follow the reducer of
    [criticalByStore] on store names that [Object.prototype] does not
    have. *)
Definition counters : Type := list (string * Z).

Definition counters_object (cs : counters) : JSObject.object :=
  map (fun e => (fst e, JSObject.PNumber (JSNumber.of_Z (snd e)))) cs.

Fixpoint counter (cs : counters) (k : string) : option Z :=
  match cs with
  | [] => None
  | (k', n) :: cs' => if String.eqb k' k then Some n else counter cs' k
  end.

Fixpoint bump (cs : counters) (k : string) : counters :=
  match cs with
  | [] => [(k, 1)]
  | (k', n) :: cs' =>
      if String.eqb k' k then (k', n + 1) :: cs' else (k', n) :: bump cs' k
  end.

(** The counter the step stores. *)
Definition next (v : option Z) : Z := default 0 v + 1.

Definition counters_sum (cs : counters) : Z :=
  fold_right (fun e acc => snd e + acc) 0 cs.

(** The sort column of a record holds a value the comparator can order: a
    string, or a number other than NaN. *)
Definition sortable (c : Criteria) (r : PredictionRecord) : Prop :=
  match sortField c with
  | col_sku_id | col_store_id => True
  | _ => exists n, number_column (sortField c) r = Some n /\ JSNumber.is_nan n = false
  end.

(* ===================================================================== *)
(** * Properties *)
(* ===================================================================== *)

(** ** Numbers *)

Section NumberFacts.
Import JSNumber.

Lemma sign_sub_Lt a b : is_nan a = false -> is_nan b = false ->
  sign (sub a b) = Lt <-> lt a b.
Proof.
  destruct a as [x| | |], b as [y| | |]; simpl; intros _ _;
    try (split; [discriminate|tauto]); try done.
  rewrite <- Qlt_alt. unfold Qlt, Qminus, Qplus, Qopp; simpl. lia.
Qed.

Lemma sign_sub_Gt a b : is_nan a = false -> is_nan b = false ->
  sign (sub a b) = Gt <-> lt b a.
Proof.
  destruct a as [x| | |], b as [y| | |]; simpl; intros _ _;
    try (split; [discriminate|tauto]); try done.
  rewrite <- Qgt_alt. unfold Qlt, Qminus, Qplus, Qopp; simpl. lia.
Qed.

Lemma lt_irrefl a : ~ lt a a.
Proof. destruct a; simpl; auto. apply Qlt_irrefl. Qed.

Lemma lt_trans a b c : lt a b -> lt b c -> lt a c.
Proof.
  destruct a, b, c; simpl; try tauto. apply Qlt_trans.
Qed.

Lemma lt_asym a b : lt a b -> ~ lt b a.
Proof. intros H1 H2. exact (lt_irrefl a (lt_trans _ _ _ H1 H2)). Qed.

(** Negative transitivity: the incomparable pairs are the equal ones. *)
Lemma lt_cotrans a b c : is_nan c = false -> lt a b -> lt a c \/ lt c b.
Proof.
  destruct a as [x| | |], b as [y| | |], c as [z| | |]; simpl;
    intros Hc H; try discriminate; try tauto.
  destruct (Qlt_le_dec x z) as [Hxz|Hzx]; [by left|right].
  eapply Qle_lt_trans; eauto.
Qed.

Lemma sign_sub_antisym a b : is_nan a = false -> is_nan b = false ->
  sign (sub a b) = CompOpp (sign (sub b a)).
Proof.
  intros Ha Hb.
  pose proof (sign_sub_Lt a b Ha Hb) as L1. pose proof (sign_sub_Gt a b Ha Hb) as G1.
  pose proof (sign_sub_Lt b a Hb Ha) as L2. pose proof (sign_sub_Gt b a Hb Ha) as G2.
  pose proof (lt_asym a b) as Hasym.
  destruct (sign (sub a b)), (sign (sub b a)); simpl; try reflexivity;
    exfalso; intuition (try discriminate).
Qed.

Lemma sign_sub_trans a b c :
  is_nan a = false -> is_nan b = false -> is_nan c = false ->
  sign (sub a b) <> Gt -> sign (sub b c) <> Gt -> sign (sub a c) <> Gt.
Proof.
  intros Ha Hb Hc Hab Hbc Hac.
  apply sign_sub_Gt in Hac; [|done..].
  destruct (lt_cotrans c a b Hb Hac) as [Hcb|Hba].
  - apply Hbc. by apply sign_sub_Gt.
  - apply Hab. by apply sign_sub_Gt.
Qed.

Lemma sign_of_Z z : sign (of_Z z) = (z ?= 0)%Z.
Proof. unfold sign, of_Z, Qcompare. simpl. by rewrite Z.mul_1_r. Qed.

End NumberFacts.

(** ** The sort *)

Section SortFacts.
Context {A : Type} (comparefn : A -> A -> number).
Local Abbreviation cmp := (JSArray.SortCompare comparefn).
Local Abbreviation insert := (JSArray.insert comparefn).
Local Abbreviation sort := (JSArray.stableSort comparefn).

(** [insert] cuts the list in two and puts the new element at the cut; the
    elements in front are all strictly smaller than it. *)
Lemma insert_split x l :
  exists l1 l2, l = l1 ++ l2 /\ insert x l = l1 ++ x :: l2 /\
    Forall (fun w => cmp x w = Gt) l1.
Proof.
  induction l as [|y l IH]; simpl.
  - exists [], []. auto.
  - destruct (cmp x y) eqn:E.
    + exists [], (y :: l). auto.
    + exists [], (y :: l). auto.
    + destruct IH as (l1 & l2 & -> & -> & HF).
      exists (y :: l1), l2. repeat split; auto.
Qed.

Lemma insert_perm x l : insert x l ≡ₚ x :: l.
Proof.
  destruct (insert_split x l) as (l1 & l2 & -> & -> & _).
  symmetry. apply Permutation_middle.
Qed.

Lemma sort_perm l : sort l ≡ₚ l.
Proof.
  induction l as [|x l IH]; simpl; [done|].
  rewrite insert_perm. by constructor.
Qed.

Lemma sort_length l : length (sort l) = length l.
Proof. apply Permutation_length, sort_perm. Qed.

Lemma elem_of_sort x l : x ∈ sort l <-> x ∈ l.
Proof. by rewrite sort_perm. Qed.

Lemma precedes_cons (x y z : A) l : precedes x y l -> precedes x y (z :: l).
Proof. intros (l1 & l2 & l3 & ->). by exists (z :: l1), l2, l3. Qed.

Lemma precedes_head (x y : A) l : y ∈ l -> precedes x y (x :: l).
Proof.
  intros (l2 & l3 & ->)%list_elem_of_split. by exists [], l2, l3.
Qed.

Lemma precedes_cons_inv (x y w : A) l :
  precedes x y (w :: l) -> (x = w /\ y ∈ l) \/ precedes x y l.
Proof.
  intros ([|w' l1] & l2 & l3 & Heq); simpl in Heq; injection Heq as -> ->.
  - left. split; [done|]. apply elem_of_app. right. apply list_elem_of_here.
  - right. by exists l1, l2, l3.
Qed.

(** Inserting a third element keeps two elements in their order. *)
Lemma insert_precedes x y z l : precedes x y l -> precedes x y (insert z l).
Proof.
  induction l as [|w l IH]; intros Hp.
  - destruct Hp as ([|? ?] & ? & ? & ?); discriminate.
  - simpl. destruct (cmp z w); try by apply precedes_cons.
    apply precedes_cons_inv in Hp as [[-> Hy]|Hp].
    + apply precedes_head. by rewrite insert_perm, elem_of_cons; right.
    + by apply precedes_cons, IH.
Qed.

(** The inserted element stays in front of every element it is not strictly
    greater than. *)
Lemma insert_head_precedes z y l :
  y ∈ l -> cmp z y <> Gt -> precedes z y (insert z l).
Proof.
  induction l as [|w l IH]; intros Hy Hzy; [by apply elem_of_nil in Hy|].
  simpl. destruct (cmp z w) eqn:E.
  - by apply precedes_head.
  - by apply precedes_head.
  - apply elem_of_cons in Hy as [->|Hy]; [done|].
    apply precedes_cons. by apply IH.
Qed.

(** The sort never moves an element in front of an earlier one that is not
    strictly greater. *)
Lemma sort_precedes x y l :
  precedes x y l -> cmp x y <> Gt -> precedes x y (sort l).
Proof.
  intros (l1 & l2 & l3 & ->) Hxy.
  induction l1 as [|w l1 IH]; simpl.
  - apply insert_head_precedes; [|done].
    apply elem_of_sort, elem_of_app. right. apply list_elem_of_here.
  - by apply insert_precedes.
Qed.

(** Mapping the elements commutes with sorting on the mapped value. *)
Lemma insert_map {B} (f : B -> A) x l :
  map f (JSArray.insert (fun a b => comparefn (f a) (f b)) x l) = insert (f x) (map f l).
Proof.
  induction l as [|y l IH]; simpl; [done|].
  unfold JSArray.SortCompare.
  destruct (JSNumber.sign (comparefn (f x) (f y))); simpl; by rewrite ?IH.
Qed.

Lemma sort_map {B} (f : B -> A) l :
  map f (JSArray.stableSort (fun a b => comparefn (f a) (f b)) l) = sort (map f l).
Proof.
  induction l as [|x l IH]; simpl; [done|].
  by rewrite insert_map, IH.
Qed.

Lemma consistent_on_mono l l' :
  (forall x, x ∈ l' -> x ∈ l) -> consistent_on comparefn l -> consistent_on comparefn l'.
Proof.
  intros Hsub [Hanti Htrans]. split.
  - intros a b Ha Hb. apply Hanti; auto.
  - intros a b c Ha Hb Hc. apply Htrans; auto.
Qed.

(** For a consistent comparator the result is sorted. *)
Lemma insert_sorted x l :
  consistent_on comparefn (x :: l) ->
  StronglySorted (fun a b => cmp a b <> Gt) l ->
  StronglySorted (fun a b => cmp a b <> Gt) (insert x l).
Proof.
  intros Hc Hs. revert Hc.
  induction Hs as [|y l Hs IH Hy]; intros Hc; simpl.
  - repeat constructor.
  - pose proof Hc as [Hanti Htrans].
    assert (Hx : x ∈ x :: y :: l) by apply list_elem_of_here.
    assert (Hyin : y ∈ x :: y :: l) by apply list_elem_of_further, list_elem_of_here.
    assert (Hin : forall w, w ∈ l -> w ∈ x :: y :: l)
      by (intros w Hw; by do 2 apply list_elem_of_further).
    rewrite Forall_forall in Hy.
    assert (Hle : cmp x y <> Gt ->
                  StronglySorted (fun a b => cmp a b <> Gt) (x :: y :: l)).
    { intros Hxy. constructor; [by constructor; [|apply Forall_forall]|].
      constructor; [done|]. apply Forall_forall. intros w Hw.
      apply (Htrans x y w); auto. }
    destruct (cmp x y) eqn:E; [by apply Hle..|].
    constructor.
    + apply IH. eapply consistent_on_mono; [|exact Hc].
      intros w [->|Hw]%elem_of_cons; auto.
    + apply Forall_forall. intros w Hw.
      rewrite insert_perm in Hw. apply elem_of_cons in Hw as [->|Hw].
      * rewrite (Hanti y x) by auto. rewrite E. simpl. congruence.
      * by apply Hy.
Qed.

Lemma sort_StronglySorted l :
  consistent_on comparefn l ->
  StronglySorted (fun a b => cmp a b <> Gt) (sort l).
Proof.
  induction l as [|x l IH]; intros Hc; simpl; [constructor|].
  apply insert_sorted.
  - eapply consistent_on_mono; [|exact Hc].
    intros w [->|Hw]%elem_of_cons; [apply list_elem_of_here|].
    apply list_elem_of_further. by apply elem_of_sort.
  - apply IH. eapply consistent_on_mono; [|exact Hc].
    intros w Hw. by apply list_elem_of_further.
Qed.

Lemma StronglySorted_lookup (R : A -> A -> Prop) l :
  StronglySorted R l ->
  forall i j a b, (i < j)%nat -> l !! i = Some a -> l !! j = Some b -> R a b.
Proof.
  induction 1 as [|x l Hs IH Hx]; intros i j a b Hij Hi Hj.
  - by rewrite lookup_nil in Hi.
  - destruct j as [|j]; [lia|]. simpl in Hj. destruct i as [|i].
    + simpl in Hi. injection Hi as ->.
      rewrite Forall_forall in Hx. apply Hx.
      apply list_elem_of_lookup. eauto.
    + simpl in Hi. apply (IH i j); [lia|done..].
Qed.

Lemma sort_sorted l : consistent_on comparefn l -> sorted_by comparefn (sort l).
Proof.
  intros Hc i j a b. apply (StronglySorted_lookup _ _ (sort_StronglySorted l Hc)).
Qed.

End SortFacts.

(** ** Positions before and after the sort *)

Section Precedes.
Context {A : Type}.

Lemma lookup_precedes (l : list A) i j x y :
  (i < j)%nat -> l !! i = Some x -> l !! j = Some y -> precedes x y l.
Proof.
  intros Hij Hi Hj.
  exists (take i l), (take (j - S i) (drop (S i) l)), (drop (S j) l).
  rewrite <- (take_drop_middle l i x Hi) at 1. f_equal. f_equal.
  assert (Hj' : drop (S i) l !! (j - S i)%nat = Some y).
  { rewrite lookup_drop. rewrite <- Hj. f_equal. lia. }
  rewrite <- (take_drop_middle _ _ _ Hj') at 1. f_equal. f_equal.
  rewrite drop_drop. f_equal. lia.
Qed.

(** In a list without repeated tags, an element in front of another has the
    smaller position. *)
Lemma precedes_positions {B} (f : A -> B) (l : list A) x y p q :
  NoDup (map f l) -> precedes x y l ->
  map f l !! p = Some (f x) -> map f l !! q = Some (f y) -> (p < q)%nat.
Proof.
  intros Hnd (l1 & l2 & l3 & ->) Hp Hq.
  assert (Hp' : map f (l1 ++ x :: l2 ++ y :: l3) !! length l1 = Some (f x)).
  { rewrite map_app, lookup_app_r by (rewrite length_map; lia).
    by rewrite length_map, Nat.sub_diag. }
  assert (Hq' : map f (l1 ++ x :: l2 ++ y :: l3) !! (length l1 + S (length l2))%nat
                = Some (f y)).
  { rewrite map_app, lookup_app_r by (rewrite length_map; lia).
    rewrite length_map. replace (length l1 + S (length l2) - length l1)%nat
      with (S (length l2)) by lia.
    simpl. rewrite map_app, lookup_app_r by (rewrite length_map; lia).
    by rewrite length_map, Nat.sub_diag. }
  rewrite (NoDup_lookup _ _ _ _ Hnd Hp Hp').
  rewrite (NoDup_lookup _ _ _ _ Hnd Hq Hq'). lia.
Qed.

End Precedes.

Section Positions.
Context {A : Type}.

Lemma tagged_lookup (l : list A) i : tagged l !! i = (fun a => (i, a)) <$> l !! i.
Proof.
  unfold tagged. rewrite lookup_zip_with.
  destruct (l !! i) as [a|] eqn:E.
  - rewrite lookup_seq_lt by (by eapply lookup_lt_Some). done.
  - by destruct (seq 0 (length l) !! i).
Qed.

Lemma tagged_snd (l : list A) : map snd (tagged l) = l.
Proof. unfold tagged. apply snd_zip. by rewrite length_seq. Qed.

Lemma tagged_fst (l : list A) : map fst (tagged l) = seq 0 (length l).
Proof. unfold tagged. apply fst_zip. by rewrite length_seq. Qed.

Lemma elem_of_tagged (l : list A) i a : (i, a) ∈ tagged l <-> l !! i = Some a.
Proof.
  rewrite list_elem_of_lookup. split.
  - intros [k Hk]. rewrite tagged_lookup in Hk.
    destruct (l !! k) as [a'|] eqn:E; simpl in Hk; [|done].
    injection Hk as <- <-. done.
  - intros Hi. exists i. by rewrite tagged_lookup, Hi.
Qed.

Context (comparefn : A -> A -> number).

Lemma sourcePositions_perm (l : list A) :
  sourcePositions comparefn l ≡ₚ seq 0 (length l).
Proof.
  unfold sourcePositions. rewrite <- tagged_fst.
  apply Permutation_map, sort_perm.
Qed.

(** The sorted array holds, at each position, the element of the input at
    the source position. *)
Lemma sort_sourcePositions (l : list A) k :
  JSArray.stableSort comparefn l !! k = sourcePositions comparefn l !! k ≫= (l !!.).
Proof.
  unfold sourcePositions.
  rewrite <- (tagged_snd l) at 1. rewrite <- sort_map.
  rewrite !list_lookup_fmap.
  destruct (JSArray.stableSort _ (tagged l) !! k) as [[i a]|] eqn:E; simpl; [|done].
  symmetry. apply elem_of_tagged.
  eapply elem_of_sort, list_elem_of_lookup_2, E.
Qed.

(** Stability: two elements that compare equal leave the sort in the order
    of their positions in the input. *)
Lemma sort_stable (l : list A) p q i j a b :
  sourcePositions comparefn l !! p = Some i ->
  sourcePositions comparefn l !! q = Some j ->
  l !! i = Some a -> l !! j = Some b -> (i < j)%nat ->
  JSArray.SortCompare comparefn a b <> Gt ->
  (p < q)%nat.
Proof.
  intros Hp Hq Hi Hj Hij Hab.
  set (cmp' := fun x y : nat * A => comparefn (snd x) (snd y)).
  assert (Hpre : precedes (i, a) (j, b) (JSArray.stableSort cmp' (tagged l))).
  { apply sort_precedes; [|exact Hab].
    apply (lookup_precedes _ i j); [done|by rewrite tagged_lookup, ?Hi, ?Hj..]. }
  apply (precedes_positions fst (JSArray.stableSort cmp' (tagged l)) (i, a) (j, b) p q);
    [|done..].
  change (NoDup (sourcePositions comparefn l)).
  rewrite (sourcePositions_perm l). apply NoDup_seq.
Qed.

Lemma StronglySorted_of_lookup {B} (R : B -> B -> Prop) (l : list B) :
  (forall i j a b, (i < j)%nat -> l !! i = Some a -> l !! j = Some b -> R a b) ->
  StronglySorted R l.
Proof.
  induction l as [|x l IH]; intros Hl; constructor.
  - apply IH. intros i j a b Hij Hi Hj. by apply (Hl (S i) (S j)); [lia|..].
  - apply Forall_forall. intros y [k Hk]%list_elem_of_lookup_1.
    by apply (Hl 0%nat (S k)); [lia|..].
Qed.

Lemma consistent_on_tagged (l : list A) :
  consistent_on comparefn l ->
  consistent_on (fun x y : nat * A => comparefn (snd x) (snd y)) (tagged l).
Proof.
  intros [Hanti Htrans].
  assert (Hin : forall x : nat * A, x ∈ tagged l -> snd x ∈ l).
  { intros [i a] Hx%elem_of_tagged. by eapply list_elem_of_lookup_2. }
  split.
  - intros a b Ha Hb. apply (Hanti (snd a) (snd b)); auto.
  - intros a b c Ha Hb Hc. apply (Htrans (snd a) (snd b) (snd c)); auto.
Qed.

(** For a consistent comparator the tagged elements leave the sort in the
    order of a stable sort. *)
Lemma sort_stable_order (l : list A) :
  consistent_on comparefn l ->
  StronglySorted (stable_order comparefn)
    (JSArray.stableSort (fun x y => comparefn (snd x) (snd y)) (tagged l)).
Proof.
  intros Hc. apply StronglySorted_of_lookup.
  intros p q [i a] [j b] Hpq Hp Hq.
  pose proof (sort_sorted _ _ (consistent_on_tagged l Hc) p q _ _ Hpq Hp Hq) as Hle.
  unfold stable_order. unfold JSArray.SortCompare in *. cbn [fst snd] in *.
  destruct (JSNumber.sign (comparefn a b)) eqn:E; [|done..].
  destruct (decide (i <= j)%nat) as [|Hji]; [done|]. exfalso.
  assert (Hia : l !! i = Some a).
  { apply elem_of_tagged. eapply elem_of_sort, list_elem_of_lookup_2, Hp. }
  assert (Hjb : l !! j = Some b).
  { apply elem_of_tagged. eapply elem_of_sort, list_elem_of_lookup_2, Hq. }
  assert (Hba : JSArray.SortCompare comparefn b a <> Gt).
  { destruct Hc as [Hanti _]. unfold JSArray.SortCompare.
    pose proof (Hanti b a) as Hs. unfold JSArray.SortCompare in Hs.
    rewrite Hs, E by (by eapply list_elem_of_lookup_2). simpl. congruence. }
  assert (q < p)%nat; [|lia].
  apply (sort_stable l q p j i b a); try done; try lia.
  - unfold sourcePositions. by rewrite list_lookup_fmap, Hq.
  - unfold sourcePositions. by rewrite list_lookup_fmap, Hp.
Qed.

(** The result of a stable sort is unique: any arrangement of the tagged
    elements that is in the order of a stable sort is the one
    [JSArray.stableSort] computes.  So for a consistent comparator every
    engine that meets the language's requirements returns that
    arrangement. *)
Lemma stable_sort_unique (l : list A) (t : list (nat * A)) :
  consistent_on comparefn l ->
  t ≡ₚ tagged l ->
  StronglySorted (stable_order comparefn) t ->
  t = JSArray.stableSort (fun x y => comparefn (snd x) (snd y)) (tagged l).
Proof.
  intros Hc Hperm Hs.
  apply (StronglySorted_unique_strong (stable_order comparefn)); [|done| |].
  - intros [i a] [j b] Hx Hy. rewrite Hperm in Hx. apply elem_of_sort in Hy.
    apply elem_of_tagged in Hx, Hy.
    unfold stable_order. cbn [fst snd].
    destruct Hc as [Hanti _].
    rewrite (Hanti b a) by (by eapply list_elem_of_lookup_2).
    destruct (JSArray.SortCompare comparefn a b); simpl; try done.
    intros Hij Hji. assert (i = j) by lia. subst j. congruence.
  - by apply sort_stable_order.
  - by rewrite sort_perm.
Qed.

End Positions.

(** ** What every engine's sort does *)

Section EngineSortFacts.
Context `{Host} {A : Type} (comparefn : A -> A -> number).

Lemma Array_prototype_sort_elem_of x l :
  x ∈ Array_prototype_sort comparefn l <-> x ∈ l.
Proof. by rewrite Array_prototype_sort_perm. Qed.

Lemma Array_prototype_sort_length l :
  length (Array_prototype_sort comparefn l) = length l.
Proof. by rewrite Array_prototype_sort_perm. Qed.

(** For a consistent comparator the array is sorted, whatever the
    engine. *)
Lemma Array_prototype_sort_sorted l :
  consistent_on comparefn l -> sorted_by comparefn (Array_prototype_sort comparefn l).
Proof.
  intros Hc. rewrite Array_prototype_sort_consistent by done. by apply sort_sorted.
Qed.

End EngineSortFacts.

(** ** The sort of V8 on a short array is one the language allows *)

Section V8Facts.
Context {A : Type} (comparefn : A -> A -> number).
Local Abbreviation cmp := (JSArray.SortCompare comparefn).
Local Abbreviation less := (V8.less comparefn).
Local Abbreviation insert := (JSArray.insert comparefn).
Local Abbreviation stableSort := (JSArray.stableSort comparefn).

Lemma BinaryInsertionSort_perm sorted rest :
  V8.BinaryInsertionSort comparefn sorted rest ≡ₚ sorted ++ rest.
Proof.
  revert sorted. induction rest as [|x rest IH]; intros sorted; simpl.
  - by rewrite app_nil_r.
  - rewrite IH.
    set (k := V8.insertionPoint comparefn (length sorted) sorted x 0%nat (length sorted)).
    assert (E : take k sorted ++ x :: drop k sorted ≡ₚ x :: sorted).
    { rewrite <- Permutation_middle. by rewrite take_drop. }
    rewrite E. simpl. apply Permutation_middle.
Qed.

Lemma CountAndMakeRun_perm l : (V8.CountAndMakeRun comparefn l).2 ≡ₚ l.
Proof.
  destruct l as [|first [|second next]]; [done..|].
  unfold V8.CountAndMakeRun. cbn [snd].
  destruct (less second first); [|done].
  rewrite <- Permutation_rev. by rewrite take_drop.
Qed.

Lemma V8_sort_perm l : V8.sort comparefn l ≡ₚ l.
Proof.
  unfold V8.sort. destruct (length l <? 2)%nat; [done|].
  rewrite BinaryInsertionSort_perm, take_drop. apply CountAndMakeRun_perm.
Qed.

(** The binary search finds the slot that parts the elements the pivot is
    not smaller than from those it is smaller than, when there is one. *)
Lemma insertionPoint_partition s x k :
  Forall (fun z => less x z = false) (take k s) ->
  Forall (fun z => less x z = true) (drop k s) ->
  forall steps left right,
    (left <= k)%nat -> (k <= right)%nat -> (right <= length s)%nat ->
    (right - left <= steps)%nat ->
    V8.insertionPoint comparefn steps s x left right = k.
Proof.
  intros Hlow Hhigh. induction steps as [|steps IH]; intros left right Hl Hr Hlen Hsteps.
  - simpl. lia.
  - cbn [V8.insertionPoint]. destruct (Nat.ltb_spec left right) as [Hlt|Hge]; [|lia].
    assert (Hhalf : (Nat.div2 (right - left) < right - left)%nat)
      by (apply Nat.lt_div2; lia).
    revert Hhalf. generalize (Nat.div2 (right - left)). intros half Hhalf.
    set (mid := (left + half)%nat).
    destruct (lookup_lt_is_Some_2 s mid ltac:(lia)) as [e He]. rewrite He.
    destruct (decide (mid < k)%nat) as [Hmid|Hmid].
    + assert (Hless : less x e = false).
      { apply (Forall_lookup_1 _ _ mid e Hlow). by rewrite lookup_take_lt. }
      rewrite Hless. apply IH; lia.
    + assert (Hless : less x e = true).
      { apply (Forall_lookup_1 _ _ (mid - k)%nat e Hhigh).
        rewrite lookup_drop. by replace (k + (mid - k))%nat with mid by lia. }
      rewrite Hless. apply IH; lia.
Qed.

Lemma insert_after_all x s :
  Forall (fun z => cmp x z = Gt) s -> insert x s = s ++ [x].
Proof.
  induction 1 as [|z s Hz Hs IH]; simpl; [done|]. by rewrite Hz, IH.
Qed.

Lemma continueRun_length d previous next :
  (V8.continueRun comparefn d previous next <= length next)%nat.
Proof.
  revert previous. induction next as [|current next IH]; intros previous; simpl; [lia|].
  destruct (Bool.eqb _ d); [|lia]. specialize (IH current). lia.
Qed.

Section Consistent.
Variable L : list A.
Hypothesis HL : consistent_on comparefn L.

Lemma cmp_antisym a b : a ∈ L -> b ∈ L -> cmp a b = CompOpp (cmp b a).
Proof. destruct HL as [Hanti _]. apply Hanti. Qed.

Lemma cmp_le_trans a b c :
  a ∈ L -> b ∈ L -> c ∈ L -> cmp a b <> Gt -> cmp b c <> Gt -> cmp a c <> Gt.
Proof. destruct HL as [_ Htrans]. apply Htrans. Qed.

Lemma cmp_lt_le_trans a b c :
  a ∈ L -> b ∈ L -> c ∈ L -> cmp a b = Lt -> cmp b c <> Gt -> cmp a c = Lt.
Proof.
  intros Ha Hb Hc Hab Hbc.
  pose proof (cmp_le_trans a b c Ha Hb Hc ltac:(congruence) Hbc) as Hac.
  destruct (cmp a c) eqn:E; [|done|done]. exfalso.
  assert (Hca : cmp c a <> Gt) by (rewrite (cmp_antisym c a), E; done).
  pose proof (cmp_le_trans b c a Hb Hc Ha Hbc Hca) as Hba.
  rewrite (cmp_antisym b a), Hab in Hba; done.
Qed.

Lemma cmp_gt_trans a b c :
  a ∈ L -> b ∈ L -> c ∈ L -> cmp a b = Gt -> cmp b c = Gt -> cmp a c = Gt.
Proof.
  intros Ha Hb Hc Hab Hbc.
  assert (Hcb : cmp c b = Lt) by (rewrite (cmp_antisym c b), Hbc; done).
  assert (Hba : cmp b a <> Gt) by (rewrite (cmp_antisym b a), Hab; done).
  pose proof (cmp_lt_le_trans c b a Hc Hb Ha Hcb Hba) as Hca.
  rewrite (cmp_antisym a c), Hca; done.
Qed.

(** An ascending run is in the required order as it stands. *)
Lemma ascending_run previous next :
  previous ∈ L -> (forall z, z ∈ next -> z ∈ L) ->
  stableSort (previous :: take (V8.continueRun comparefn false previous next) next)
  = previous :: take (V8.continueRun comparefn false previous next) next.
Proof.
  revert previous. induction next as [|current next IH]; intros previous Hp Hn; [done|].
  cbn [V8.continueRun]. destruct (less current previous) eqn:E; cbn [Bool.eqb]; [done|].
  assert (Hc : current ∈ L) by apply Hn, list_elem_of_here.
  cbn [take].
  change (insert previous
            (stableSort (current :: take (V8.continueRun comparefn false current next) next))
          = previous :: current :: take (V8.continueRun comparefn false current next) next).
  rewrite IH; [|done|by intros z Hz; apply Hn, list_elem_of_further].
  cbn [JSArray.insert]. unfold V8.less in E.
  rewrite (cmp_antisym previous current) by done.
  by destruct (cmp current previous).
Qed.

(** A descending run is strictly descending, so its reversal is in the
    required order. *)
Lemma descending_run previous next :
  previous ∈ L -> (forall z, z ∈ next -> z ∈ L) ->
  stableSort (previous :: take (V8.continueRun comparefn true previous next) next)
  = rev (previous :: take (V8.continueRun comparefn true previous next) next) /\
  Forall (fun z => cmp previous z = Gt)
         (take (V8.continueRun comparefn true previous next) next).
Proof.
  revert previous. induction next as [|current next IH]; intros previous Hp Hn.
  { split; [done|constructor]. }
  cbn [V8.continueRun]. destruct (less current previous) eqn:E; cbn [Bool.eqb];
    [|split; [done|constructor]].
  assert (Hc : current ∈ L) by apply Hn, list_elem_of_here.
  assert (Hn' : forall z, z ∈ next -> z ∈ L)
    by (by intros z Hz; apply Hn, list_elem_of_further).
  destruct (IH current Hc Hn') as [IHs IHf]. cbn [take].
  set (run := take (V8.continueRun comparefn true current next) next) in *.
  assert (Hrun : forall z, z ∈ run -> z ∈ L).
  { intros z Hz. apply Hn'. eapply elem_of_sublist; [exact Hz|apply sublist_take]. }
  assert (Hpc : cmp previous current = Gt).
  { unfold V8.less in E. rewrite (cmp_antisym previous current) by done.
    by destruct (cmp current previous). }
  assert (Hall : Forall (fun z => cmp previous z = Gt) (current :: run)).
  { constructor; [done|]. apply Forall_forall. intros z Hz.
    apply (cmp_gt_trans previous current z); auto.
    by apply (proj1 (Forall_forall _ _) IHf). }
  split; [|exact Hall].
  change (insert previous (stableSort (current :: run)) = rev (previous :: current :: run)).
  rewrite IHs. rewrite insert_after_all; [done|].
  apply Forall_forall. intros z Hz. apply (proj1 (Forall_forall _ _) Hall).
  apply list_elem_of_In. apply list_elem_of_In in Hz. by apply in_rev.
Qed.

(** Putting in the last element and putting in the first commute. *)
Lemma insert_insertLast x y s :
  x ∈ L -> y ∈ L -> (forall z, z ∈ s -> z ∈ L) ->
  insert y (insertLast comparefn x s) = insertLast comparefn x (insert y s).
Proof.
  intros Hx Hy. induction s as [|z s IH]; intros Hs.
  - cbn [insertLast JSArray.insert]. rewrite (cmp_antisym y x) by done.
    by destruct (cmp x y).
  - assert (Hz : z ∈ L) by apply Hs, list_elem_of_here.
    assert (Hs' : forall w, w ∈ s -> w ∈ L)
      by (by intros w Hw; apply Hs, list_elem_of_further).
    specialize (IH Hs'). cbn [insertLast JSArray.insert].
    destruct (cmp x z) eqn:Exz, (cmp y z) eqn:Eyz;
      cbn [insertLast JSArray.insert]; rewrite ?Exz, ?Eyz, ?IH; try done.
    all: pose proof (cmp_antisym y x Hy Hx) as Eyx.
    all: pose proof (cmp_antisym z x Hz Hx) as Ezx; rewrite Exz in Ezx; cbn in Ezx.
    all: pose proof (cmp_antisym z y Hz Hy) as Ezy; rewrite Eyz in Ezy; cbn in Ezy.
    (* x = z, y <= z: y <= x *)
    1,2: assert (Hle : cmp y x <> Gt)
      by (apply (cmp_le_trans y z x); auto; congruence).
    1,2: destruct (cmp x y) eqn:Exy; cbn in Eyx; congruence.
    (* x < z *)
    1,2: destruct (cmp x y) eqn:Exy; cbn in Eyx; by rewrite Eyx.
    (* x < z < y *)
    1: assert (Hxy : cmp x y = Lt)
      by (apply (cmp_lt_le_trans x z y); auto; congruence).
    1: rewrite Hxy in Eyx; cbn in Eyx; by rewrite Eyx.
    (* x > z, y <= z: y <= x *)
    all: assert (Hle : cmp y x <> Gt)
      by (apply (cmp_le_trans y z x); auto; congruence).
    all: destruct (cmp x y) eqn:Exy; cbn in Eyx; congruence.
Qed.

(** The required order of an array with one more element at its end. *)
Lemma stableSort_snoc l x :
  (forall z, z ∈ l ++ [x] -> z ∈ L) ->
  stableSort (l ++ [x]) = insertLast comparefn x (stableSort l).
Proof.
  induction l as [|y l IH]; intros Hl; [done|].
  assert (Hl' : forall z, z ∈ l ++ [x] -> z ∈ L)
    by (by intros z Hz; apply Hl, list_elem_of_further).
  change (insert y (stableSort (l ++ [x]))
          = insertLast comparefn x (insert y (stableSort l))).
  rewrite IH by done. apply insert_insertLast.
  - apply Hl'. apply elem_of_app. right. apply list_elem_of_here.
  - apply Hl, list_elem_of_here.
  - intros z Hz%elem_of_sort. apply Hl'. apply elem_of_app. by left.
Qed.

(** Among sorted elements the slot of the last element is a parting
    slot. *)
Lemma insertLast_partition x s :
  x ∈ L -> (forall z, z ∈ s -> z ∈ L) ->
  StronglySorted (fun a b => cmp a b <> Gt) s ->
  exists k, (k <= length s)%nat /\
    insertLast comparefn x s = take k s ++ x :: drop k s /\
    Forall (fun z => less x z = false) (take k s) /\
    Forall (fun z => less x z = true) (drop k s).
Proof.
  intros Hx Hs Hsorted. induction Hsorted as [|z s Hsorted IH Hz].
  - exists 0%nat. repeat split; constructor.
  - assert (Hz' : z ∈ L) by apply Hs, list_elem_of_here.
    assert (Hs' : forall w, w ∈ s -> w ∈ L)
      by (by intros w Hw; apply Hs, list_elem_of_further).
    cbn [insertLast]. destruct (cmp x z) eqn:E.
    + destruct (IH Hs') as (k & Hk & -> & Hlow & Hhigh).
      exists (S k). cbn [length take drop]. split; [lia|]. split; [done|].
      split; [|done]. constructor; [|done]. unfold V8.less. by rewrite E.
    + exists 0%nat. cbn [take drop]. split; [lia|]. split; [done|].
      split; [constructor|]. constructor; [unfold V8.less; by rewrite E|].
      apply Forall_forall. intros w Hw. unfold V8.less.
      rewrite (cmp_lt_le_trans x z w); auto.
      by apply (proj1 (Forall_forall _ _) Hz).
    + destruct (IH Hs') as (k & Hk & -> & Hlow & Hhigh).
      exists (S k). cbn [length take drop]. split; [lia|]. split; [done|].
      split; [|done]. constructor; [|done]. unfold V8.less. by rewrite E.
Qed.

(** Binary insertion of the rest into the required order of what comes
    before gives the required order of the whole. *)
Lemma BinaryInsertionSort_stableSort rest : forall pre,
  (forall z, z ∈ pre ++ rest -> z ∈ L) ->
  V8.BinaryInsertionSort comparefn (stableSort pre) rest = stableSort (pre ++ rest).
Proof.
  induction rest as [|x rest IH]; intros pre Hin.
  - by rewrite app_nil_r.
  - cbn [V8.BinaryInsertionSort].
    assert (Hx : x ∈ L).
    { apply Hin. apply elem_of_app. right. apply list_elem_of_here. }
    assert (Hpre : forall z, z ∈ pre -> z ∈ L).
    { intros z Hz. apply Hin. apply elem_of_app. by left. }
    assert (Hsorted : StronglySorted (fun a b => cmp a b <> Gt) (stableSort pre)).
    { apply sort_StronglySorted. by eapply consistent_on_mono. }
    destruct (insertLast_partition x (stableSort pre) Hx) as (k & Hk & E & Hlow & Hhigh);
      [by intros z Hz%elem_of_sort; apply Hpre|done|].
    rewrite (insertionPoint_partition _ x k Hlow Hhigh) by lia.
    rewrite <- E, <- stableSort_snoc.
    + rewrite IH; [by rewrite <- app_assoc|].
      intros z Hz. apply Hin. by rewrite <- app_assoc in Hz.
    + intros z Hz. apply Hin. rewrite elem_of_app in Hz |- *.
      destruct Hz as [?|Hz]; [by left|right].
      apply list_elem_of_singleton in Hz as ->. apply list_elem_of_here.
Qed.

End Consistent.

(** For a consistent comparator V8 returns the arrangement the language
    requires. *)
Lemma V8_sort_consistent l :
  consistent_on comparefn l -> V8.sort comparefn l = stableSort l.
Proof.
  intros Hc. unfold V8.sort.
  destruct l as [|first [|second next]]; [done..|].
  change (length (first :: second :: next) <? 2)%nat with false. cbv iota.
  set (l := first :: second :: next) in *.
  assert (Hfirst : first ∈ l) by apply list_elem_of_here.
  assert (Hnext : forall z, z ∈ second :: next -> z ∈ l)
    by (intros z Hz; by apply list_elem_of_further).
  assert (Hlen := continueRun_length (less second first) second next).
  set (d := less second first) in *.
  assert (Hn : (2 + V8.continueRun comparefn d second next
                = S (V8.continueRun comparefn d first (second :: next)))%nat).
  { cbn [V8.continueRun]. fold d. by rewrite Bool.eqb_reflx. }
  assert (Hrun : take (V8.CountAndMakeRun comparefn l).1 (V8.CountAndMakeRun comparefn l).2
                 = stableSort (take (V8.CountAndMakeRun comparefn l).1 l) /\
                 drop (V8.CountAndMakeRun comparefn l).1 (V8.CountAndMakeRun comparefn l).2
                 = drop (V8.CountAndMakeRun comparefn l).1 l).
  { unfold V8.CountAndMakeRun, l. fold d. cbn [fst snd]. rewrite Hn.
    set (m := V8.continueRun comparefn d first (second :: next)).
    change (take (S m) (first :: second :: next)) with (first :: take m (second :: next)).
    destruct d eqn:Ed.
    - destruct (descending_run l Hc first (second :: next) Hfirst Hnext) as [E _].
      fold m in E. rewrite E.
      assert (Hlen' : length (rev (first :: take m (second :: next))) = S m).
      { rewrite length_rev. cbn [length]. rewrite length_take.
        pose proof (continueRun_length true first (second :: next)). fold m in H. lia. }
      split.
      + rewrite take_app_length'; done.
      + rewrite drop_app_length'; done.
    - split; [|done]. symmetry.
      apply (ascending_run l Hc first (second :: next) Hfirst Hnext). }
  destruct Hrun as [-> ->].
  rewrite (BinaryInsertionSort_stableSort l Hc).
  - by rewrite take_drop.
  - intros z. by rewrite take_drop.
Qed.

End V8Facts.

(* ===================================================================== *)
(** ** A host for ASCII text *)
(* ===================================================================== *)

(** The engine of [AsciiText] with the sort of [V8], which it applies to an
    array of any length as V8 does to one of fewer than 64 elements.  That
    sort meets the two laws of [Host], so the laws can be met, and the
    examples run on this host. *)
Module AsciiHost.

Import AsciiText.

Definition host : Host.
Proof.
  refine {| localeCompare := compareStrings;
            toLowerCase := lowerString;
            trim := trimString;
            numberToString := printNumber;
            inheritedToString := printInherited;
            Array_prototype_sort := @V8.sort |}.
  - intros a b. unfold compareStrings. rewrite (String.compare_antisym a b).
    destruct (String.compare b a); reflexivity.
  - assert (Ht : forall a b c, String.compare a b <> Gt ->
                   String.compare b c <> Gt -> String.compare a c <> Gt).
    { induction a as [|x a IH]; intros [|y b] [|z c]; simpl; try congruence.
      unfold Ascii.compare.
      destruct (N.compare_spec (N_of_ascii x) (N_of_ascii y)) as [Hxy|Hxy|Hxy];
        destruct (N.compare_spec (N_of_ascii y) (N_of_ascii z)) as [Hyz|Hyz|Hyz];
        try congruence; intros H1 H2.
      - rewrite Hxy, Hyz, N.compare_refl. eauto.
      - rewrite Hxy. apply N.compare_lt_iff in Hyz. rewrite Hyz. congruence.
      - rewrite <- Hyz. apply N.compare_lt_iff in Hxy. rewrite Hxy. congruence.
      - assert (Hxz : (N_of_ascii x < N_of_ascii z)%N) by lia.
        apply N.compare_lt_iff in Hxz. rewrite Hxz. congruence. }
    intros a b c. unfold compareStrings. intros Hab Hbc.
    specialize (Ht a b c).
    destruct (String.compare a b), (String.compare b c), (String.compare a c);
      try lia; exfalso; apply Ht; congruence.
  - reflexivity.
  - intros A comparefn l. apply V8_sort_perm.
  - intros A comparefn l. apply V8_sort_consistent.
Defined.

End AsciiHost.

(** Numbers as the engine prints them: the shortest digits that read back
    as the double, written out in full for up to 21 integer digits and down
    to 10^-6, and with an exponent beyond. *)
Example numbers_as_the_engine_prints_them :
  map AsciiText.printNumber
      [JSNumber.Finite (1 # 10); JSNumber.Finite (1 # 3); JSNumber.Finite 0;
       JSNumber.Finite (-5 # 2); JSNumber.Finite (1 # 1000000);
       JSNumber.Finite (1 # 10000000); JSNumber.of_Z (2 ^ 53 + 1);
       JSNumber.of_Z (10 ^ 21 - 2 ^ 17); JSNumber.of_Z (10 ^ 21);
       JSNumber.of_Z 123456789012345678901234; JSNumber.NaN; JSNumber.PosInf]
  = ["0.1"; "0.3333333333333333"; "0"; "-2.5"; "0.000001"; "1e-7";
     "9007199254740992"; "999999999999999900000"; "1e+21";
     "1.2345678901234569e+23"; "NaN"; "Infinity"]%string.
Proof. vm_compute. reflexivity. Qed.

(** ** The comparator of the table *)

Section ComparatorFacts.
Context `{Host}.

Lemma sign_localeCompare_antisym a b :
  JSNumber.sign (JSNumber.of_Z (localeCompare a b))
  = CompOpp (JSNumber.sign (JSNumber.of_Z (localeCompare b a))).
Proof.
  rewrite !sign_of_Z. pose proof (localeCompare_antisym a b) as Hs.
  destruct (Z.compare_spec (localeCompare a b) 0), (Z.compare_spec (localeCompare b a) 0);
    simpl; try reflexivity; lia.
Qed.

Lemma sign_localeCompare_trans a b c :
  JSNumber.sign (JSNumber.of_Z (localeCompare a b)) <> Gt ->
  JSNumber.sign (JSNumber.of_Z (localeCompare b c)) <> Gt ->
  JSNumber.sign (JSNumber.of_Z (localeCompare a c)) <> Gt.
Proof.
  rewrite !sign_of_Z. intros Hab Hbc.
  pose proof (localeCompare_trans a b c) as Ht.
  destruct (Z.compare_spec (localeCompare a b) 0); try congruence;
    destruct (Z.compare_spec (localeCompare b c) 0); try congruence;
    destruct (Z.compare_spec (localeCompare a c) 0); try congruence; lia.
Qed.

Lemma sortable_number c r :
  sortField c = col_days_to_stockout \/ sortField c = col_recommended_reorder_quantity ->
  sortable c r ->
  JSNumber.is_nan (ToNumber (number_column (sortField c) r)) = false.
Proof.
  unfold sortable. intros [E|E]; rewrite E; intros (n & -> & Hn); exact Hn.
Qed.

(** On records whose sort column can be ordered, the comparator is
    consistent. *)
Lemma compareRecords_consistent c l :
  (forall r, r ∈ l -> sortable c r) -> consistent_on (compareRecords c) l.
Proof.
  intros Hs. unfold consistent_on, JSArray.SortCompare, compareRecords.
  destruct (sortField c) eqn:Ef; cbn [string_column number_column].
  1,2: split;
    [ intros a b _ _; destruct (sortOrder c); apply sign_localeCompare_antisym
    | intros a b c' _ _ _; destruct (sortOrder c);
      [ apply sign_localeCompare_trans
      | intros H1 H2; exact (sign_localeCompare_trans _ _ _ H2 H1) ] ].
  all: assert (Hn : forall r, r ∈ l ->
         JSNumber.is_nan (ToNumber (number_column (sortField c) r)) = false).
  1,3: intros r Hr; apply sortable_number; [rewrite Ef; auto|auto].
  all: rewrite Ef in Hn; cbn [number_column] in Hn; split.
  1,3: intros a b Ha Hb; destruct (sortOrder c); apply sign_sub_antisym; auto.
  all: intros a b c' Ha Hb Hc; destruct (sortOrder c);
    [ apply sign_sub_trans; auto
    | intros H1 H2; apply (sign_sub_trans _ _ _ (Hn _ Hc) (Hn _ Hb) (Hn _ Ha) H2 H1) ].
Qed.

End ComparatorFacts.

(** ** The heap: what the array methods read, allocate and overwrite *)

Section HeapFacts.
Context `{Host} {A : Type}.
Implicit Types (h : heap A) (l a : loc) (xs : list A).

Lemma bind_run {R S} (m : M A R) (k : R -> M A S) h :
  (m ≫= k) h = k (m h).1 (m h).2.
Proof. unfold mbind, bind. by destruct (m h). Qed.

Lemma alloc_spec xs h :
  exists l, alloc xs h = (l, <[l := xs]> h) /\ h !! l = None.
Proof.
  exists (fresh (dom h)). split; [done|].
  apply not_elem_of_dom, is_fresh.
Qed.

Lemma alloc_extends xs h l : h !! l = None -> h ⊆ <[l := xs]> h.
Proof. intros. by apply insert_subseteq. Qed.

Lemma spread_spec h a xs :
  h !! a = Some xs ->
  exists l, spread a h = (l, <[l := xs]> h) /\ h !! l = None.
Proof.
  intros Ha. unfold spread. rewrite bind_run. unfold contents at 1 2. simpl.
  rewrite Ha. simpl. apply alloc_spec.
Qed.

Lemma Array_filter_spec p h a xs :
  h !! a = Some xs ->
  exists l, Array_filter p a h = (l, <[l := List.filter p xs]> h) /\ h !! l = None.
Proof.
  intros Ha. unfold Array_filter. rewrite bind_run. unfold contents at 1 2. simpl.
  rewrite Ha. simpl. apply alloc_spec.
Qed.

Lemma Array_slice0_spec n h a xs :
  h !! a = Some xs ->
  exists l, Array_slice0 n a h = (l, <[l := take n xs]> h) /\ h !! l = None.
Proof.
  intros Ha. unfold Array_slice0. rewrite bind_run. unfold contents at 1 2. simpl.
  rewrite Ha. simpl. apply alloc_spec.
Qed.

Lemma Array_sort_spec comparefn h a xs :
  h !! a = Some xs ->
  Array_sort comparefn a h = (a, <[a := Array_prototype_sort comparefn xs]> h).
Proof.
  intros Ha. unfold Array_sort. rewrite !bind_run. unfold contents, write. simpl.
  by rewrite Ha.
Qed.

Lemma Array_length_spec h a xs :
  h !! a = Some xs -> Array_length a h = (length xs, h).
Proof.
  intros Ha. unfold Array_length. rewrite bind_run. unfold contents. simpl.
  by rewrite Ha.
Qed.

Lemma Array_reduce_spec {B} (f : B -> A -> B) init h a xs :
  h !! a = Some xs -> Array_reduce f init a h = (fold_left f xs init, h).
Proof.
  intros Ha. unfold Array_reduce. rewrite bind_run. unfold contents. simpl.
  by rewrite Ha.
Qed.

Lemma contents_spec h a xs : h !! a = Some xs -> contents a h = (xs, h).
Proof. intros Ha. unfold contents. by rewrite Ha. Qed.

(** One guarded [data = data.filter(p)] statement, started in a heap [h]
    that extends [h0] with a private array [d]. *)
Lemma guarded_filter_spec h0 (b : bool) p d h xs :
  h0 ⊆ h -> h0 !! d = None -> h !! d = Some xs ->
  exists d' h',
    (if b then Array_filter p d else mret d) h = (d', h') /\
    h0 ⊆ h' /\ h0 !! d' = None /\
    h' !! d' = Some (if b then List.filter p xs else xs).
Proof.
  intros Hsub Hd Hxs. destruct b.
  - destruct (Array_filter_spec p h d xs Hxs) as (l & -> & Hl).
    exists l, (<[l := List.filter p xs]> h). split; [done|]. split; [|split].
    + etrans; [exact Hsub|]. by apply alloc_extends.
    + by eapply lookup_weaken_None.
    + apply lookup_insert_eq.
  - exists d, h. by repeat split.
Qed.

End HeapFacts.

(** ** The filter effect and the render on the heap *)

Section ComponentFacts.
Context `{Host}.
Implicit Types (h : heap PredictionRecord) (recs : list PredictionRecord).

(** The effect allocates its own array, leaves every array of the heap it
    started in as it was, and returns the array holding [filtered]. *)
Lemma applyFiltersM_spec c records h recs :
  h !! records = Some recs ->
  exists data h',
    applyFiltersM c records h = (data, h') /\
    h ⊆ h' /\ h !! data = None /\ h' !! data = Some (filtered c recs).
Proof.
  intros Hr. unfold applyFiltersM.
  destruct (spread_spec h records recs Hr) as (d0 & E0 & Hd0).
  rewrite bind_run, E0. cbn [fst snd].
  destruct (guarded_filter_spec h (negb (String.eqb (storeFilter c) "ALL"))
              (matchesStore c) d0 (<[d0 := recs]> h) recs)
    as (d1 & h1 & E1 & Hs1 & Hd1 & Hc1);
    [by apply alloc_extends|done|apply lookup_insert_eq|].
  rewrite bind_run, E1. cbn [fst snd].
  destruct (guarded_filter_spec h (negb (String.eqb (categoryFilter c) "ALL"))
              (matchesCategory c) d1 h1 _ Hs1 Hd1 Hc1)
    as (d2 & h2 & E2 & Hs2 & Hd2 & Hc2).
  rewrite bind_run, E2. cbn [fst snd].
  destruct (guarded_filter_spec h (showCriticalOnly c) isCritical d2 h2 _ Hs2 Hd2 Hc2)
    as (d3 & h3 & E3 & Hs3 & Hd3 & Hc3).
  rewrite bind_run, E3. cbn [fst snd].
  destruct (guarded_filter_spec h (JSString.truthy (trim (search c)))
              (matchesSearch c) d3 h3 _ Hs3 Hd3 Hc3)
    as (d4 & h4 & E4 & Hs4 & Hd4 & Hc4).
  rewrite bind_run, E4. cbn [fst snd].
  rewrite (Array_sort_spec _ _ _ _ Hc4).
  eexists _, _. split; [reflexivity|]. split; [|split; [done|]].
  - apply map_subseteq_spec. intros l xs Hl.
    rewrite lookup_insert_ne by congruence.
    by eapply lookup_weaken.
  - rewrite lookup_insert_eq. reflexivity.
Qed.

Lemma count_spec (p : PredictionRecord -> bool) records h recs :
  h !! records = Some recs ->
  exists h', (a ← Array_filter p records; Array_length a) h
             = (length (List.filter p recs), h') /\ h ⊆ h'.
Proof.
  intros Hr. destruct (Array_filter_spec p h records recs Hr) as (l & E & Hl).
  rewrite bind_run, E. cbn [fst snd].
  rewrite (Array_length_spec _ l (List.filter p recs)) by apply lookup_insert_eq.
  eexists. split; [reflexivity|]. by apply alloc_extends.
Qed.

Lemma topCriticalM_spec records h recs :
  h !! records = Some recs ->
  exists top h', topCriticalM records h = (top, h') /\ h ⊆ h' /\
                 h' !! top = Some (topCritical recs).
Proof.
  intros Hr. unfold topCriticalM.
  destruct (Array_filter_spec isCritical h records recs Hr) as (a & E & Ha).
  rewrite bind_run, E. cbn [fst snd].
  rewrite bind_run.
  rewrite (Array_sort_spec byDaysDescending _ a (List.filter isCritical recs))
    by apply lookup_insert_eq.
  cbn [fst snd]. rewrite insert_insert_eq.
  destruct (Array_slice0_spec 5 (<[a := Array_prototype_sort byDaysDescending
                                         (List.filter isCritical recs)]> h) a _
              (lookup_insert_eq _ _ _)) as (t & Et & Ht).
  rewrite Et. eexists _, _. split; [reflexivity|]. split.
  - etrans; [|by apply alloc_extends]. by apply alloc_extends.
  - apply lookup_insert_eq.
Qed.

(** The render leaves every array as it was and shows [aggregates]. *)
Lemma renderM_spec records h recs :
  h !! records = Some recs ->
  exists h', renderM records h = (aggregates recs, h') /\ h ⊆ h'.
Proof.
  intros Hr. unfold renderM, countCriticalM, countWarningM, countSafeM.
  destruct (count_spec isCritical records h recs Hr) as (h1 & E1 & S1).
  rewrite bind_run, E1. cbn [fst snd].
  assert (Hr1 : h1 !! records = Some recs) by (by eapply lookup_weaken).
  destruct (count_spec isWarning records h1 recs Hr1) as (h2 & E2 & S2).
  rewrite bind_run, E2. cbn [fst snd].
  assert (Hr2 : h2 !! records = Some recs) by (by eapply lookup_weaken).
  destruct (count_spec isSafe records h2 recs Hr2) as (h3 & E3 & S3).
  rewrite bind_run, E3. cbn [fst snd].
  assert (Hr3 : h3 !! records = Some recs) by (by eapply lookup_weaken).
  unfold criticalByStoreM.
  rewrite bind_run, (Array_reduce_spec _ _ _ _ _ Hr3). cbn [fst snd].
  destruct (topCriticalM_spec records h3 recs Hr3) as (top & h4 & E4 & S4 & Ht).
  rewrite bind_run, E4. cbn [fst snd].
  rewrite bind_run, (contents_spec _ _ _ Ht). cbn [fst snd].
  eexists. split; [reflexivity|].
  etrans; [exact S1|]. etrans; [exact S2|]. etrans; [exact S3|]. exact S4.
Qed.

Lemma effectThenRenderM_spec c records h recs :
  h !! records = Some recs ->
  exists h', effectThenRenderM c records h = ((filtered c recs, aggregates recs), h')
             /\ h ⊆ h'.
Proof.
  intros Hr. unfold effectThenRenderM.
  destruct (applyFiltersM_spec c records h recs Hr) as (data & h1 & E1 & S1 & _ & Hd).
  rewrite bind_run, E1. cbn [fst snd].
  rewrite bind_run, (contents_spec _ _ _ Hd). cbn [fst snd].
  assert (Hr1 : h1 !! records = Some recs) by (by eapply lookup_weaken).
  destruct (renderM_spec records h1 recs Hr1) as (h2 & E2 & S2).
  rewrite bind_run, E2. cbn [fst snd].
  eexists. split; [reflexivity|]. by etrans.
Qed.

End ComponentFacts.

(* ===================================================================== *)
(** * The filter-and-sort pipeline *)
(* ===================================================================== *)

(** C9.  The filter effect never mutates its input: whatever the criteria,
    after the effect has run the array [records] holds the same elements in
    the same order (so the same length), the array handed to [setFiltered]
    is another array object, and every other array of the heap is untouched
    as well. *)
Theorem applyFilters_never_mutates_records `{Host}
    (c : Criteria) (records : loc) (h : heap PredictionRecord)
    (recs : list PredictionRecord) :
  h !! records = Some recs ->
  (applyFiltersM c records h).2 !! records = Some recs /\
  (applyFiltersM c records h).1 <> records /\
  (forall a xs, h !! a = Some xs -> (applyFiltersM c records h).2 !! a = Some xs).
Proof.
  intros Hr.
  destruct (applyFiltersM_spec c records h recs Hr) as (data & h' & -> & Hsub & Hd & _).
  cbn [fst snd]. split; [|split].
  - by eapply lookup_weaken.
  - congruence.
  - intros a xs Ha. by eapply lookup_weaken.
Qed.

Lemma applyFilters_never_mutates_records_witness :
  (@applyFiltersM AsciiHost.host (Samples.byDays desc) 0
     {[ 0%nat := Samples.snapshot ]}).2 !! 0%nat = Some Samples.snapshot /\
  (@applyFiltersM AsciiHost.host (Samples.byDays desc) 0
     {[ 0%nat := Samples.snapshot ]}).1 <> 0%nat /\
  (forall a xs, ({[ 0%nat := Samples.snapshot ]} : heap PredictionRecord) !! a = Some xs ->
     (@applyFiltersM AsciiHost.host (Samples.byDays desc) 0
        {[ 0%nat := Samples.snapshot ]}).2 !! a = Some xs).
Proof.
  apply (@applyFilters_never_mutates_records AsciiHost.host).
  reflexivity.
Defined.

(** The copy is what protects [records]: the same sort called on [records]
    itself would reorder it. *)
Example sort_without_copy_would_mutate :
  (@Array_sort AsciiHost.host _ (@compareRecords AsciiHost.host (Samples.byDays asc)) 0
     {[ 0%nat := Samples.snapshot ]}).2 !! 0%nat
  = Some [Samples.jeans; Samples.socks; Samples.tshirt; Samples.cap].
Proof. reflexivity. Qed.

(** C1.  The aggregates are computed over the full [records] array and are
    the same for every choice of criteria; only the rows of the table depend
    on the criteria. *)
Theorem aggregates_independent_of_filters `{Host}
    (c1 c2 : Criteria) (records : loc) (h : heap PredictionRecord)
    (recs : list PredictionRecord) :
  h !! records = Some recs ->
  let shown1 := (effectThenRenderM c1 records h).1 in
  let shown2 := (effectThenRenderM c2 records h).1 in
  shown1.2 = shown2.2 /\
  shown_countCritical shown1.2 = countCritical recs /\
  shown_countWarning shown1.2 = countWarning recs /\
  shown_countSafe shown1.2 = countSafe recs /\
  shown_criticalByStore shown1.2 = criticalByStore recs /\
  shown_topCritical shown1.2 = topCritical recs /\
  shown1.1 = filtered c1 recs /\
  shown2.1 = filtered c2 recs.
Proof.
  intros Hr.
  destruct (effectThenRenderM_spec c1 records h recs Hr) as (h1 & -> & _).
  destruct (effectThenRenderM_spec c2 records h recs Hr) as (h2 & -> & _).
  cbn. by repeat split.
Qed.

Lemma aggregates_independent_of_filters_witness :
  let shown1 := (@effectThenRenderM AsciiHost.host initialCriteria 0
                   {[ 0%nat := Samples.snapshot ]}).1 in
  let shown2 := (@effectThenRenderM AsciiHost.host Samples.onlyCritical 0
                   {[ 0%nat := Samples.snapshot ]}).1 in
  shown1.2 = shown2.2 /\
  shown_countCritical shown1.2 = countCritical Samples.snapshot /\
  shown_countWarning shown1.2 = countWarning Samples.snapshot /\
  shown_countSafe shown1.2 = countSafe Samples.snapshot /\
  shown_criticalByStore shown1.2 = @criticalByStore AsciiHost.host Samples.snapshot /\
  shown_topCritical shown1.2 = @topCritical AsciiHost.host Samples.snapshot /\
  shown1.1 = @filtered AsciiHost.host initialCriteria Samples.snapshot /\
  shown2.1 = @filtered AsciiHost.host Samples.onlyCritical Samples.snapshot.
Proof.
  apply (@aggregates_independent_of_filters AsciiHost.host).
  reflexivity.
Defined.

(** The rows do depend on the criteria. *)
Example rows_depend_on_filters :
  @filtered AsciiHost.host initialCriteria Samples.snapshot
  <> @filtered AsciiHost.host Samples.onlyCritical Samples.snapshot.
Proof. vm_compute. discriminate. Qed.

(** ** The order of the table *)

(** Where every record of the view has a sortable value in the sort
    column, the comparator is consistent, so every engine returns the one
    arrangement the language requires: the view is sorted, and it is
    stable.  [from] lists, for each position of the sorted view, the
    position the element had before the sort; two elements whose values on
    the sort column compare equal keep the order of their positions, for
    every sort column and both directions. *)
Lemma filtered_sort_is_stable_when_sortable `{Host}
    (c : Criteria) (recs : list PredictionRecord) :
  (forall r, r ∈ filterOnly c recs -> sortable c r) ->
  let view := filterOnly c recs in
  let from := sourcePositions (compareRecords c) view in
  from ≡ₚ seq 0 (length view) /\
  (forall k, filtered c recs !! k = from !! k ≫= (view !!.)) /\
  (forall p q i j a b,
     from !! p = Some i -> from !! q = Some j ->
     view !! i = Some a -> view !! j = Some b ->
     JSArray.SortCompare (compareRecords c) a b = Eq ->
     (i < j)%nat -> (p < q)%nat) /\
  sorted_by (compareRecords c) (filtered c recs).
Proof.
  intros Hs view from.
  pose proof (compareRecords_consistent c _ Hs) as Hc.
  assert (E : filtered c recs = JSArray.stableSort (compareRecords c) view)
    by (by apply Array_prototype_sort_consistent).
  split; [|split; [|split]].
  - apply sourcePositions_perm.
  - intros k. rewrite E. apply sort_sourcePositions.
  - intros p q i j a b Hp Hq Hi Hj Hab Hij.
    eapply (sort_stable (compareRecords c) view); eauto. congruence.
  - rewrite E. by apply sort_sorted.
Qed.

Lemma filtered_sort_is_stable_when_sortable_witness :
  sorted_by (@compareRecords AsciiHost.host (Samples.byDays asc))
            (@filtered AsciiHost.host (Samples.byDays asc) Samples.snapshot).
Proof.
  apply (@filtered_sort_is_stable_when_sortable AsciiHost.host (Samples.byDays asc)
           Samples.snapshot).
  apply Forall_forall. repeat constructor; (eexists; split; reflexivity).
Defined.

(** C2.  The sort of the table is not stable for every view.  The
    comparator subtracts the two values of a numeric column as they are, so
    against a record that has no value there it returns NaN, which the sort
    reads as "equal" to everything: the comparator is then not consistent
    and the order is the engine's own.  On V8, sorting seven records by
    reorder quantity, three of which have none, puts the second of the two
    records with quantity 5 in front of the first. *)
Theorem sort_swaps_equal_quantities_next_to_missing_ones :
  let c := MoreSamples.byQuantity in
  let view := MoreSamples.partlyPlanned in
  let table := @filtered AsciiHost.host c view in
  @filterOnly AsciiHost.host c view = view /\
  view !! 4%nat = Some MoreSamples.fiveFirst /\
  view !! 6%nat = Some MoreSamples.fiveSecond /\
  number_column (sortField c) MoreSamples.fiveFirst = Some (JSNumber.of_Z 5) /\
  number_column (sortField c) MoreSamples.fiveSecond = Some (JSNumber.of_Z 5) /\
  JSArray.SortCompare (@compareRecords AsciiHost.host c)
    MoreSamples.fiveFirst MoreSamples.fiveSecond = Eq /\
  table !! 3%nat = Some MoreSamples.fiveSecond /\
  table !! 6%nat = Some MoreSamples.fiveFirst /\
  map sku_id table = ["SKU_A"; "SKU_B"; "SKU_F"; "SKU_G"; "SKU_C"; "SKU_D"; "SKU_E"].
Proof. cbv zeta. repeat split; reflexivity. Qed.

(** The same defect on four records with 3, 2, no and 1 days to stock-out,
    sorted by days: the record without days and the record with 1 day tie
    for the sort, and V8 returns them in the other order. *)
Example sort_swaps_a_tie_with_a_missing_value :
  map sku_id (@filtered AsciiHost.host (Samples.byDays asc) MoreSamples.fourDays)
  = ["K3"; "K1"; "K0"; "K2"] /\
  JSArray.SortCompare (@compareRecords AsciiHost.host (Samples.byDays asc))
    (MoreSamples.item "K2" None (Some (JSNumber.of_Z 10)))
    (MoreSamples.item "K3" (Some (JSNumber.of_Z 1)) (Some (JSNumber.of_Z 10))) = Eq.
Proof. split; reflexivity. Qed.

(** On a numeric sort column whose values are all numbers other than NaN,
    a record holding [Infinity] comes after every record holding a finite
    value when the direction is ascending, and before every such record
    when it is descending, whatever the engine. *)
Lemma infinity_sorts_as_greatest_when_sortable `{Host}
    (c : Criteria) (recs : list PredictionRecord)
    (i j : nat) (a b : PredictionRecord) (q : Q) :
  (forall r, r ∈ filterOnly c recs -> sortable c r) ->
  filtered c recs !! i = Some a ->
  filtered c recs !! j = Some b ->
  number_column (sortField c) a = Some JSNumber.PosInf ->
  number_column (sortField c) b = Some (JSNumber.Finite q) ->
  match sortOrder c with
  | asc => (j < i)%nat
  | desc => (i < j)%nat
  end.
Proof.
  intros Hs Hi Hj Ha Hb.
  pose proof (Array_prototype_sort_sorted _ _ (compareRecords_consistent c _ Hs))
    as Hsorted.
  fold (filtered c recs) in Hsorted.
  assert (Hkind : string_column (sortField c) a = None /\
                  string_column (sortField c) b = None).
  { destruct (sortField c); simpl in *; try discriminate; auto. }
  destruct Hkind as [Hka Hkb].
  assert (Hne : i <> j) by (intros ->; congruence).
  assert (Hab : JSArray.SortCompare (compareRecords c) a b
                = match sortOrder c with asc => Gt | desc => Lt end).
  { unfold JSArray.SortCompare, compareRecords. rewrite Hka, Ha, Hb.
    by destruct (sortOrder c). }
  assert (Hba : JSArray.SortCompare (compareRecords c) b a
                = match sortOrder c with asc => Lt | desc => Gt end).
  { unfold JSArray.SortCompare, compareRecords. rewrite Hkb, Ha, Hb.
    by destruct (sortOrder c). }
  destruct (sortOrder c).
  - destruct (decide (i < j)%nat) as [Hlt|]; [|lia].
    exfalso. by apply (Hsorted i j a b Hlt Hi Hj).
  - destruct (decide (j < i)%nat) as [Hlt|]; [|lia].
    exfalso. by apply (Hsorted j i b a Hlt Hj Hi).
Qed.

Lemma infinity_sorts_as_greatest_when_sortable_witness :
  match sortOrder (Samples.byDays asc) with
  | asc => (0 < 3)%nat
  | desc => (3 < 0)%nat
  end.
Proof.
  apply (@infinity_sorts_as_greatest_when_sortable AsciiHost.host (Samples.byDays asc)
           Samples.snapshot 3 0 Samples.cap Samples.jeans 2).
  - apply Forall_forall.
    repeat constructor; (eexists; split; reflexivity).
  - reflexivity.
  - reflexivity.
  - reflexivity.
  - reflexivity.
Defined.


(** The same snapshot in the other direction: the record without depletion
    comes first. *)
Example infinity_first_when_descending :
  map sku_id (@filtered AsciiHost.host (Samples.byDays desc) Samples.snapshot)
  = ["cap_black"; "TSHIRT_RED_M"; "SOCKS_WHITE"; "JEANS_BLUE_32"].
Proof. reflexivity. Qed.

(** Two records of one store keep their order when the table is sorted by
    store, in both directions. *)
Example same_store_keeps_order :
  map sku_id (@filtered AsciiHost.host
     {| storeFilter := "ALL"; categoryFilter := "ALL"; search := EmptyString;
        showCriticalOnly := false; sortField := col_store_id; sortOrder := asc |}
     Samples.snapshot)
  = ["JEANS_BLUE_32"; "SOCKS_WHITE"; "TSHIRT_RED_M"; "cap_black"] /\
  map sku_id (@filtered AsciiHost.host
     {| storeFilter := "ALL"; categoryFilter := "ALL"; search := EmptyString;
        showCriticalOnly := false; sortField := col_store_id; sortOrder := desc |}
     Samples.snapshot)
  = ["TSHIRT_RED_M"; "cap_black"; "JEANS_BLUE_32"; "SOCKS_WHITE"].
Proof. split; reflexivity. Qed.

(** ** The four filters *)

Section StringFacts.
Local Open Scope string_scope.

Lemma append_cons c (t post : string) : String c t ++ post = String c (t ++ post).
Proof. reflexivity. Qed.

Lemma prefix_spec t : forall s,
  String.prefix t s = true <-> exists post, s = t ++ post.
Proof.
  induction t as [|c t IH]; intros s.
  - destruct s; simpl; split; eauto.
  - destruct s as [|c' s]; simpl.
    + split; [discriminate|intros [? ?]; discriminate].
    + destruct (ascii_dec c c') as [->|Hne].
      * rewrite IH. split; intros [post Hp]; exists post.
        -- by rewrite append_cons, Hp.
        -- rewrite append_cons in Hp. congruence.
      * split; [discriminate|intros [post Hp]].
        rewrite append_cons in Hp. congruence.
Qed.

(** [includes] finds the term anywhere in the string. *)
Lemma includes_spec t : forall s,
  JSString.includes s t = true <-> exists pre post, s = pre ++ t ++ post.
Proof.
  induction s as [|c s IH].
  - change (JSString.includes EmptyString t)
      with (String.prefix t EmptyString || false).
    rewrite orb_false_r, prefix_spec. split.
    + intros [post Hp]. by exists EmptyString, post.
    + intros ([|? ?] & post & Hp); [by exists post|].
      rewrite append_cons in Hp. discriminate.
  - change (JSString.includes (String c s) t)
      with (String.prefix t (String c s) || JSString.includes s t).
    rewrite orb_true_iff, prefix_spec, IH. split.
    + intros [[post Hp]|(pre & post & Hp)].
      * by exists EmptyString, post.
      * exists (String c pre), post. by rewrite append_cons, Hp.
    + intros ([|c' pre] & post & Hp).
      * left. by exists post.
      * right. exists pre, post. rewrite append_cons in Hp. congruence.
Qed.

Lemma includes_empty s : JSString.includes s EmptyString = true.
Proof. apply includes_spec. by exists EmptyString, s. Qed.

End StringFacts.

Section FilterFacts.
Context `{Host}.

Lemma filter_filter_comm {A} (p q : A -> bool) (l : list A) :
  List.filter p (List.filter q l) = List.filter q (List.filter p l).
Proof.
  induction l as [|x l IH]; simpl; [done|].
  destruct (p x) eqn:Ep, (q x) eqn:Eq; simpl; rewrite ?Ep, ?Eq, ?IH; done.
Qed.

Lemma filter_filter_andb {A} (p q : A -> bool) (l : list A) :
  List.filter p (List.filter q l) = List.filter (fun x => q x && p x) l.
Proof.
  induction l as [|x l IH]; simpl; [done|].
  destruct (q x) eqn:Eq; simpl; [destruct (p x)|]; by rewrite IH.
Qed.

Lemma filter_true {A} (p : A -> bool) (l : list A) :
  (forall x, p x = true) -> List.filter p l = l.
Proof.
  intros Hp. induction l as [|x l IH]; simpl; [done|]. by rewrite Hp, IH.
Qed.

Lemma filterStep_passes k c recs :
  filterStep k c recs = List.filter (passes k c) recs.
Proof.
  unfold filterStep, passes. destruct (active k c); simpl; [done|].
  by rewrite filter_true.
Qed.

(** C8.  The four filters are pure predicates combined by AND: any two of
    them can be applied in either order with the same result (the same
    records in the same order), the four statements of the effect keep
    exactly the records that pass every active filter, and each filter
    tests what its name says: equality with the chosen store, equality with
    the chosen category, the status ["Critical"], and an occurrence of the
    lower-cased trimmed term anywhere in the lower-cased [sku_id]; an empty
    term keeps every record. *)
Theorem filters_commute (c : Criteria) (recs : list PredictionRecord) :
  (forall k1 k2,
     filterStep k1 c (filterStep k2 c recs) = filterStep k2 c (filterStep k1 c recs)) /\
  filterOnly c recs
  = List.filter (fun r => passes by_store c r && passes by_category c r &&
                          passes by_critical c r && passes by_search c r) recs /\
  (forall r, predicate by_store c r = true <-> store_id r = storeFilter c) /\
  (forall r, predicate by_category c r = true <-> category r = Some (categoryFilter c)) /\
  (forall r, predicate by_critical c r = true <-> status r = "Critical") /\
  (forall r, predicate by_search c r = true <->
     exists pre post,
       toLowerCase (sku_id r) = (pre ++ toLowerCase (trim (search c)) ++ post)%string) /\
  (search c = EmptyString -> filterStep by_search c recs = recs).
Proof.
  split; [|split; [|split; [|split; [|split; [|split]]]]].
  - intros k1 k2. rewrite !filterStep_passes. apply filter_filter_comm.
  - unfold filterOnly. rewrite !filterStep_passes, !filter_filter_andb.
    apply List.filter_ext. intros r. by rewrite !andb_assoc.
  - intros r. simpl. unfold matchesStore. apply String.eqb_eq.
  - intros r. simpl. unfold matchesCategory. destruct (category r) as [x|].
    + rewrite String.eqb_eq. split; congruence.
    + split; discriminate.
  - intros r. simpl. unfold isCritical. apply String.eqb_eq.
  - intros r. simpl. unfold matchesSearch, term. apply includes_spec.
  - intros Hs. unfold filterStep. simpl. rewrite Hs, trim_empty. reflexivity.
Qed.

End FilterFacts.

(** A term matches whatever its case and the case of the SKU. *)
Example search_ignores_case :
  map sku_id (@filterStep AsciiHost.host by_search
     {| storeFilter := "ALL"; categoryFilter := "ALL"; search := "  Red ";
        showCriticalOnly := false; sortField := col_sku_id; sortOrder := asc |}
     Samples.snapshot)
  = ["TSHIRT_RED_M"].
Proof. reflexivity. Qed.

(** ** The status counts *)

(** C10.  Each of the three counts is the number of records whose status is
    exactly that word; a record with any other status adds to none of them,
    so the three counts add up to the number of records with one of the
    three statuses, which can be less than the number of records. *)
Theorem status_counts_are_exact (recs : list PredictionRecord) :
  countCritical recs = count_occ string_dec (map status recs) "Critical" /\
  countWarning recs = count_occ string_dec (map status recs) "Warning" /\
  countSafe recs = count_occ string_dec (map status recs) "Safe" /\
  (forall r before after,
     status r <> "Critical" -> status r <> "Warning" -> status r <> "Safe" ->
     countCritical (before ++ r :: after) = countCritical (before ++ after) /\
     countWarning (before ++ r :: after) = countWarning (before ++ after) /\
     countSafe (before ++ r :: after) = countSafe (before ++ after)) /\
  (countCritical recs + countWarning recs + countSafe recs
   = length (List.filter (fun r => isCritical r || isWarning r || isSafe r) recs))%nat /\
  (countCritical recs + countWarning recs + countSafe recs <= length recs)%nat.
Proof.
  assert (Hcount : forall (w : string) l,
            length (List.filter (fun r => String.eqb (status r) w) l)
            = count_occ string_dec (map status l) w).
  { intros w l. induction l as [|r l IH]; simpl; [done|].
    destruct (String.eqb_spec (status r) w) as [E|E];
      destruct (string_dec (status r) w); try congruence; simpl; by rewrite IH. }
  assert (Hskip : forall (p : PredictionRecord -> bool) r before after,
            p r = false ->
            length (List.filter p (before ++ r :: after))
            = length (List.filter p (before ++ after))).
  { intros p r before after Hp. rewrite !List.filter_app. simpl. by rewrite Hp. }
  assert (Hsum : (countCritical recs + countWarning recs + countSafe recs
            = length (List.filter (fun r => isCritical r || isWarning r || isSafe r) recs))%nat).
  { unfold countCritical, countWarning, countSafe, isCritical, isWarning, isSafe.
    induction recs as [|r l IH]; simpl; [done|].
    destruct (String.eqb_spec (status r) "Critical") as [E1|E1];
      destruct (String.eqb_spec (status r) "Warning") as [E2|E2];
      destruct (String.eqb_spec (status r) "Safe") as [E3|E3];
      try (rewrite E1 in E2; discriminate); try (rewrite E1 in E3; discriminate);
      try (rewrite E2 in E3; discriminate); simpl; lia. }
  repeat split.
  - apply Hcount.
  - apply Hcount.
  - apply Hcount.
  - apply Hskip. by apply String.eqb_neq.
  - apply Hskip. by apply String.eqb_neq.
  - apply Hskip. by apply String.eqb_neq.
  - exact Hsum.
  - rewrite Hsum. apply List.filter_length_le.
Qed.

(** A status outside the three words is counted nowhere. *)
Example unknown_status_is_counted_nowhere :
  let odd := {| sku_id := "X"; store_id := "S"; current_stock := JSNumber.of_Z 1;
                avg_daily_sales := None; days_to_stockout := None;
                status := "critical"; recommended_reorder_quantity := None;
                category := None; city := None; last_updated := None |} in
  (countCritical [odd; Samples.jeans] + countWarning [odd; Samples.jeans]
   + countSafe [odd; Samples.jeans] = 1)%nat /\
  length [odd; Samples.jeans] = 2%nat.
Proof. split; reflexivity. Qed.

(** ** [toFixed] *)

Section ToFixedFacts.
Context `{Host}.
Local Open Scope string_scope.

Lemma string_app_assoc (a b c : string) : (a ++ b) ++ c = a ++ b ++ c.
Proof.
  induction a as [|x a IH]; [done|].
  change (String x ((a ++ b) ++ c) = String x (a ++ b ++ c)). by rewrite IH.
Qed.

Lemma string_app_nil_r (a : string) : a ++ EmptyString = a.
Proof.
  induction a as [|x a IH]; [done|].
  change (String x (a ++ EmptyString) = String x a). by rewrite IH.
Qed.

Lemma length_append (s t : string) :
  String.length (s ++ t) = (String.length s + String.length t)%nat.
Proof. induction s as [|c s IH]; simpl; [done|]. by rewrite IH. Qed.

Lemma frac_digits_length f : forall m, String.length (JSString.frac_digits f m) = f.
Proof.
  induction f as [|f IH]; intros m; [done|].
  cbn [JSString.frac_digits]. rewrite length_append, IH. simpl. lia.
Qed.

(** *** Reading digits back *)

Lemma nat_of_digit_char d :
  0 <= d < 10 -> nat_of_ascii (JSString.digit_char d) = (48 + Z.to_nat d)%nat.
Proof. intros Hd. unfold JSString.digit_char. apply nat_ascii_embedding. lia. Qed.

Lemma isDigit_digit_char d : 0 <= d < 10 -> CsvSpec.isDigit (JSString.digit_char d) = true.
Proof.
  intros Hd. unfold CsvSpec.isDigit. rewrite nat_of_digit_char by done.
  apply andb_true_iff; split; apply Nat.leb_le; lia.
Qed.

Lemma digitValue_digit_char d : 0 <= d < 10 -> CsvSpec.digitValue (JSString.digit_char d) = d.
Proof. intros Hd. unfold CsvSpec.digitValue. rewrite nat_of_digit_char by done. lia. Qed.

Lemma readFrom_app acc a b :
  CsvSpec.readFrom acc (a ++ b)
  = match CsvSpec.readFrom acc a with
    | Some v => CsvSpec.readFrom v b
    | None => None
    end.
Proof.
  revert acc. induction a as [|c a IH]; intros acc; [done|].
  change (String c a ++ b) with (String c (a ++ b)). cbn [CsvSpec.readFrom].
  destruct (CsvSpec.isDigit c); [apply IH|done].
Qed.

Lemma allDigits_app a b :
  CsvSpec.allDigits (a ++ b) = CsvSpec.allDigits a && CsvSpec.allDigits b.
Proof.
  induction a as [|c a IH]; [done|].
  change (String c a ++ b) with (String c (a ++ b)). cbn [CsvSpec.allDigits].
  by rewrite IH, andb_assoc.
Qed.

Lemma readFrom_frac_digits f : forall m acc,
  CsvSpec.readFrom acc (JSString.frac_digits f m)
  = Some (acc * 10 ^ Z.of_nat f + m mod 10 ^ Z.of_nat f).
Proof.
  induction f as [|f IH]; intros m acc.
  - cbn. rewrite Z.mod_1_r. f_equal. lia.
  - cbn [JSString.frac_digits]. rewrite readFrom_app, IH. cbn [CsvSpec.readFrom].
    assert (Hd : 0 <= m mod 10 < 10) by (apply Z.mod_pos_bound; lia).
    rewrite isDigit_digit_char, digitValue_digit_char by done. f_equal.
    rewrite Nat2Z.inj_succ, Z.pow_succ_r by lia.
    rewrite (Z.rem_mul_r m 10 (10 ^ Z.of_nat f)) by lia. ring.
Qed.

Lemma allDigits_frac_digits f : forall m, CsvSpec.allDigits (JSString.frac_digits f m) = true.
Proof.
  induction f as [|f IH]; intros m; [done|].
  cbn [JSString.frac_digits]. rewrite allDigits_app, IH. cbn [CsvSpec.allDigits].
  rewrite isDigit_digit_char by (apply Z.mod_pos_bound; lia). done.
Qed.

Lemma readFrom_of_uint_acc d : forall acc,
  CsvSpec.readFrom (Z.pos acc) (NilEmpty.string_of_uint d)
  = Some (Z.pos (Pos.of_uint_acc d acc)).
Proof.
  induction d; intros acc; cbn [NilEmpty.string_of_uint Pos.of_uint_acc]; [done|..];
    cbn [CsvSpec.readFrom]; change (CsvSpec.isDigit _) with true; cbv iota;
    rewrite <- IHd; f_equal; unfold CsvSpec.digitValue;
    match goal with
    | |- context [nat_of_ascii ?c] =>
        let v := eval vm_compute in (nat_of_ascii c) in
        change (nat_of_ascii c) with v
    end; lia.
Qed.

Lemma readFrom_of_uint d :
  CsvSpec.readFrom 0 (NilEmpty.string_of_uint d) = Some (Z.of_N (N.of_uint d)).
Proof.
  induction d; cbn [NilEmpty.string_of_uint]; [done|exact IHd|..];
    cbn [CsvSpec.readFrom]; change (CsvSpec.isDigit _) with true; cbv iota;
    unfold N.of_uint; cbn [Pos.of_uint Z.of_N];
    rewrite <- readFrom_of_uint_acc; f_equal.
Qed.

Lemma allDigits_string_of_uint d : CsvSpec.allDigits (NilEmpty.string_of_uint d) = true.
Proof. induction d; cbn [NilEmpty.string_of_uint CsvSpec.allDigits]; [done|exact IHd..]. Qed.

Lemma int_digits_not_empty n : JSString.int_digits n <> EmptyString.
Proof.
  unfold JSString.int_digits.
  assert (Hd : N.to_uint (Z.to_N n) <> Decimal.Nil).
  { destruct (Z.to_N n) as [|p]; [discriminate|apply DecimalPos.Unsigned.to_uint_nonnil]. }
  by destruct (N.to_uint (Z.to_N n)).
Qed.

Lemma readDigits_int_digits n :
  0 <= n -> CsvSpec.readDigits (JSString.int_digits n) = Some n.
Proof.
  intros Hn. pose proof (int_digits_not_empty n) as Hne. unfold CsvSpec.readDigits.
  destruct (JSString.int_digits n) eqn:E; [done|]. rewrite <- E.
  unfold JSString.int_digits. rewrite readFrom_of_uint, DecimalN.Unsigned.of_to.
  by rewrite Z2N.id.
Qed.

Lemma allDigits_int_digits n : CsvSpec.allDigits (JSString.int_digits n) = true.
Proof. apply allDigits_string_of_uint. Qed.

Lemma nzhead_not_zero d :
  match Decimal.nzhead d with Decimal.D0 _ => False | _ => True end.
Proof. induction d; simpl; auto. Qed.

Lemma noLeadingZero_int_digits n :
  CsvSpec.noLeadingZero (JSString.int_digits n) = true.
Proof.
  unfold JSString.int_digits.
  assert (E : N.to_uint (Z.to_N n) = Decimal.unorm (N.to_uint (Z.to_N n))).
  { rewrite <- DecimalN.Unsigned.to_of. by rewrite DecimalN.Unsigned.of_to. }
  rewrite E. unfold Decimal.unorm.
  pose proof (nzhead_not_zero (N.to_uint (Z.to_N n))) as Hhead.
  destruct (Decimal.nzhead (N.to_uint (Z.to_N n))) as [|d|d|d|d|d|d|d|d|d|d];
    try done; cbn; by destruct (NilEmpty.string_of_uint d).
Qed.

Lemma splitAtPoint_digits whole fraction :
  CsvSpec.allDigits whole = true ->
  CsvSpec.splitAtPoint (whole ++ "." ++ fraction) = Some (whole, fraction).
Proof.
  induction whole as [|c w IH]; intros Hw; [done|].
  cbn [CsvSpec.allDigits] in Hw. apply andb_true_iff in Hw as [Hc Hw].
  change (String c w ++ "." ++ fraction) with (String c (w ++ "." ++ fraction)).
  cbn [CsvSpec.splitAtPoint]. rewrite (IH Hw).
  destruct (Ascii.eqb_spec c ".") as [->|_]; [discriminate|done].
Qed.

(** A minus sign or none, digits, a point and digits: the text has as many
    decimal places as it has digits after the point. *)
Lemma hasDecimalPlaces_printed (plain : bool) whole fraction :
  whole <> EmptyString ->
  CsvSpec.allDigits whole = true -> CsvSpec.allDigits fraction = true ->
  CsvSpec.hasDecimalPlaces (String.length fraction)
    ((if plain then EmptyString else "-") ++ whole ++ "." ++ fraction) = true.
Proof.
  intros Hne Hw Hf. unfold CsvSpec.hasDecimalPlaces.
  assert (E : CsvSpec.unsigned ((if plain then EmptyString else "-")
                                ++ whole ++ "." ++ fraction)
              = whole ++ "." ++ fraction).
  { destruct plain; [|done]. destruct whole as [|c w]; [done|].
    cbn [CsvSpec.allDigits] in Hw. apply andb_true_iff in Hw as [Hc _].
    change (EmptyString ++ String c w ++ "." ++ fraction)
      with (String c (w ++ "." ++ fraction)).
    cbn [CsvSpec.unsigned]. destruct (Ascii.eqb_spec c "-") as [->|_]; [discriminate|done]. }
  rewrite E, splitAtPoint_digits by done. rewrite Hw, Hf, Nat.eqb_refl.
  by destruct whole.
Qed.

(** A finite number of magnitude below 10^21 prints with its [f] decimal
    places. *)
Lemma toFixed_rounded (f : nat) (q : Q) :
  (Qabs q < inject_Z (10 ^ 21))%Q ->
  CsvSpec.rounded (S f) q (toFixed (S f) (JSNumber.Finite q)) /\
  CsvSpec.hasDecimalPlaces (S f) (toFixed (S f) (JSNumber.Finite q)) = true /\
  JSString.truthy (toFixed (S f) (JSNumber.Finite q)) = true.
Proof.
  intros Hlt. unfold toFixed.
  set (x := if negb (Qle_bool 0 q) then Qopp q else q).
  assert (Hx : (Qabs q == x)%Q).
  { unfold x. destruct (Qle_bool 0 q) eqn:E; cbn [negb].
    - apply Qabs_pos. by apply Qle_bool_iff.
    - apply Qabs_neg. apply Qlt_le_weak, Qnot_le_lt. intros Hle%Qle_bool_iff. congruence. }
  assert (E2 : Qle_bool (inject_Z (10 ^ 21)) x = false).
  { apply not_true_is_false. intros Hle%Qle_bool_iff.
    rewrite <- Hx in Hle. by apply (Qlt_not_le _ _ Hlt). }
  rewrite E2.
  set (n := Qfloor (x * inject_Z (10 ^ Z.of_nat (S f)) + (1 # 2))).
  assert (Hn : 0 <= n).
  { unfold n. rewrite <- (Qfloor_Z 0). apply Qfloor_resp_le.
    rewrite <- Hx.
    assert (H0 : (0 <= Qabs q)%Q) by apply Qabs_nonneg.
    assert (H1 : (0 <= inject_Z (10 ^ Z.of_nat (S f)))%Q).
    { change 0%Q with (inject_Z 0). rewrite <- Zle_Qle. apply Z.pow_nonneg. lia. }
    pose proof (Qmult_le_0_compat _ _ H0 H1) as H2.
    apply (Qle_trans _ (Qabs q * inject_Z (10 ^ Z.of_nat (S f)) + 0)).
    - by rewrite Qplus_0_r.
    - apply Qplus_le_r. done. }
  set (P := 10 ^ Z.of_nat (S f)) in *.
  assert (HP : 0 < P) by (apply Z.pow_pos_nonneg; lia).
  set (whole := JSString.int_digits (n / P)).
  set (fraction := JSString.frac_digits (S f) (n mod P)).
  assert (Hsign : (if negb (Qle_bool 0 q) then "-" else EmptyString)
                  = (if Qle_bool 0 q then EmptyString else "-"))
    by (by destruct (Qle_bool 0 q)).
  rewrite Hsign.
  split; [|split].
  - exists n, whole, fraction.
    split; [|split; [|split; [done|split; [|split; [|split]]]]].
    + rewrite Hx. apply Qfloor_le.
    + rewrite Hx. apply Qlt_floor.
    + apply readDigits_int_digits. apply Z.div_pos; lia.
    + apply noLeadingZero_int_digits.
    + apply frac_digits_length.
    + unfold fraction. rewrite readFrom_frac_digits. f_equal.
      rewrite Z.mod_mod by lia. unfold P. lia.
  - rewrite <- (frac_digits_length (S f) (n mod P)). fold fraction.
    apply hasDecimalPlaces_printed.
    + apply int_digits_not_empty.
    + apply allDigits_int_digits.
    + apply allDigits_frac_digits.
  - pose proof (int_digits_not_empty (n / P)) as Hne. fold whole in Hne.
    destruct (Qle_bool 0 q); [|done]. by destruct whole.
Qed.

End ToFixedFacts.

(** From 10^21 on [toFixed] hands over to Number::toString, which prints
    with an exponent. *)
Example toFixed_of_large_numbers :
  @toFixed AsciiHost.host 1 (JSNumber.of_Z (10 ^ 21)) = "1e+21" /\
  @toFixed AsciiHost.host 1 (JSNumber.of_Z (10 ^ 21 - 2 ^ 17)) = "999999999999999868928.0" /\
  @toFixed AsciiHost.host 2 (JSNumber.Finite (5 # 4)) = "1.25" /\
  @toFixed AsciiHost.host 1 (JSNumber.Finite (5 # 4)) = "1.3" /\
  @toFixed AsciiHost.host 1 (JSNumber.Finite (- 1 # 1000)) = "-0.0".
Proof. repeat split. Qed.

(** ** The CSV export *)

Section CsvFacts.
Context `{Host}.
Local Open Scope string_scope.
Import Csv.

Lemma line_quotedLine cells : line cells = quotedLine (map cellToString cells).
Proof. unfold line, quotedLine, quoted. by rewrite map_map. Qed.

Lemma csv_lines data :
  csv data = JSString.join JSString.newline
               (quotedLine headers :: map (fun r => quotedLine (fields r)) data).
Proof.
  unfold csv, rows. cbn [map]. f_equal. f_equal.
  rewrite map_map. apply map_ext. intros r. apply line_quotedLine.
Qed.

(** [join] puts the separator in front of every part but the first. *)
Lemma join_map {B} (sep : string) (g : B -> string) (x : B) (l : list B) :
  JSString.join sep (map g (x :: l))
  = g x ++ fold_right (fun v acc => sep ++ g v ++ acc) EmptyString l.
Proof.
  revert x. induction l as [|y l IH]; intros x.
  - cbn. by rewrite string_app_nil_r.
  - change (JSString.join sep (map g (x :: y :: l)))
      with (g x ++ sep ++ JSString.join sep (map g (y :: l))).
    by rewrite IH.
Qed.

Lemma quotedLine_row (texts : list string) : quotedLine texts = CsvSpec.row texts.
Proof.
  destruct texts as [|first others]; [done|].
  unfold quotedLine. by rewrite join_map.
Qed.

(** The document the code builds is the document of the specification:
    the row of the nine columns, then a row per record. *)
Lemma csv_document data :
  csv data = CsvSpec.document (CsvSpec.columns :: map fields data).
Proof.
  rewrite csv_lines.
  assert (E : quotedLine headers :: map (fun r => quotedLine (fields r)) data
              = map quotedLine (CsvSpec.columns :: map fields data)).
  { cbn [map]. f_equal. by rewrite map_map. }
  rewrite E, join_map. clear E. unfold CsvSpec.document. rewrite quotedLine_row. f_equal.
  induction (map fields data) as [|texts l IH]; [done|].
  cbn [fold_right]. by rewrite IH, quotedLine_row.
Qed.

(** C5.  For a non-empty view the export saves one document: the row of
    the nine columns, then one row per record in the order of the view,
    each after a line feed; the values of a row are separated by commas and
    each stands between two double quotes.  In a record's row,
    [days_to_stockout] is the infinity glyph when it is [Infinity], ["0"]
    when it is absent, and otherwise what [toFixed(1)] prints: for a finite
    value of magnitude below 10^21 the value with one decimal place;
    [avg_daily_sales] is ["0"] when it is absent and otherwise what
    [toFixed(2)] prints: below 10^21 the value with two decimal places; an
    absent or empty [category] or [city] is ["-"], and an absent
    [recommended_reorder_quantity] is ["0"]. *)
Theorem csv_export_format (data : list PredictionRecord) (filename : string) :
  data <> [] ->
  downloadCSV data filename
    = [saveBlob (csv data) "text/csv;charset=utf-8;" filename] /\
  csv data = CsvSpec.document (CsvSpec.columns :: map fields data) /\
  (forall r,
     length (fields r) = 9%nat /\
     fields r !! 0%nat = Some (sku_id r) /\
     fields r !! 1%nat = Some (store_id r) /\
     fields r !! 2%nat = Some (numberToString (current_stock r)) /\
     fields r !! 5%nat = Some (status r) /\
     (* days_to_stockout *)
     (days_to_stockout r = Some JSNumber.PosInf -> fields r !! 4%nat = Some "∞") /\
     (days_to_stockout r = None -> fields r !! 4%nat = Some "0") /\
     (forall x, days_to_stockout r = Some x -> x <> JSNumber.PosInf ->
        fields r !! 4%nat = Some (JSString.or_else (toFixed 1 x) "0")) /\
     (forall q, days_to_stockout r = Some (JSNumber.Finite q) ->
        (Qabs q < inject_Z (10 ^ 21))%Q ->
        exists text, fields r !! 4%nat = Some text /\
          CsvSpec.rounded 1 q text /\ CsvSpec.hasDecimalPlaces 1 text = true) /\
     (* avg_daily_sales *)
     (avg_daily_sales r = None -> fields r !! 3%nat = Some "0") /\
     (forall x, avg_daily_sales r = Some x ->
        fields r !! 3%nat = Some (JSString.or_else (toFixed 2 x) "0")) /\
     (forall q, avg_daily_sales r = Some (JSNumber.Finite q) ->
        (Qabs q < inject_Z (10 ^ 21))%Q ->
        exists text, fields r !! 3%nat = Some text /\
          CsvSpec.rounded 2 q text /\ CsvSpec.hasDecimalPlaces 2 text = true) /\
     (* recommended_reorder_quantity, category, city *)
     (recommended_reorder_quantity r = None -> fields r !! 6%nat = Some "0") /\
     (forall n, recommended_reorder_quantity r = Some n ->
        fields r !! 6%nat
        = Some (if JSNumber.truthy n then numberToString n else "0")) /\
     (category r = None \/ category r = Some EmptyString -> fields r !! 7%nat = Some "-") /\
     (forall s, category r = Some s -> s <> EmptyString -> fields r !! 7%nat = Some s) /\
     (city r = None \/ city r = Some EmptyString -> fields r !! 8%nat = Some "-") /\
     (forall s, city r = Some s -> s <> EmptyString -> fields r !! 8%nat = Some s)).
Proof.
  intros Hne. split; [|split; [apply csv_document|]].
  - unfold downloadCSV. destruct data; [done|reflexivity].
  - intros r. unfold fields, row. cbn [map length lookup list_lookup cellToString].
    assert (Hprinted : forall f q, (Qabs q < inject_Z (10 ^ 21))%Q ->
              JSString.or_else (toFixed (S f) (JSNumber.Finite q)) "0"
              = toFixed (S f) (JSNumber.Finite q)).
    { intros f q Hq. destruct (toFixed_rounded f q Hq) as (_ & _ & Ht).
      unfold JSString.or_else. by rewrite Ht. }
    repeat split.
    + intros E. unfold daysCell. by rewrite E.
    + intros E. unfold daysCell. by rewrite E.
    + intros x E Hx. unfold daysCell. rewrite E. by destruct x.
    + intros q E Hq. unfold daysCell. rewrite E. cbn [JSNumber.strict_eq cellToString].
      rewrite Hprinted by done. eexists. split; [reflexivity|].
      destruct (toFixed_rounded 0 q Hq) as (H1 & H2 & _). done.
    + intros E. unfold avgCell. by rewrite E.
    + intros x E. unfold avgCell. by rewrite E.
    + intros q E Hq. unfold avgCell. rewrite E. cbn [cellToString].
      rewrite Hprinted by done. eexists. split; [reflexivity|].
      destruct (toFixed_rounded 1 q Hq) as (H1 & H2 & _). done.
    + intros E. unfold reorderCell. by rewrite E.
    + intros n E. unfold reorderCell. rewrite E. by destruct (JSNumber.truthy n).
    + intros [E|E]; by rewrite E.
    + intros s E Hs. rewrite E. cbn [orDash cellToString]. by destruct s.
    + intros [E|E]; by rewrite E.
    + intros s E Hs. rewrite E. cbn [orDash cellToString]. by destruct s.
Qed.

(** C6.  The export of an empty view only raises the notice "No data to
    export": no document is built, whatever the file name; and a notice is
    raised for no other view, which gets a document instead. *)
Theorem export_of_empty_view (filename : string) :
  downloadCSV [] filename = [alert "No data to export"] /\
  (forall a, a ∈ downloadCSV [] filename -> is_saveBlob a = false) /\
  (forall data, (exists a, a ∈ downloadCSV data filename /\ is_alert a = true)
                <-> data = []) /\
  (forall data, (exists a, a ∈ downloadCSV data filename /\ is_saveBlob a = true)
                <-> data <> []).
Proof.
  split; [reflexivity|]. split; [|split].
  - intros a Ha. cbn in Ha. apply list_elem_of_singleton in Ha. by subst a.
  - intros [|r data]; unfold downloadCSV; cbn [length Nat.eqb]; split.
    + done.
    + intros _. eexists. split; [apply list_elem_of_here|done].
    + intros (a & Ha & Hal). apply list_elem_of_singleton in Ha. by subst a.
    + done.
  - intros [|r data]; unfold downloadCSV; cbn [length Nat.eqb]; split.
    + intros (a & Ha & Hal). apply list_elem_of_singleton in Ha. by subst a.
    + done.
    + done.
    + intros _. eexists. split; [apply list_elem_of_here|done].
Qed.

End CsvFacts.

Lemma csv_export_format_witness :
  @Csv.downloadCSV AsciiHost.host Samples.snapshot "inventory_export.csv"
  = [Csv.saveBlob (@Csv.csv AsciiHost.host Samples.snapshot)
       "text/csv;charset=utf-8;" "inventory_export.csv"].
Proof.
  apply (@csv_export_format AsciiHost.host Samples.snapshot "inventory_export.csv").
  discriminate.
Defined.

(** C5, as the specification states it, does not hold of every
    non-empty view.  "[days_to_stockout] renders as the infinity glyph
    when the value is the infinity sentinel, otherwise one decimal place":
    a record without [days_to_stockout] gets the text ["0"], and one whose
    days are 10^21 the text ["1e+21"]; neither has a decimal place.
    "[avg_daily_sales] renders to two decimal places": a record without
    [avg_daily_sales] gets the text ["0"]. *)
Lemma csv_cells_without_decimal_places :
  ~ (forall data : list PredictionRecord, data <> [] ->
     forall r, r ∈ data -> days_to_stockout r <> Some JSNumber.PosInf ->
       exists text, @Csv.fields AsciiHost.host r !! 4%nat = Some text /\
                    CsvSpec.hasDecimalPlaces 1 text = true) /\
  ~ (forall data : list PredictionRecord, data <> [] ->
     forall r q, r ∈ data -> days_to_stockout r = Some (JSNumber.Finite q) ->
       exists text, @Csv.fields AsciiHost.host r !! 4%nat = Some text /\
                    CsvSpec.hasDecimalPlaces 1 text = true) /\
  ~ (forall data : list PredictionRecord, data <> [] ->
     forall r, r ∈ data ->
       exists text, @Csv.fields AsciiHost.host r !! 3%nat = Some text /\
                    CsvSpec.hasDecimalPlaces 2 text = true).
Proof.
  split; [|split]; intros Hclaim.
  - destruct (Hclaim [MoreSamples.undated] ltac:(discriminate) MoreSamples.undated
                ltac:(apply list_elem_of_here) ltac:(discriminate))
      as (text & Htext & Hplaces).
    cbn in Htext. injection Htext as <-. discriminate.
  - destruct (Hclaim [MoreSamples.farAway] ltac:(discriminate) MoreSamples.farAway
                (inject_Z (10 ^ 21)) ltac:(apply list_elem_of_here) eq_refl)
      as (text & Htext & Hplaces).
    vm_compute in Htext. injection Htext as <-. discriminate.
  - destruct (Hclaim [MoreSamples.unsold] ltac:(discriminate) MoreSamples.unsold
                ltac:(apply list_elem_of_here))
      as (text & Htext & Hplaces).
    cbn in Htext. injection Htext as <-. discriminate.
Qed.

(** What the cells are where they have no decimal place: for an absent
    value, and from 10^21 on, where [toFixed] prints as Number::toString
    does. *)
Example csv_days_cells_without_decimal_place :
  @Csv.fields AsciiHost.host MoreSamples.undated !! 4%nat = Some "0" /\
  CsvSpec.hasDecimalPlaces 1 "0" = false /\
  @Csv.fields AsciiHost.host MoreSamples.farAway !! 4%nat = Some "1e+21" /\
  CsvSpec.hasDecimalPlaces 1 "1e+21" = false /\
  @Csv.fields AsciiHost.host MoreSamples.unsold !! 3%nat = Some "0" /\
  CsvSpec.hasDecimalPlaces 2 "0" = false.
Proof. repeat split. Qed.

(** The whole text of the document of a view of one record. *)
Example csv_text_of_one_record :
  let q := String (ascii_of_nat 34) EmptyString in
  let lf := String (ascii_of_nat 10) EmptyString in
  @Csv.csv AsciiHost.host [Samples.jeans]
  = (q ++ "SKU" ++ q ++ "," ++ q ++ "Store" ++ q ++ "," ++
     q ++ "Current Stock" ++ q ++ "," ++ q ++ "Avg Daily Sales" ++ q ++ "," ++
     q ++ "Days to Stockout" ++ q ++ "," ++ q ++ "Status" ++ q ++ "," ++
     q ++ "Reorder Qty" ++ q ++ "," ++ q ++ "Category" ++ q ++ "," ++
     q ++ "City" ++ q ++ lf ++
     q ++ "JEANS_BLUE_32" ++ q ++ "," ++ q ++ "STORE_DELHI" ++ q ++ "," ++
     q ++ "2" ++ q ++ "," ++ q ++ "1.00" ++ q ++ "," ++ q ++ "2.0" ++ q ++ "," ++
     q ++ "Critical" ++ q ++ "," ++ q ++ "30" ++ q ++ "," ++ q ++ "Jeans" ++ q ++ "," ++
     q ++ "-" ++ q)%string.
Proof. reflexivity. Qed.

(** The lines of the sample snapshot, sorted by days to stock-out. *)
Example csv_of_the_sample :
  map (@Csv.fields AsciiHost.host)
      (@filtered AsciiHost.host (Samples.byDays asc) Samples.snapshot)
  = [ ["JEANS_BLUE_32"; "STORE_DELHI"; "2"; "1.00"; "2.0"; "Critical"; "30"; "Jeans"; "-"];
      ["SOCKS_WHITE"; "STORE_DELHI"; "3"; "1.25"; "2.4"; "Critical"; "30"; "Socks"; "Delhi"];
      ["TSHIRT_RED_M"; "STORE_MUMBAI"; "45"; "1.50"; "30.0"; "Safe"; "20"; "T-Shirts"; "Mumbai"];
      ["cap_black"; "STORE_MUMBAI"; "10"; "0.00"; "∞"; "Safe"; "0"; "-"; "Mumbai"] ].
Proof. reflexivity. Qed.

(** ** [criticalByStore] *)

Section CriticalByStoreFacts.
Context `{Host}.
Import JSObject.

Lemma add_of_Z a b : JSNumber.add (JSNumber.of_Z a) (JSNumber.of_Z b) = JSNumber.of_Z (a + b).
Proof.
  unfold JSNumber.add, JSNumber.of_Z, Qplus, inject_Z. simpl.
  f_equal. f_equal. lia.
Qed.

Lemma truthy_of_Z n : n <> 0 -> JSNumber.truthy (JSNumber.of_Z n) = true.
Proof.
  intros Hn. unfold JSNumber.truthy, JSNumber.of_Z.
  apply negb_true_iff, not_true_is_false. intros E%Qeq_bool_iff.
  unfold Qeq, inject_Z in E. simpl in E. lia.
Qed.

Lemma own_counters cs k :
  own (counters_object cs) k
  = (fun n => PNumber (JSNumber.of_Z n)) <$> counter cs k.
Proof.
  induction cs as [|[k' n] cs IH]; simpl; [done|].
  by destruct (String.eqb k' k).
Qed.

Lemma put_bump cs k :
  put (counters_object cs) k (PNumber (JSNumber.of_Z (next (counter cs k))))
  = counters_object (bump cs k).
Proof.
  induction cs as [|[k' n] cs IH]; simpl; [done|].
  destruct (String.eqb k' k); simpl; [done|]. by rewrite IH.
Qed.

(** One step of the reducer on a table of positive counters. *)
Lemma countByStore_counters cs r :
  Forall (fun e => 0 < snd e) cs ->
  isCritical r = true -> inherited (store_id r) = false ->
  countByStore (counters_object cs) r = counters_object (bump cs (store_id r)).
Proof.
  intros Hpos Hc Hplain. unfold countByStore. rewrite Hc.
  assert (Hproto : String.eqb (store_id r) "__proto__" = false).
  { apply String.eqb_neq. intros E. rewrite E in Hplain. discriminate. }
  unfold set. rewrite Hproto. rewrite <- put_bump. f_equal.
  unfold get. rewrite own_counters, Hplain.
  destruct (counter cs (store_id r)) as [n|] eqn:E; simpl.
  - assert (0 < n).
    { clear -Hpos E. induction cs as [|[k' m] cs IH]; simpl in E; [done|].
      inversion Hpos; subst. destruct (String.eqb k' (store_id r)); [|by apply IH].
      injection E as <-. done. }
    unfold or_else. cbn [truthy]. rewrite truthy_of_Z by lia.
    cbn [plus_one]. rewrite add_of_Z. reflexivity.
  - unfold or_else. cbn [truthy]. reflexivity.
Qed.

Lemma bump_positive cs k :
  Forall (fun e => 0 < snd e) cs -> Forall (fun e => 0 < snd e) (bump cs k).
Proof.
  induction 1 as [|[k' n] cs Hn Hcs IH]; simpl.
  - repeat constructor.
  - destruct (String.eqb k' k); constructor; simpl in *; auto; lia.
Qed.

Lemma counter_bump cs k s :
  counter (bump cs k) s
  = if String.eqb k s then Some (next (counter cs k)) else counter cs s.
Proof.
  induction cs as [|[k' n] cs IH]; simpl.
  - reflexivity.
  - destruct (String.eqb_spec k' k) as [Ek|Hne]; simpl.
    + subst k'. by destruct (String.eqb k s).
    + rewrite IH. destruct (String.eqb_spec k s) as [Es|Hks]; [|done].
      subst s. by rewrite (proj2 (String.eqb_neq k' k) Hne).
Qed.

Lemma counters_sum_bump cs k : counters_sum (bump cs k) = counters_sum cs + 1.
Proof.
  induction cs as [|[k' n] cs IH]; simpl; [done|].
  destruct (String.eqb k' k); simpl; [|rewrite IH]; unfold counters_sum; simpl; lia.
Qed.

Lemma keys_bump cs k :
  map fst (bump cs k) = map fst cs \/
  (counter cs k = None /\ map fst (bump cs k) = map fst cs ++ [k]).
Proof.
  induction cs as [|[k' n] cs IH]; simpl.
  - by right.
  - destruct (String.eqb k' k) eqn:E; simpl; [by left|].
    destruct IH as [->|[Hn ->]]; [by left|by right].
Qed.

Lemma counter_None cs k : counter cs k = None <-> k ∉ map fst cs.
Proof.
  induction cs as [|[k' n] cs IH]; simpl.
  - split; [intros _; apply not_elem_of_nil|done].
  - rewrite not_elem_of_cons. destruct (String.eqb_spec k' k) as [->|Hne].
    + split; [discriminate|intros [? _]; done].
    + rewrite IH. split; [intros ?; split; congruence|intros [_ ?]; done].
Qed.

Lemma bump_NoDup cs k : NoDup (map fst cs) -> NoDup (map fst (bump cs k)).
Proof.
  intros Hnd. destruct (keys_bump cs k) as [->|[Hn ->]]; [done|].
  apply NoDup_app. split; [done|]. split.
  - intros x Hx Hk%list_elem_of_singleton. subst x. by apply counter_None in Hn.
  - apply NoDup_singleton.
Qed.

Lemma total_counters cs :
  total (counters_object cs) = JSNumber.of_Z (counters_sum cs).
Proof.
  induction cs as [|[k n] cs IH]; [done|].
  change (total (counters_object ((k, n) :: cs)))
    with (JSNumber.add (JSNumber.of_Z n) (total (counters_object cs))).
  rewrite IH. apply add_of_Z.
Qed.

Lemma criticalAt_snoc s recs r :
  criticalAt s (recs ++ [r])
  = (criticalAt s recs + if isCritical r && String.eqb (store_id r) s then 1 else 0)%nat.
Proof.
  unfold criticalAt. rewrite List.filter_app, List.length_app. simpl.
  by destruct (isCritical r && String.eqb (store_id r) s).
Qed.

Lemma countCritical_snoc recs r :
  countCritical (recs ++ [r])
  = (countCritical recs + if isCritical r then 1 else 0)%nat.
Proof.
  unfold countCritical. rewrite List.filter_app, List.length_app. simpl.
  by destruct (isCritical r).
Qed.

(** On store names that [Object.prototype] does not have, the reducer
    builds the table of the per-store counts. *)
Lemma criticalByStore_counters recs :
  (forall r, r ∈ recs -> isCritical r = true -> inherited (store_id r) = false) ->
  exists cs : counters,
    criticalByStore recs = counters_object cs /\
    Forall (fun e => 0 < snd e) cs /\
    NoDup (map fst cs) /\
    (forall s, counter cs s
               = if Nat.eqb (criticalAt s recs) 0 then None
                 else Some (Z.of_nat (criticalAt s recs))) /\
    counters_sum cs = Z.of_nat (countCritical recs).
Proof.
  induction recs as [|r recs IH] using rev_ind; intros Hplain.
  - exists []. repeat split; try constructor.
  - destruct IH as (cs & Hobj & Hpos & Hnd & Hcount & Hsum).
    { intros r' Hr'. apply Hplain, elem_of_app. by left. }
    unfold criticalByStore in *. rewrite fold_left_app. cbn [fold_left].
    rewrite Hobj. destruct (isCritical r) eqn:Hc.
    + assert (Hin : inherited (store_id r) = false).
      { apply Hplain; [|done]. apply elem_of_app. right. apply list_elem_of_here. }
      exists (bump cs (store_id r)).
      split; [by apply countByStore_counters|].
      split; [by apply bump_positive|]. split; [by apply bump_NoDup|]. split.
      * intros s. rewrite counter_bump, criticalAt_snoc, Hc. cbn [andb].
        destruct (String.eqb_spec (store_id r) s) as [<-|Hne].
        -- rewrite Hcount. unfold next.
           destruct (Nat.eqb_spec (criticalAt (store_id r) recs) 0) as [E|E].
           ++ rewrite E. reflexivity.
           ++ destruct (Nat.eqb_spec (criticalAt (store_id r) recs + 1) 0); [lia|].
              simpl. f_equal. lia.
        -- rewrite Hcount, Nat.add_0_r. reflexivity.
      * rewrite counters_sum_bump, countCritical_snoc, Hc, Hsum. lia.
    + exists cs. unfold countByStore. rewrite Hc.
      split; [done|]. split; [done|]. split; [done|]. split.
      * intros s. rewrite criticalAt_snoc, Hc. cbn [andb].
        by rewrite Hcount, Nat.add_0_r.
      * rewrite countCritical_snoc, Hc, Hsum. lia.
Qed.

End CriticalByStoreFacts.

Section CriticalByStoreClaims.
Context `{Host}.
Import JSObject.

Lemma entries_perm (o : object) : entries o ≡ₚ o.
Proof.
  unfold entries. rewrite sort_perm.
  induction o as [|e o IH]; simpl; [done|].
  destruct (is_array_index (fst e)); simpl.
  - by constructor.
  - rewrite <- Permutation_middle. by constructor.
Qed.

Lemma elem_of_keys (o : object) s : s ∈ keys o <-> s ∈ map fst o.
Proof. unfold keys. by rewrite entries_perm. Qed.

Lemma own_NoDup (o : object) s v :
  NoDup (map fst o) -> (s, v) ∈ o -> own o s = Some v.
Proof.
  induction o as [|[k w] o IH]; simpl; intros Hnd Hin.
  - by apply elem_of_nil in Hin.
  - apply NoDup_cons in Hnd as [Hk Hnd].
    apply elem_of_cons in Hin as [E|Hin].
    + injection E as -> ->. by rewrite String.eqb_refl.
    + destruct (String.eqb_spec k s) as [->|Hne]; [|by apply IH].
      exfalso. apply Hk. apply list_elem_of_fmap. by exists (s, v).
Qed.

Lemma keys_counters cs : map fst (counters_object cs) = map fst cs.
Proof. unfold counters_object. rewrite map_map. by apply map_ext. Qed.

(** What C7 says holds for every snapshot whose Critical records are at
    stores named otherwise than a property of [Object.prototype]: the
    mapping has exactly the stores with a Critical record, each with its
    number of Critical records; the values add up to the number of
    Critical records; and the chart shows at most 6 of these entries. *)
Lemma criticalByStore_counts_plain_stores (recs : list PredictionRecord) :
  (forall r, r ∈ recs -> isCritical r = true -> inherited (store_id r) = false) ->
  (forall s, own (criticalByStore recs) s
             = if Nat.eqb (criticalAt s recs) 0 then None
               else Some (PNumber (JSNumber.of_Z (Z.of_nat (criticalAt s recs))))) /\
  (forall s, s ∈ keys (criticalByStore recs) <-> (0 < criticalAt s recs)%nat) /\
  NoDup (map fst (criticalByStore recs)) /\
  total (criticalByStore recs) = JSNumber.of_Z (Z.of_nat (countCritical recs)) /\
  (forall shown, BarChart (criticalByStore recs) = Some shown ->
     (length shown <= 6)%nat /\
     forall s v, (s, v) ∈ shown ->
       (0 < criticalAt s recs)%nat /\
       v = PNumber (JSNumber.of_Z (Z.of_nat (criticalAt s recs)))).
Proof.
  intros Hplain.
  destruct (criticalByStore_counters recs Hplain) as (cs & -> & Hpos & Hnd & Hc & Hsum).
  assert (Hown : forall s, own (counters_object cs) s
             = if Nat.eqb (criticalAt s recs) 0 then None
               else Some (PNumber (JSNumber.of_Z (Z.of_nat (criticalAt s recs))))).
  { intros s. rewrite own_counters, Hc. by destruct (Nat.eqb (criticalAt s recs) 0). }
  assert (Hkeys : forall s, s ∈ map fst (counters_object cs) <-> (0 < criticalAt s recs)%nat).
  { intros s. rewrite keys_counters. split.
    - intros Hin. destruct (Nat.eqb_spec (criticalAt s recs) 0) as [E|E]; [|lia].
      exfalso. pose proof (Hc s) as Hs. rewrite E in Hs. cbn in Hs.
      by apply counter_None in Hs.
    - intros Hpos'. destruct (decide (s ∈ map fst cs)) as [|Hnot]; [done|].
      apply counter_None in Hnot. rewrite Hc in Hnot.
      destruct (Nat.eqb_spec (criticalAt s recs) 0); [lia|discriminate]. }
  split; [exact Hown|]. split; [|split; [|split]].
  - intros s. by rewrite elem_of_keys.
  - by rewrite keys_counters.
  - by rewrite total_counters, Hsum.
  - intros shown. unfold BarChart.
    destruct (Nat.eqb (length (keys (counters_object cs))) 0); [discriminate|].
    intros [= <-]. split; [rewrite length_take; lia|].
    intros s v Hin.
    assert (Hin' : (s, v) ∈ counters_object cs).
    { rewrite <- entries_perm. apply elem_of_take in Hin as (i & Hi & _).
      by eapply list_elem_of_lookup_2. }
    assert (Hs : (0 < criticalAt s recs)%nat).
    { apply Hkeys. apply list_elem_of_fmap. by exists (s, v). }
    split; [exact Hs|].
    pose proof (own_NoDup _ s v ltac:(by rewrite keys_counters) Hin') as Ho.
    rewrite Hown in Ho.
    destruct (Nat.eqb_spec (criticalAt s recs) 0); [lia|]. congruence.
Qed.

(** C7 at a store named like a property of [Object.prototype].  The read
    [acc[store_id]] finds the inherited object, which is truthy, and [+ 1]
    concatenates: for the store ["constructor"] the mapping holds a text
    instead of the count 1; for the store ["__proto__"] the assignment is
    swallowed by the inherited setter, the mapping stays empty and the
    chart shows "No data", although one record is Critical. *)
Theorem criticalByStore_inherited_store_name :
  criticalByStore [Samples.criticalOf "constructor"]
  = [("constructor", PString (inheritedToString "constructor" ++ "1"))] /\
  countCritical [Samples.criticalOf "constructor"] = 1%nat /\
  criticalAt "constructor" [Samples.criticalOf "constructor"] = 1%nat /\
  criticalByStore [Samples.criticalOf "__proto__"] = [] /\
  BarChart (criticalByStore [Samples.criticalOf "__proto__"]) = None /\
  countCritical [Samples.criticalOf "__proto__"] = 1%nat.
Proof. repeat split. Qed.

End CriticalByStoreClaims.

(** With the texts of V8. *)
Example criticalByStore_of_a_store_named_constructor :
  @criticalByStore AsciiHost.host
     [Samples.criticalOf "constructor"; Samples.criticalOf "constructor"]
  = [("constructor", JSObject.PString "function Object() { [native code] }11")].
Proof. reflexivity. Qed.

Example criticalByStore_of_the_sample :
  @criticalByStore AsciiHost.host Samples.snapshot
  = [("STORE_DELHI", JSObject.PNumber (JSNumber.of_Z 2))].
Proof. reflexivity. Qed.

(* ===================================================================== *)
(** * The fetch callback *)
(* ===================================================================== *)

Section FetchFacts.
Context `{Host}.
Import Fetch.

Lemma set_phase_lookup id p rs j :
  set_phase id p rs !! j
  = if decide (id = j)
    then (fun r => {| aborted := aborted r; phase := p |}) <$> rs !! j
    else rs !! j.
Proof. unfold set_phase. rewrite list_lookup_alter. by case_decide; subst. Qed.

Lemma abort_lookup id rs j :
  abort id rs !! j
  = if decide (id = j)
    then (fun r => {| aborted := true; phase := phase r |}) <$> rs !! j
    else rs !! j.
Proof. unfold abort. rewrite list_lookup_alter. by case_decide; subst. Qed.

(** What [catch] does when the error is the cancellation. *)
Lemma catch_AbortError id message s :
  catch id "AbortError" message s
  = {| records := records s; lastUpdated := lastUpdated s;
       loading := loading s; error := error s;
       abortControllerRef := abortControllerRef s;
       requests := set_phase id finished (requests s) |}.
Proof. reflexivity. Qed.

(** The settlement of a promise of an aborted request changes nothing but
    the progress of that request. *)
Lemma step_about_aborted s e id :
  is_aborted s id = true -> about id e = true ->
  visible (step s e) = visible s /\
  abortControllerRef (step s e) = abortControllerRef s /\
  (requests (step s e) = requests s \/
   requests (step s e) = set_phase id finished (requests s)).
Proof.
  intros Hab Habout. unfold about in Habout.
  destruct e as [|id' o|id' o|]; simpl in Habout; try discriminate;
    apply Nat.eqb_eq in Habout; subst id'; simpl.
  - destruct (phase_of s id); auto.
    unfold afterFetch. rewrite Hab, catch_AbortError. simpl. auto.
  - destruct (phase_of s id); auto.
    unfold afterJson. rewrite Hab, catch_AbortError. simpl. auto.
Qed.

(** Every step changes the table of requests by aborting one, by moving
    one to another phase, or by adding one at the end. *)
Lemma step_requests s e :
  exists rs1 extra,
    requests (step s e) = rs1 ++ extra /\
    (rs1 = requests s \/ (exists id p, rs1 = set_phase id p (requests s)) \/
     (exists id, rs1 = abort id (requests s))).
Proof.
  destruct e as [|id o|id o|]; simpl.
  - unfold start. destruct (abortControllerRef s); simpl; eauto 10.
  - destruct (phase_of s id); try (exists (requests s), []; rewrite app_nil_r; by auto).
    unfold afterFetch. destruct (is_aborted s id).
    { exists (set_phase id finished (requests s)), []. rewrite app_nil_r. eauto 10. }
    destruct o as [m|ok st].
    + unfold catch. simpl.
      exists (set_phase id finished (requests s)), []. rewrite app_nil_r. eauto 10.
    + destruct ok; simpl.
      * exists (set_phase id awaitingJson (requests s)), []. rewrite app_nil_r. eauto 10.
      * exists (set_phase id finished (requests s)), []. rewrite app_nil_r. eauto 10.
  - destruct (phase_of s id); try (exists (requests s), []; rewrite app_nil_r; by auto).
    unfold afterJson. destruct (is_aborted s id).
    { exists (set_phase id finished (requests s)), []. rewrite app_nil_r. eauto 10. }
    destruct o as [m|d]; simpl;
      exists (set_phase id finished (requests s)), []; rewrite app_nil_r; eauto 10.
  - unfold cleanup. destruct (abortControllerRef s); simpl.
    + exists (abort n (requests s)), []. rewrite app_nil_r. eauto 10.
    + exists (requests s), []. rewrite app_nil_r. auto.
Qed.

(** An aborted request stays aborted. *)
Lemma is_aborted_step s e id :
  is_aborted s id = true -> is_aborted (step s e) id = true.
Proof.
  intros Hab. destruct (step_requests s e) as (rs1 & extra & E & Hrs1).
  unfold is_aborted in *. rewrite E.
  destruct (requests s !! id) as [r|] eqn:Er; [|discriminate].
  assert (Hl : exists r', rs1 !! id = Some r' /\ aborted r' = true).
  { destruct Hrs1 as [->|[(i & p & ->)|(i & ->)]].
    - eauto.
    - rewrite set_phase_lookup, Er. case_decide; simpl; eauto.
    - rewrite abort_lookup, Er. case_decide; simpl; eauto. }
  destruct Hl as (r' & Hr' & Hab'). by rewrite (lookup_app_l_Some _ _ _ _ Hr').
Qed.

Lemma is_aborted_run es : forall s id,
  is_aborted s id = true -> is_aborted (run s es) id = true.
Proof.
  induction es as [|e es IH]; intros s id Hab; [done|].
  simpl. apply IH. by apply is_aborted_step.
Qed.

End FetchFacts.

Section FetchAgreement.
Context `{Host}.
Import Fetch.

Lemma same_but_set_phase id j p rs rs' :
  same_but id rs rs' -> same_but id (set_phase j p rs) (set_phase j p rs').
Proof.
  intros [Hlen Hl]. split.
  - unfold set_phase. by rewrite !length_alter.
  - intros k Hk. rewrite !set_phase_lookup. case_decide; by rewrite Hl.
Qed.

Lemma same_but_abort id j rs rs' :
  same_but id rs rs' -> same_but id (abort j rs) (abort j rs').
Proof.
  intros [Hlen Hl]. split.
  - unfold abort. by rewrite !length_alter.
  - intros k Hk. rewrite !abort_lookup. case_decide; by rewrite Hl.
Qed.

Lemma same_but_app id rs rs' extra :
  same_but id rs rs' -> same_but id (rs ++ extra) (rs' ++ extra).
Proof.
  intros [Hlen Hl]. split.
  - by rewrite !length_app, Hlen.
  - intros k Hk. by rewrite !lookup_app, Hl, Hlen.
Qed.

Lemma agree_same_but id s s' :
  agree id s s' <->
  visible s = visible s' /\ abortControllerRef s = abortControllerRef s' /\
  same_but id (requests s) (requests s') /\
  is_aborted s id = true /\ is_aborted s' id = true.
Proof. unfold agree, same_but. tauto. Qed.

(** A settlement of the aborted request on one side keeps the agreement. *)
Lemma agree_step_about id s s' e :
  agree id s s' -> about id e = true -> agree id (step s e) s'.
Proof.
  intros (Hv & Hr & Hlen & Hl & Hab & Hab') Habout.
  destruct (step_about_aborted s e id Hab Habout) as (Hv1 & Hr1 & Hrs).
  split; [congruence|]. split; [congruence|].
  split; [|split; [|split; [by apply is_aborted_step|done]]].
  - destruct Hrs as [->| ->]; [done|]. unfold set_phase. by rewrite length_alter.
  - intros j Hj. destruct Hrs as [->| ->]; [by apply Hl|].
    rewrite set_phase_lookup. case_decide; [congruence|by apply Hl].
Qed.

(** Any other event keeps the agreement when it happens on both sides. *)
Lemma agree_step_other id s s' e :
  agree id s s' -> about id e = false -> agree id (step s e) (step s' e).
Proof.
  intros Hag Habout.
  pose proof Hag as (Hv & Hr & Hsame & Hab & Hab')%agree_same_but.
  apply agree_same_but.
  assert (Hph : forall j, j <> id -> phase_of s j = phase_of s' j).
  { intros j Hj. unfold phase_of. by rewrite (proj2 Hsame j Hj). }
  assert (Habj : forall j, j <> id -> is_aborted s j = is_aborted s' j).
  { intros j Hj. unfold is_aborted. by rewrite (proj2 Hsame j Hj). }
  split; [|split; [|split; [|split; by apply is_aborted_step]]].
  - (* what the operator sees *)
    destruct s as [recs lu ld er ref rs], s' as [recs' lu' ld' er' ref' rs'].
    unfold visible in Hv. simpl in *. injection Hv as -> -> -> ->. subst ref'.
    destruct e as [|j o|j o|]; simpl.
    + reflexivity.
    + unfold about in Habout. simpl in Habout. apply Nat.eqb_neq in Habout.
      rewrite <- (Hph j Habout). destruct (phase_of _ j); try reflexivity.
      unfold afterFetch. rewrite <- (Habj j Habout).
      destruct (is_aborted _ j); [reflexivity|].
      destruct o as [m|[] st]; reflexivity.
    + unfold about in Habout. simpl in Habout. apply Nat.eqb_neq in Habout.
      rewrite <- (Hph j Habout). destruct (phase_of _ j); try reflexivity.
      unfold afterJson. rewrite <- (Habj j Habout).
      destruct (is_aborted _ j); [reflexivity|].
      destruct o as [m|d]; reflexivity.
    + unfold cleanup. simpl. by destruct ref.
  - (* the ref *)
    destruct s as [recs lu ld er ref rs], s' as [recs' lu' ld' er' ref' rs'].
    simpl in *. subst ref'.
    destruct e as [|j o|j o|]; simpl.
    + f_equal. destruct Hsame as [Hlen _].
      destruct ref; simpl; unfold abort; by rewrite ?length_alter.
    + unfold about in Habout. simpl in Habout. apply Nat.eqb_neq in Habout.
      rewrite <- (Hph j Habout). destruct (phase_of _ j); try reflexivity.
      unfold afterFetch. rewrite <- (Habj j Habout).
      destruct (is_aborted _ j); [reflexivity|].
      destruct o as [m|[] st]; reflexivity.
    + unfold about in Habout. simpl in Habout. apply Nat.eqb_neq in Habout.
      rewrite <- (Hph j Habout). destruct (phase_of _ j); try reflexivity.
      unfold afterJson. rewrite <- (Habj j Habout).
      destruct (is_aborted _ j); [reflexivity|].
      destruct o as [m|d]; reflexivity.
    + unfold cleanup. simpl. by destruct ref.
  - (* the table of requests *)
    destruct s as [recs lu ld er ref rs], s' as [recs' lu' ld' er' ref' rs'].
    simpl in *. subst ref'.
    destruct e as [|j o|j o|]; simpl.
    + apply same_but_app. destruct ref; [by apply same_but_abort|done].
    + unfold about in Habout. simpl in Habout. apply Nat.eqb_neq in Habout.
      rewrite <- (Hph j Habout). destruct (phase_of _ j); try done.
      unfold afterFetch. rewrite <- (Habj j Habout).
      destruct (is_aborted _ j); [by apply same_but_set_phase|].
      destruct o as [m|[] st]; by apply same_but_set_phase.
    + unfold about in Habout. simpl in Habout. apply Nat.eqb_neq in Habout.
      rewrite <- (Hph j Habout). destruct (phase_of _ j); try done.
      unfold afterJson. rewrite <- (Habj j Habout).
      destruct (is_aborted _ j); [by apply same_but_set_phase|].
      destruct o as [m|d]; by apply same_but_set_phase.
    + unfold cleanup. simpl. destruct ref; [by apply same_but_abort|done].
Qed.

(** Leaving out the settlements of an aborted request changes nothing the
    operator sees. *)
Lemma agree_run id es : forall s s',
  agree id s s' -> agree id (run s es) (run s' (without id es)).
Proof.
  induction es as [|e es IH]; intros s s' Hag; [done|].
  simpl. unfold without. simpl. destruct (about id e) eqn:Ea; simpl.
  - apply IH. by apply agree_step_about.
  - apply IH. by apply agree_step_other.
Qed.

Lemma agree_refl id s : is_aborted s id = true -> agree id s s.
Proof. intros Hab. by repeat split. Qed.

End FetchAgreement.

Section FetchClaims.
Context `{Host}.
Import Fetch.

(** The error indicator is set only by a failure that is not a
    cancellation. *)
Lemma error_only_on_failure s e :
  raises_error s (step s e) -> genuine_failure s e.
Proof.
  unfold raises_error. intros [Hchg Hsome].
  destruct e as [|id o|id o|]; simpl in *.
  - done.
  - destruct (phase_of s id); try done.
    unfold afterFetch in *. destruct (is_aborted s id) eqn:Ea; [done|].
    destruct o as [m|[] st]; simpl in *; done.
  - destruct (phase_of s id); try done.
    unfold afterJson in *. destruct (is_aborted s id) eqn:Ea; [done|].
    destruct o as [m|d]; simpl in *; done.
  - unfold cleanup in *. by destruct (abortControllerRef s).
Qed.

(** The new request runs to its end when its two promises fulfil. *)
Lemma newest_request_lands s status d :
  let r2 := length (requests s) in
  visible (run (step s call)
             [fetchSettles r2 (fetchResponse true status); jsonSettles r2 (jsonData d)])
  = (recs_of d, lastUpdated_of d, false, None).
Proof.
  intros r2. set (t1 := step s call).
  assert (Hl : requests t1 !! r2 = Some {| aborted := false; phase := awaitingFetch |}).
  { unfold t1. cbn [step]. unfold start. cbn [requests].
    apply list_lookup_middle. unfold r2, abort.
    destruct (abortControllerRef s); by rewrite ?length_alter. }
  assert (He : error t1 = None) by reflexivity.
  assert (E1 : step t1 (fetchSettles r2 (fetchResponse true status))
               = {| records := records t1; lastUpdated := lastUpdated t1;
                    loading := loading t1; error := error t1;
                    abortControllerRef := abortControllerRef t1;
                    requests := set_phase r2 awaitingJson (requests t1) |}).
  { cbn [step]. unfold phase_of. rewrite Hl. cbn [phase].
    unfold afterFetch, is_aborted. rewrite Hl. reflexivity. }
  unfold run. cbn [fold_left]. rewrite E1.
  cbn [step]. unfold phase_of. cbn [requests].
  rewrite set_phase_lookup, Hl, decide_True by done.
  cbn [fmap option_fmap option_map phase].
  unfold afterJson, is_aborted. cbn [requests].
  rewrite set_phase_lookup, Hl, decide_True by done.
  cbn [fmap option_fmap option_map aborted].
  unfold visible. cbn [records lastUpdated loading error]. by rewrite He.
Qed.

End FetchClaims.

(** C4.  When a call of [fetchData] starts a request R2 while the request
    R1 of the ref is still outstanding, R1 is aborted at that moment; from
    then on no settlement of a promise of R1 changes [records],
    [lastUpdated], [loading] or [error]: what the operator sees after any
    run of events is what the same run shows with R1's settlements left
    out, so when R2's promises fulfil the state is R2's reply whenever R1
    settles.  The error indicator is set only by a failure of a request
    that was not aborted. *)
Theorem superseded_request_is_discarded `{Host}
    (s : Fetch.State) (r1 : nat) (es : list Fetch.Event) :
  Fetch.abortControllerRef s = Some r1 ->
  Fetch.outstanding s r1 = true ->
  let s2 := Fetch.step s Fetch.call in
  let r2 := length (Fetch.requests s) in
  Fetch.abortControllerRef s2 = Some r2 /\ r2 <> r1 /\
  Fetch.is_aborted s2 r1 = true /\
  (forall before e, Fetch.about r1 e = true ->
     Fetch.visible (Fetch.step (Fetch.run s2 before) e)
     = Fetch.visible (Fetch.run s2 before)) /\
  Fetch.visible (Fetch.run s2 es) = Fetch.visible (Fetch.run s2 (Fetch.without r1 es)) /\
  (forall status d,
     Fetch.without r1 es
     = [Fetch.fetchSettles r2 (Fetch.fetchResponse true status);
        Fetch.jsonSettles r2 (Fetch.jsonData d)] ->
     Fetch.visible (Fetch.run s2 es)
     = (Fetch.recs_of d, Fetch.lastUpdated_of d, false, None)) /\
  (forall s0 e, Fetch.raises_error s0 (Fetch.step s0 e) -> Fetch.genuine_failure s0 e).
Proof.
  intros Href Hout s2 r2.
  assert (Hr1 : exists r, Fetch.requests s !! r1 = Some r).
  { unfold Fetch.outstanding, Fetch.phase_of in Hout.
    destruct (Fetch.requests s !! r1); [eauto|discriminate]. }
  destruct Hr1 as [r Hr].
  assert (Hlt : (r1 < length (Fetch.requests s))%nat) by (by eapply lookup_lt_Some).
  assert (Hab : Fetch.is_aborted s2 r1 = true).
  { unfold s2, Fetch.is_aborted. cbn [Fetch.step]. unfold Fetch.start.
    rewrite Href. cbn [Fetch.requests].
    rewrite lookup_app_l by (unfold Fetch.abort; by rewrite length_alter).
    rewrite abort_lookup, Hr. by rewrite decide_True. }
  assert (Hvis : Fetch.visible (Fetch.run s2 es)
                 = Fetch.visible (Fetch.run s2 (Fetch.without r1 es))).
  { apply (agree_run r1 es s2 s2). by apply agree_refl. }
  split; [|split; [lia|split; [exact Hab|split; [|split; [exact Hvis|split]]]]].
  - unfold s2. cbn [Fetch.step]. unfold Fetch.start. rewrite Href.
    cbn [Fetch.abortControllerRef]. unfold Fetch.abort. by rewrite length_alter.
  - intros before e He.
    apply (step_about_aborted _ e r1); [|exact He]. by apply is_aborted_run.
  - intros status d Hes. rewrite Hvis, Hes. apply newest_request_lands.
  - intros s0 e. apply error_only_on_failure.
Qed.

Lemma superseded_request_is_discarded_witness :
  Fetch.visible
    (@Fetch.run AsciiHost.host
       (@Fetch.step AsciiHost.host (@Fetch.step AsciiHost.host Fetch.initial Fetch.call)
          Fetch.call)
       [Fetch.fetchSettles 1 (Fetch.fetchResponse true 200);
        Fetch.fetchSettles 0 (Fetch.fetchResponse true 200);
        Fetch.jsonSettles 1 (Fetch.jsonData Samples.freshReply);
        Fetch.jsonSettles 0 (Fetch.jsonData Samples.staleReply)])
  = (Samples.snapshot, Some "2024-01-01T10:05:00", false, None).
Proof.
  apply (@superseded_request_is_discarded AsciiHost.host
           (@Fetch.step AsciiHost.host Fetch.initial Fetch.call) 0
           [Fetch.fetchSettles 1 (Fetch.fetchResponse true 200);
            Fetch.fetchSettles 0 (Fetch.fetchResponse true 200);
            Fetch.jsonSettles 1 (Fetch.jsonData Samples.freshReply);
            Fetch.jsonSettles 0 (Fetch.jsonData Samples.staleReply)]
           eq_refl eq_refl).
Defined.

(** Without the abort the stale reply would win: the same events in a
    state where the first request was never aborted. *)
Example unaborted_request_would_overwrite :
  Fetch.records
    (@Fetch.run AsciiHost.host
       {| Fetch.records := []; Fetch.lastUpdated := None; Fetch.loading := true;
          Fetch.error := None; Fetch.abortControllerRef := Some 1%nat;
          Fetch.requests :=
            [ {| Fetch.aborted := false; Fetch.phase := Fetch.awaitingFetch |};
              {| Fetch.aborted := false; Fetch.phase := Fetch.awaitingFetch |} ] |}
       [Fetch.fetchSettles 1 (Fetch.fetchResponse true 200);
        Fetch.fetchSettles 0 (Fetch.fetchResponse true 200);
        Fetch.jsonSettles 1 (Fetch.jsonData Samples.freshReply);
        Fetch.jsonSettles 0 (Fetch.jsonData Samples.staleReply)])
  = [Samples.tshirt].
Proof. reflexivity. Qed.

(* ===================================================================== *)
(** * The rest of the component *)
(* ===================================================================== *)

(** ** The option lists of the two dropdowns *)

Section SetFacts.

Lemma elem_of_List_filter {A} (p : A -> bool) (l : list A) x :
  x ∈ List.filter p l <-> x ∈ l /\ p x = true.
Proof. rewrite !list_elem_of_In. apply filter_In. Qed.

Lemma existsb_eqb_elem_of (x : string) (l : list string) :
  existsb (String.eqb x) l = true <-> x ∈ l.
Proof.
  rewrite existsb_exists. split.
  - intros (y & Hy & ->%String.eqb_eq). by apply list_elem_of_In.
  - intros Hx. exists x. split; [by apply list_elem_of_In|apply String.eqb_refl].
Qed.

Lemma from_snoc l x : JSSet.from (l ++ [x]) = JSSet.add (JSSet.from l) x.
Proof. unfold JSSet.from. by rewrite fold_left_app. Qed.

Lemma elem_of_add values x y : y ∈ JSSet.add values x <-> y ∈ values \/ y = x.
Proof.
  unfold JSSet.add. destruct (existsb (String.eqb x) values) eqn:E.
  - apply existsb_eqb_elem_of in E. split; [by left|]. by intros [?| ->].
  - rewrite elem_of_app, list_elem_of_singleton. tauto.
Qed.

Lemma elem_of_from l x : x ∈ JSSet.from l <-> x ∈ l.
Proof.
  induction l as [|y l IH] using rev_ind.
  - done.
  - rewrite from_snoc, elem_of_add, IH, elem_of_app, list_elem_of_singleton. tauto.
Qed.

Lemma NoDup_from l : NoDup (JSSet.from l).
Proof.
  induction l as [|y l IH] using rev_ind; [constructor|].
  rewrite from_snoc. unfold JSSet.add.
  destruct (existsb (String.eqb y) (JSSet.from l)) eqn:E; [done|].
  apply NoDup_app. split; [done|]. split; [|apply NoDup_singleton].
  intros x Hx ->%list_elem_of_singleton.
  apply existsb_eqb_elem_of in Hx. congruence.
Qed.

(** The values that are not in [acc] yet are added behind it, in the order
    in which a Set started empty would hold them. *)
Lemma fold_add_from l : forall acc,
  fold_left JSSet.add l acc
  = acc ++ List.filter (fun y => negb (existsb (String.eqb y) acc)) (JSSet.from l).
Proof.
  induction l as [|x l IH] using rev_ind; intros acc.
  - simpl. by rewrite app_nil_r.
  - rewrite fold_left_app. cbn [fold_left]. rewrite IH, from_snoc.
    unfold JSSet.add.
    destruct (existsb (String.eqb x) (JSSet.from l)) eqn:E1.
    + (* [x] was met before: it is in [acc] or among the added values *)
      assert (Hx : existsb (String.eqb x)
                (acc ++ List.filter (fun y => negb (existsb (String.eqb y) acc))
                          (JSSet.from l)) = true).
      { apply existsb_eqb_elem_of, elem_of_app.
        destruct (existsb (String.eqb x) acc) eqn:E2.
        - left. by apply existsb_eqb_elem_of.
        - right. apply elem_of_List_filter. split.
          + by apply existsb_eqb_elem_of.
          + by rewrite E2. }
      by rewrite Hx.
    + rewrite List.filter_app. cbn [List.filter].
      destruct (existsb (String.eqb x) acc) eqn:E2; cbn [negb].
      * assert (Hx : existsb (String.eqb x)
                  (acc ++ List.filter (fun y => negb (existsb (String.eqb y) acc))
                            (JSSet.from l)) = true).
        { apply existsb_eqb_elem_of, elem_of_app. left.
          by apply existsb_eqb_elem_of. }
        by rewrite Hx, app_nil_r.
      * assert (Hx : existsb (String.eqb x)
                  (acc ++ List.filter (fun y => negb (existsb (String.eqb y) acc))
                            (JSSet.from l)) = false).
        { apply not_true_is_false. intros Hin%existsb_eqb_elem_of.
          apply elem_of_app in Hin as [Hin|Hin].
          - apply existsb_eqb_elem_of in Hin. congruence.
          - apply elem_of_List_filter in Hin as [Hin _].
            apply existsb_eqb_elem_of in Hin. congruence. }
        by rewrite Hx, app_assoc.
Qed.

(** The values are kept in the order of their first occurrence. *)
Lemma from_cons x l :
  JSSet.from (x :: l)
  = x :: List.filter (fun y => negb (String.eqb y x)) (JSSet.from l).
Proof.
  unfold JSSet.from at 1. cbn [fold_left]. unfold JSSet.add at 2. cbn [existsb].
  rewrite fold_add_from. cbn [app]. f_equal.
  apply List.filter_ext. intros y. cbn [existsb]. by rewrite orb_false_r.
Qed.

End SetFacts.

(** X1.  The store dropdown offers ["ALL"] and then each store of the
    snapshot once, in the order of its first record: a name is offered
    exactly when some record has it, a record adds its store in front of
    the others' and nowhere else, and the only name that can be offered
    twice is a store called ["ALL"]. *)
Theorem stores_are_the_distinct_stores (recs : list PredictionRecord) :
  head (stores recs) = Some "ALL" /\
  (forall s, s ∈ tail (stores recs) <-> exists r, r ∈ recs /\ store_id r = s) /\
  NoDup (tail (stores recs)) /\
  (NoDup (stores recs) <-> forall r, r ∈ recs -> store_id r <> "ALL") /\
  (forall r, tail (stores (r :: recs))
             = store_id r ::
               List.filter (fun s => negb (String.eqb s (store_id r))) (tail (stores recs))).
Proof.
  unfold stores. cbn [head tail].
  assert (Hin : forall s, s ∈ JSSet.from (map store_id recs)
                          <-> exists r, r ∈ recs /\ store_id r = s).
  { intros s. rewrite elem_of_from, list_elem_of_fmap.
    split; intros (r & H1 & H2); exists r; split; congruence || done. }
  split; [done|]. split; [exact Hin|]. split; [apply NoDup_from|]. split.
  - rewrite NoDup_cons. split.
    + intros [Hall _] r Hr E. apply Hall, Hin. eauto.
    + intros Hall. split; [|apply NoDup_from].
      intros (r & Hr & E)%Hin. by apply (Hall r).
  - intros r. cbn [map]. apply from_cons.
Qed.

(** X2.  The category dropdown offers ["ALL"] and then each category once:
    a name is offered exactly when some record has it as a category that is
    not the empty string; a record without a category, or with the empty
    one, adds no option. *)
Theorem categories_are_the_distinct_categories (recs : list PredictionRecord) :
  head (categories recs) = Some "ALL" /\
  (forall s, s ∈ tail (categories recs)
             <-> exists r, r ∈ recs /\ category r = Some s /\ s <> EmptyString) /\
  NoDup (tail (categories recs)) /\
  (forall r, category r = None \/ category r = Some EmptyString ->
     categories (r :: recs) = categories recs) /\
  (forall r s, category r = Some s -> s <> EmptyString ->
     tail (categories (r :: recs))
     = s :: List.filter (fun t => negb (String.eqb t s)) (tail (categories recs))).
Proof.
  unfold categories. cbn [head tail].
  assert (Hkept : forall r s, keptCategory r = Some s
                              <-> category r = Some s /\ s <> EmptyString).
  { intros r s. unfold keptCategory. destruct (category r) as [[|c t]|]; simpl.
    - split; [discriminate|intros [[= <-] ?]; done].
    - split; [intros [= <-]; done|intros [[= <-] _]; done].
    - split; [discriminate|intros [? _]; discriminate]. }
  split; [done|]. split; [|split; [apply NoDup_from|split]].
  - intros s. rewrite elem_of_from, list_elem_of_omap.
    split; intros (r & Hr & Hk); exists r; split; try done; by apply Hkept.
  - intros r [E|E]; unfold categories; cbn [omap list_omap]; unfold keptCategory at 1;
      by rewrite E.
  - intros r s E Hs. cbn [omap list_omap].
    assert (Hk : keptCategory r = Some s) by (by apply Hkept).
    rewrite Hk. apply from_cons.
Qed.

(** ** The rows of the table *)

Section RowFacts.
Context `{Host}.

Lemma filterOnly_passes c recs :
  filterOnly c recs
  = List.filter (fun r => passes by_store c r && passes by_category c r &&
                          passes by_critical c r && passes by_search c r) recs.
Proof.
  unfold filterOnly. rewrite !filterStep_passes, !filter_filter_andb.
  apply List.filter_ext. intros r. by rewrite !andb_assoc.
Qed.

Lemma elem_of_filtered c recs r :
  r ∈ filtered c recs <->
  r ∈ recs /\ passes by_store c r = true /\ passes by_category c r = true /\
  passes by_critical c r = true /\ passes by_search c r = true.
Proof.
  unfold filtered. rewrite Array_prototype_sort_elem_of, filterOnly_passes, elem_of_List_filter.
  rewrite !andb_true_iff. tauto.
Qed.

Lemma filtered_perm c recs : filtered c recs ≡ₚ filterOnly c recs.
Proof. apply Array_prototype_sort_perm. Qed.

Lemma List_filter_nil_iff {A} (p : A -> bool) (l : list A) :
  List.filter p l = [] <-> forall x, x ∈ l -> p x = false.
Proof.
  induction l as [|y l IH]; simpl.
  - split; [intros _ x Hx; by apply elem_of_nil in Hx|done].
  - destruct (p y) eqn:E.
    + split; [discriminate|]. intros Hall.
      rewrite (Hall y) in E by apply list_elem_of_here. discriminate.
    + rewrite IH. split.
      * intros Hall x [->|Hx]%elem_of_cons; auto.
      * intros Hall x Hx. apply Hall. by apply list_elem_of_further.
Qed.

Lemma filtered_nil_iff c recs : filtered c recs = [] <-> filterOnly c recs = [].
Proof.
  split; intros E.
  - apply Permutation_nil. by rewrite <- filtered_perm, E.
  - apply Permutation_nil. by rewrite filtered_perm, E.
Qed.

End RowFacts.

(** X3.  A store chosen in the dropdown restricts the table to that store:
    every row has the chosen store; a choice that is no option of the
    dropdown (left over from an earlier snapshot) empties the table; and
    with the other filters off every option shows at least one row, namely
    the records of that store. *)
Theorem store_option_selects_its_records `{Host}
    (c : Criteria) (recs : list PredictionRecord) :
  storeFilter c <> "ALL" ->
  (forall r, r ∈ filtered c recs -> store_id r = storeFilter c) /\
  (storeFilter c ∉ stores recs -> filtered c recs = []) /\
  (categoryFilter c = "ALL" -> showCriticalOnly c = false ->
   trim (search c) = EmptyString -> storeFilter c ∈ stores recs ->
   filtered c recs <> [] /\
   filtered c recs ≡ₚ List.filter (fun r => String.eqb (store_id r) (storeFilter c)) recs).
Proof.
  intros Hall.
  assert (Hact : active by_store c = true).
  { simpl. by apply negb_true_iff, String.eqb_neq. }
  assert (Hrow : forall r, r ∈ filtered c recs -> store_id r = storeFilter c).
  { intros r (_ & Hs & _)%elem_of_filtered. unfold passes in Hs.
    rewrite Hact in Hs. by apply String.eqb_eq. }
  split; [exact Hrow|]. split.
  - intros Hnot. apply filtered_nil_iff. rewrite filterOnly_passes.
    apply List_filter_nil_iff. intros r Hr.
    unfold passes at 1. rewrite Hact. cbn [implb predicate].
    unfold matchesStore.
    destruct (String.eqb_spec (store_id r) (storeFilter c)) as [E|E]; [|done].
    exfalso. apply Hnot. unfold stores. apply list_elem_of_further.
    apply elem_of_from, list_elem_of_fmap. exists r. by split.
  - intros Hcat Hcrit Hsearch Hopt.
    assert (Hperm : filtered c recs
              ≡ₚ List.filter (fun r => String.eqb (store_id r) (storeFilter c)) recs).
    { rewrite filtered_perm, filterOnly_passes.
      erewrite List.filter_ext; [reflexivity|]. intros r.
      unfold passes. rewrite Hact. cbn [active predicate implb].
      rewrite Hcat, Hcrit, Hsearch. cbn. by rewrite !andb_true_r. }
    split; [|exact Hperm].
    unfold stores in Hopt. apply elem_of_cons in Hopt as [E|Hopt]; [done|].
    apply elem_of_from, list_elem_of_fmap in Hopt as (r & E & Hr).
    intros Hnil. rewrite Hnil in Hperm.
    apply Permutation_nil in Hperm.
    assert (Hin : r ∈ List.filter (fun r => String.eqb (store_id r) (storeFilter c)) recs).
    { apply elem_of_List_filter. split; [done|]. by apply String.eqb_eq. }
    rewrite Hperm in Hin. by apply elem_of_nil in Hin.
Qed.

Lemma store_option_selects_its_records_witness :
  (forall r, r ∈ @filtered AsciiHost.host MoreSamples.delhi Samples.snapshot ->
     store_id r = storeFilter MoreSamples.delhi) /\
  (storeFilter MoreSamples.delhi ∉ stores Samples.snapshot ->
   @filtered AsciiHost.host MoreSamples.delhi Samples.snapshot = []) /\
  (categoryFilter MoreSamples.delhi = "ALL" ->
   showCriticalOnly MoreSamples.delhi = false ->
   @trim AsciiHost.host (search MoreSamples.delhi) = EmptyString ->
   storeFilter MoreSamples.delhi ∈ stores Samples.snapshot ->
   @filtered AsciiHost.host MoreSamples.delhi Samples.snapshot <> [] /\
   @filtered AsciiHost.host MoreSamples.delhi Samples.snapshot
   ≡ₚ List.filter (fun r => String.eqb (store_id r) (storeFilter MoreSamples.delhi))
        Samples.snapshot).
Proof.
  apply (@store_option_selects_its_records AsciiHost.host MoreSamples.delhi
           Samples.snapshot).
  discriminate.
Defined.

(** X4.  A click on a column header never changes which rows are shown,
    only their order: on the current sort column it flips the direction
    (so two clicks restore the criteria), on another column it selects that
    column in ascending direction, and the four filters stay as they
    were. *)
Theorem header_click_only_reorders `{Host}
    (field : SortField) (c : Criteria) (recs : list PredictionRecord) :
  (sortField c = field ->
   sortField (handleSort field c) = field /\
   sortOrder (handleSort field c) = match sortOrder c with asc => desc | desc => asc end /\
   handleSort field (handleSort field c) = c) /\
  (sortField c <> field ->
   sortField (handleSort field c) = field /\
   sortOrder (handleSort field c) = asc /\
   sortOrder (handleSort field (handleSort field c)) = desc) /\
  storeFilter (handleSort field c) = storeFilter c /\
  categoryFilter (handleSort field c) = categoryFilter c /\
  search (handleSort field c) = search c /\
  showCriticalOnly (handleSort field c) = showCriticalOnly c /\
  filterOnly (handleSort field c) recs = filterOnly c recs /\
  filtered (handleSort field c) recs ≡ₚ filtered c recs.
Proof.
  assert (Hfilters : storeFilter (handleSort field c) = storeFilter c /\
                     categoryFilter (handleSort field c) = categoryFilter c /\
                     search (handleSort field c) = search c /\
                     showCriticalOnly (handleSort field c) = showCriticalOnly c).
  { destruct c as [sf cf se sc f o]. by destruct field, f. }
  assert (Hsame : filterOnly (handleSort field c) recs = filterOnly c recs).
  { destruct Hfilters as (E1 & E2 & E3 & E4).
    unfold filterOnly, filterStep, active, predicate, matchesStore, matchesCategory,
      matchesSearch, term.
    by rewrite E1, E2, E3, E4. }
  split; [|split].
  - intros <-. destruct c as [sf cf se sc f o]. by destruct f, o.
  - intros Hne. destruct c as [sf cf se sc f o]. simpl in Hne.
    by destruct field, f.
  - destruct Hfilters as (E1 & E2 & E3 & E4).
    do 5 (split; [done|]).
    by rewrite !filtered_perm, Hsame.
Qed.

(** X5.  The rows of the table are records of the snapshot, each at most as
    often as the snapshot has it, and the filters keep the records in the
    order of the snapshot.  With no filter active the table holds the whole
    snapshot; with only "Critical Only" active it has as many rows as the
    Critical card counts. *)
Theorem rows_come_from_the_snapshot `{Host}
    (c : Criteria) (recs : list PredictionRecord) :
  (forall r, r ∈ filtered c recs -> r ∈ recs) /\
  sublist (filterOnly c recs) recs /\
  filtered c recs ⊆+ recs /\
  (length (filtered c recs) <= length recs)%nat /\
  ((forall k, active k c = false) -> filtered c recs ≡ₚ recs) /\
  ((forall k, active k c = match k with by_critical => true | _ => false end) ->
   filtered c recs ≡ₚ List.filter isCritical recs /\
   length (filtered c recs) = countCritical recs).
Proof.
  assert (Hsub : sublist (filterOnly c recs) recs).
  { rewrite filterOnly_passes. generalize (fun r => passes by_store c r &&
      passes by_category c r && passes by_critical c r && passes by_search c r).
    intros p. induction recs as [|r l IH]; simpl; [done|].
    destruct (p r); by constructor. }
  assert (Hms : filtered c recs ⊆+ recs).
  { rewrite filtered_perm. by apply sublist_submseteq. }
  split; [|split; [exact Hsub|split; [exact Hms|split; [|split]]]].
  - intros r Hr. by apply elem_of_filtered in Hr as [? _].
  - by apply submseteq_length.
  - intros Hoff. rewrite filtered_perm, filterOnly_passes.
    rewrite filter_true; [done|]. intros r. unfold passes. by rewrite !Hoff.
  - intros Honly.
    assert (Hperm : filtered c recs ≡ₚ List.filter isCritical recs).
    { rewrite filtered_perm, filterOnly_passes.
      erewrite List.filter_ext; [reflexivity|]. intros r. unfold passes.
      rewrite (Honly by_store), (Honly by_category), (Honly by_critical),
        (Honly by_search).
      cbn [implb andb predicate]. by rewrite andb_true_r. }
    split; [exact Hperm|]. unfold countCritical. by rewrite Hperm.
Qed.

(** ** The Top Critical list *)

Section TopFacts.

Lemma byDaysDescending_consistent (l : list PredictionRecord) :
  (forall r, r ∈ l -> JSNumber.is_nan (ToNumber (days_to_stockout r)) = false) ->
  consistent_on byDaysDescending l.
Proof.
  intros Hn. unfold consistent_on, JSArray.SortCompare, byDaysDescending. split.
  - intros a b Ha Hb. apply sign_sub_antisym; auto.
  - intros a b c Ha Hb Hc H1 H2.
    apply (sign_sub_trans _ _ _ (Hn _ Hc) (Hn _ Hb) (Hn _ Ha) H2 H1).
Qed.

Lemma take_drop_sorted_by {A} (comparefn : A -> A -> number) (l : list A) n a b :
  sorted_by comparefn l -> a ∈ take n l -> b ∈ drop n l ->
  JSArray.SortCompare comparefn a b <> Gt.
Proof.
  intros Hs Ha Hb.
  apply list_elem_of_lookup in Ha as [i Hi].
  apply list_elem_of_lookup in Hb as [j Hj].
  rewrite lookup_drop in Hj.
  pose proof (lookup_lt_Some _ _ _ Hi) as Hlen. rewrite length_take in Hlen.
  rewrite lookup_take_lt in Hi by lia.
  apply (Hs i (n + j)%nat a b); [lia|done..].
Qed.

End TopFacts.

(** X6.  The Top Critical list holds Critical records of the snapshot
    only, as many as there are up to five, none more often than the
    snapshot has it.  When every Critical record has a days-to-stockout
    other than NaN, the list runs from the largest days-to-stockout down,
    and no Critical record left out has more days than one that is shown:
    the five shown are those with the MOST days to stockout. *)
Theorem topCritical_shows_the_largest_days `{Host} (recs : list PredictionRecord) :
  length (topCritical recs) = (5 `min` countCritical recs)%nat /\
  (forall r, r ∈ topCritical recs -> r ∈ recs /\ isCritical r = true) /\
  topCritical recs ⊆+ recs /\
  ((forall r, r ∈ recs -> isCritical r = true ->
      JSNumber.is_nan (ToNumber (days_to_stockout r)) = false) ->
   (forall i j a b, (i < j)%nat ->
      topCritical recs !! i = Some a -> topCritical recs !! j = Some b ->
      ~ JSNumber.lt (ToNumber (days_to_stockout a)) (ToNumber (days_to_stockout b))) /\
   (exists rest,
      topCritical recs ++ rest ≡ₚ List.filter isCritical recs /\
      forall a b, a ∈ topCritical recs -> b ∈ rest ->
        ~ JSNumber.lt (ToNumber (days_to_stockout a)) (ToNumber (days_to_stockout b)))).
Proof.
  unfold topCritical.
  set (crit := List.filter isCritical recs).
  set (sorted := Array_prototype_sort byDaysDescending crit).
  assert (Hcrit : forall r, r ∈ crit -> r ∈ recs /\ isCritical r = true).
  { intros r Hr. by apply elem_of_List_filter in Hr. }
  assert (Hin : forall r, r ∈ sorted -> r ∈ crit).
  { intros r. unfold sorted. by rewrite Array_prototype_sort_elem_of. }
  split; [|split; [|split]].
  - rewrite length_take. unfold sorted. rewrite Array_prototype_sort_length.
    unfold countCritical. done.
  - intros r Hr. apply Hcrit, Hin. eapply elem_of_sublist; [exact Hr|apply sublist_take].
  - transitivity sorted.
    { apply sublist_submseteq, sublist_take. }
    unfold sorted. rewrite Array_prototype_sort_perm. apply sublist_submseteq.
    unfold crit. clear. induction recs as [|r l IH]; simpl; [done|].
    destruct (isCritical r); by constructor.
  - intros Hdays.
    assert (Hn : forall r, r ∈ crit ->
              JSNumber.is_nan (ToNumber (days_to_stockout r)) = false).
    { intros r Hr. destruct (Hcrit r Hr). auto. }
    pose proof (Array_prototype_sort_sorted byDaysDescending crit
                  (byDaysDescending_consistent crit Hn)) as Hsorted.
    fold sorted in Hsorted.
    assert (Hle : forall a b, a ∈ crit -> b ∈ crit ->
              JSArray.SortCompare byDaysDescending a b <> Gt ->
              ~ JSNumber.lt (ToNumber (days_to_stockout a))
                            (ToNumber (days_to_stockout b))).
    { intros a b Ha Hb Hc Hlt. apply Hc. unfold JSArray.SortCompare, byDaysDescending.
      apply sign_sub_Gt; auto. }
    split.
    + intros i j a b Hij Hi Hj.
      pose proof (lookup_lt_Some _ _ _ Hi) as Hli.
      pose proof (lookup_lt_Some _ _ _ Hj) as Hlj.
      rewrite length_take in Hli, Hlj.
      rewrite lookup_take_lt in Hi, Hj by lia.
      apply Hle.
      * apply Hin. eapply list_elem_of_lookup_2; eauto.
      * apply Hin. eapply list_elem_of_lookup_2; eauto.
      * by apply (Hsorted i j).
    + exists (drop 5 sorted). split.
      * rewrite take_drop. apply Array_prototype_sort_perm.
      * intros a b Ha Hb. apply Hle.
        -- apply Hin. eapply elem_of_sublist; [exact Ha|apply sublist_take].
        -- apply Hin. eapply elem_of_sublist; [exact Hb|apply sublist_drop].
        -- by apply (take_drop_sorted_by byDaysDescending sorted 5).
Qed.

Lemma topCritical_shows_the_largest_days_witness :
  exists rest,
    @topCritical AsciiHost.host Samples.snapshot ++ rest
    ≡ₚ List.filter isCritical Samples.snapshot /\
    forall a b, a ∈ @topCritical AsciiHost.host Samples.snapshot -> b ∈ rest ->
      ~ JSNumber.lt (ToNumber (days_to_stockout a)) (ToNumber (days_to_stockout b)).
Proof.
  apply (@topCritical_shows_the_largest_days AsciiHost.host Samples.snapshot).
  intros r Hr _. apply list_elem_of_In in Hr. simpl in Hr.
  repeat (destruct Hr as [<-|Hr]; [reflexivity|]). destruct Hr.
Defined.

(** ** The bars of the chart *)

Section ChartFacts.
Context `{Host}.
Import JSObject.

Lemma keys_bump_add cs k : map fst (bump cs k) = JSSet.add (map fst cs) k.
Proof.
  unfold JSSet.add. induction cs as [|[k' n] cs IH]; [done|].
  cbn [bump map fst existsb]. rewrite (String.eqb_sym k k').
  destruct (String.eqb k' k); cbn [orb map fst]; [done|].
  rewrite IH. by destruct (existsb (String.eqb k) (map fst cs)).
Qed.

(** On store names that [Object.prototype] does not have, the mapping has
    its keys in the order in which the stores first show a Critical
    record. *)
Lemma criticalByStore_creation_order recs :
  (forall r, r ∈ recs -> isCritical r = true -> inherited (store_id r) = false) ->
  map fst (criticalByStore recs)
  = JSSet.from (map store_id (List.filter isCritical recs)).
Proof.
  intros Hplain.
  enough (exists cs : counters,
            criticalByStore recs = counters_object cs /\
            Forall (fun e => 0 < snd e) cs /\
            map fst cs = JSSet.from (map store_id (List.filter isCritical recs)))
    as (cs & -> & _ & <-) by apply keys_counters.
  induction recs as [|r recs IH] using rev_ind.
  - exists []. repeat split; constructor.
  - destruct IH as (cs & Hobj & Hpos & Hkeys).
    { intros r' Hr'. apply Hplain, elem_of_app. by left. }
    unfold criticalByStore in *. rewrite fold_left_app. cbn [fold_left].
    rewrite Hobj, List.filter_app. cbn [List.filter].
    destruct (isCritical r) eqn:Hc.
    + assert (Hin : inherited (store_id r) = false).
      { apply Hplain; [|done]. apply elem_of_app. right. apply list_elem_of_here. }
      exists (bump cs (store_id r)).
      split; [by apply countByStore_counters|].
      split; [by apply bump_positive|].
      rewrite List.map_app. cbn [map].
      by rewrite from_snoc, keys_bump_add, Hkeys.
    + exists cs. unfold countByStore. rewrite Hc, app_nil_r. done.
Qed.

Lemma List_filter_all {A} (p : A -> bool) (l : list A) :
  (forall x, x ∈ l -> p x = true) -> List.filter p l = l.
Proof.
  induction l as [|x l IH]; simpl; intros Hp; [done|].
  rewrite Hp by apply list_elem_of_here. f_equal. apply IH.
  intros y Hy. by apply Hp, list_elem_of_further.
Qed.

Lemma entries_creation_order (o : object) :
  (forall s, s ∈ map fst o -> is_array_index s = false) -> entries o = o.
Proof.
  intros Hno. unfold entries.
  assert (E1 : List.filter (fun e => is_array_index (fst e)) o = []).
  { apply List_filter_nil_iff. intros e He. apply Hno, list_elem_of_fmap. by exists e. }
  assert (E2 : List.filter (fun e => negb (is_array_index (fst e))) o = o).
  { apply List_filter_all. intros e He.
    rewrite Hno; [done|]. apply list_elem_of_fmap. by exists e. }
  by rewrite E1, E2.
Qed.

Lemma from_nil_iff (l : list string) : JSSet.from l = [] <-> l = [].
Proof.
  split; [|by intros ->]. destruct l as [|x l]; [done|].
  intros E. assert (Hx : x ∈ JSSet.from (x :: l)).
  { apply elem_of_from, list_elem_of_here. }
  rewrite E in Hx. by apply elem_of_nil in Hx.
Qed.

End ChartFacts.

(** X7.  Which bars the "Critical by store" chart shows, for store names
    that [Object.prototype] does not have.  The chart shows "No data"
    exactly when the snapshot has no Critical record; otherwise it has one
    bar per store with a Critical record, up to six.  When no such store is
    named like an array index, the bars are in the order in which the
    stores first show a Critical record in the snapshot, and the cap keeps
    the first six of them: a seventh store is left out however many
    Critical records it has. *)
Theorem chart_shows_the_first_six_stores `{Host} (recs : list PredictionRecord) :
  (forall r, r ∈ recs -> isCritical r = true ->
     JSObject.inherited (store_id r) = false) ->
  (BarChart (criticalByStore recs) = None <-> countCritical recs = 0%nat) /\
  (forall shown, BarChart (criticalByStore recs) = Some shown ->
     length shown
     = (6 `min` length (JSSet.from (map store_id (List.filter isCritical recs))))%nat) /\
  ((forall r, r ∈ recs -> isCritical r = true ->
      JSObject.is_array_index (store_id r) = false) ->
   forall shown, BarChart (criticalByStore recs) = Some shown ->
     map fst shown
     = take 6 (JSSet.from (map store_id (List.filter isCritical recs)))).
Proof.
  intros Hplain.
  pose proof (criticalByStore_creation_order recs Hplain) as Hkeys.
  assert (Hlen : length (JSObject.keys (criticalByStore recs))
                 = length (JSSet.from (map store_id (List.filter isCritical recs)))).
  { unfold JSObject.keys. rewrite length_map, entries_perm, <- Hkeys.
    by rewrite length_map. }
  split; [|split].
  - unfold BarChart. rewrite Hlen.
    destruct (JSSet.from (map store_id (List.filter isCritical recs))) as [|s l] eqn:E.
    + apply from_nil_iff, map_eq_nil in E. unfold countCritical. rewrite E. done.
    + cbn. split; [discriminate|]. intros E0. exfalso.
      unfold countCritical in E0. apply length_zero_iff_nil in E0.
      rewrite E0 in E. discriminate.
  - intros shown. unfold BarChart.
    destruct (Nat.eqb (length (JSObject.keys (criticalByStore recs))) 0);
      [discriminate|].
    intros [= <-]. rewrite length_take, <- Hlen. unfold JSObject.keys.
    by rewrite length_map.
  - intros Hnoindex shown. unfold BarChart.
    destruct (Nat.eqb (length (JSObject.keys (criticalByStore recs))) 0);
      [discriminate|].
    intros [= <-]. rewrite entries_creation_order.
    + by rewrite <- Hkeys, <- fmap_take.
    + intros s. rewrite Hkeys, elem_of_from.
      intros (r & -> & Hr)%list_elem_of_fmap.
      apply elem_of_List_filter in Hr as [Hr Hc]. by apply Hnoindex.
Qed.

Lemma chart_shows_the_first_six_stores_witness :
  BarChart (@criticalByStore AsciiHost.host Samples.snapshot) = None
  <-> countCritical Samples.snapshot = 0%nat.
Proof.
  apply (@chart_shows_the_first_six_stores AsciiHost.host Samples.snapshot).
  intros r Hr _. apply list_elem_of_In in Hr. simpl in Hr.
  repeat (destruct Hr as [<-|Hr]; [reflexivity|]). destruct Hr.
Defined.

(** ** Runs of the fetch callback *)

Section FetchInvariants.
Context `{Host}.
Import Fetch FetchRun.

Lemma is_aborted_set_phase s rs id p j :
  requests s = set_phase id p rs ->
  is_aborted s j = match rs !! j with Some r => aborted r | None => false end.
Proof.
  intros E. unfold is_aborted. rewrite E, set_phase_lookup.
  case_decide; [|done]. by destruct (rs !! j).
Qed.

Lemma phase_of_set_phase s rs id p j :
  requests s = set_phase id p rs ->
  phase_of s j
  = match rs !! j with
    | Some r => if decide (id = j) then p else phase r
    | None => finished
    end.
Proof.
  intros E. unfold phase_of. rewrite E, set_phase_lookup.
  case_decide; by destruct (rs !! j).
Qed.

(** What the settlement of a promise of the request [id] does: nothing
    when the request does not await it; nothing visible when the request
    was aborted; otherwise it ends the request and stops the spinner, or
    moves the request from the first [await] to the second. *)
Lemma settle_cases s e id :
  request_of e = Some id ->
  step s e = s \/
  (is_aborted s id = true /\ visible (step s e) = visible s /\
   abortControllerRef (step s e) = abortControllerRef s /\
   requests (step s e) = set_phase id finished (requests s)) \/
  (is_aborted s id = false /\ phase_of s id <> finished /\
   abortControllerRef (step s e) = abortControllerRef s /\
   ((loading (step s e) = false /\
     requests (step s e) = set_phase id finished (requests s)) \/
    (visible (step s e) = visible s /\
     requests (step s e) = set_phase id awaitingJson (requests s)))).
Proof.
  destruct e as [|i o|i o|]; simpl; try discriminate; intros [= ->].
  - destruct (phase_of s id) eqn:Ep; try by left. right.
    unfold afterFetch. destruct (is_aborted s id) eqn:Ea.
    + left. by rewrite catch_AbortError.
    + right. split; [done|]. split; [done|].
      destruct o as [m|[|] status]; cbn; auto.
  - destruct (phase_of s id) eqn:Ep; try by left. right.
    unfold afterJson. destruct (is_aborted s id) eqn:Ea.
    + left. by rewrite catch_AbortError.
    + right. split; [done|]. split; [done|].
      destruct o as [m|d]; cbn; auto.
Qed.

Lemma one_live_initial : one_live initial.
Proof. split; [intros id r Hid; by destruct id|discriminate]. Qed.

Lemma one_live_set_phase s s' id p :
  abortControllerRef s' = abortControllerRef s ->
  requests s' = set_phase id p (requests s) ->
  one_live s -> one_live s'.
Proof.
  intros Eref Ereq [Hlive Hlt]. split.
  - intros j r. rewrite Eref, Ereq, set_phase_lookup.
    case_decide; [|by apply Hlive]. subst j.
    destruct (requests s !! id) as [r0|] eqn:E0; [|discriminate].
    intros [= <-] Hne. cbn. by apply (Hlive id).
  - intros c. rewrite Eref, Ereq. unfold set_phase. rewrite length_alter. apply Hlt.
Qed.

Lemma one_live_step s e : one_live s -> one_live (step s e).
Proof.
  intros Hone. pose proof Hone as [Hlive Hlt].
  destruct e as [|id o|id o|].
  - cbn [step]. unfold start.
    set (rs := match abortControllerRef s with
               | Some c => abort c (requests s) | None => requests s end).
    assert (Hlen : length rs = length (requests s)).
    { unfold rs. destruct (abortControllerRef s); [|done].
      unfold abort. by rewrite length_alter. }
    split; cbn [requests abortControllerRef].
    + intros j r Hj Hne.
      destruct (decide (j < length rs)%nat) as [Hlt'|Hge].
      * rewrite lookup_app_l in Hj by done. unfold rs in Hj.
        destruct (abortControllerRef s) as [c|] eqn:Ec.
        -- rewrite abort_lookup in Hj. case_decide.
           ++ destruct (requests s !! j); [|discriminate]. by injection Hj as <-.
           ++ apply (Hlive j r Hj). congruence.
        -- by apply (Hlive j r Hj).
      * apply lookup_lt_Some in Hj as Hj'. rewrite length_app in Hj'. simpl in Hj'.
        exfalso. apply Hne. f_equal. lia.
    + intros c [= <-]. rewrite length_app. simpl. lia.
  - destruct (settle_cases s (fetchSettles id o) id eq_refl)
      as [->|[(_ & _ & Er & Eq)|(_ & _ & Er & [[_ Eq]|[_ Eq]])]];
      [done|by eapply one_live_set_phase..].
  - destruct (settle_cases s (jsonSettles id o) id eq_refl)
      as [->|[(_ & _ & Er & Eq)|(_ & _ & Er & [[_ Eq]|[_ Eq]])]];
      [done|by eapply one_live_set_phase..].
  - cbn [step]. unfold cleanup.
    destruct (abortControllerRef s) as [c|] eqn:Ec; [|done].
    split; cbn [requests abortControllerRef].
    + intros j r. rewrite abort_lookup. case_decide.
      * destruct (requests s !! j); [|discriminate]. by intros [= <-].
      * intros Hj Hne. apply (Hlive j r Hj). congruence.
    + intros c' [= <-]. unfold abort. rewrite length_alter. by apply Hlt.
Qed.

Lemma one_live_run es : forall s, one_live s -> one_live (run s es).
Proof.
  induction es as [|e es IH]; intros s Hs; [done|].
  simpl. by apply IH, one_live_step.
Qed.

(** A request that is not aborted and has not finished is the one of the
    ref. *)
Lemma live_is_current s id :
  one_live s -> is_aborted s id = false -> phase_of s id <> finished ->
  abortControllerRef s = Some id.
Proof.
  intros [Hlive _] Ha Hp. unfold is_aborted, phase_of in *.
  destruct (requests s !! id) as [r|] eqn:E; [|done].
  destruct (decide (abortControllerRef s = Some id)) as [|Hne]; [done|].
  rewrite (Hlive id r E Hne) in Ha. discriminate.
Qed.

Lemma spinner_initial : spinner_tracks_request initial.
Proof.
  split; [discriminate|]. split; [discriminate|]. by intros (c & [=] & _).
Qed.

Lemma spinner_step s e :
  is_unmount e = false -> one_live s ->
  spinner_tracks_request s -> spinner_tracks_request (step s e).
Proof.
  intros Hun Hone [Hcur Hspin].
  assert (Hsettle : forall id, request_of e = Some id ->
            spinner_tracks_request (step s e)).
  { intros id He.
    destruct (settle_cases s e id He)
      as [->|[(Ha & Ev & Er & Eq)|(Ha & Hp & Er & Hcase)]]; [done|..].
    - (* an aborted request: not the one of the ref *)
      assert (Hloading : loading (step s e) = loading s).
      { unfold visible in Ev. congruence. }
      split.
      + intros c. rewrite Er, (is_aborted_set_phase _ _ _ _ c Eq).
        intros Hc. by apply Hcur in Hc.
      + rewrite Hloading, Hspin, Er.
        assert (Hsame : forall c, abortControllerRef s = Some c ->
                  outstanding (step s e) c = outstanding s c).
        { intros c Hc. unfold outstanding.
          rewrite (phase_of_set_phase _ _ _ _ c Eq). unfold phase_of.
          destruct (requests s !! c) as [r|] eqn:Erc; [|done].
          case_decide; [|done]. subst c. apply Hcur in Hc. congruence. }
        split; intros (c & Hc & Ho); exists c; (split; [done|]).
        * by rewrite Hsame.
        * by rewrite <- Hsame.
    - (* the request of the ref *)
      pose proof (live_is_current s id Hone Ha Hp) as Href.
      assert (Hab : forall c, abortControllerRef (step s e) = Some c ->
                is_aborted (step s e) c = false).
      { intros c. rewrite Er. intros Hc.
        destruct Hcase as [[_ Eq]|[_ Eq]];
          rewrite (is_aborted_set_phase _ _ _ _ c Eq); by apply Hcur in Hc. }
      split; [exact Hab|].
      unfold phase_of in Hp.
      destruct (requests s !! id) as [r|] eqn:Erid; [|done].
      destruct Hcase as [[El Eq]|[Ev Eq]].
      + rewrite El. split; [discriminate|].
        intros (c & Hc & Ho). rewrite Er, Href in Hc. injection Hc as <-.
        unfold outstanding in Ho. rewrite (phase_of_set_phase _ _ _ _ id Eq) in Ho.
        rewrite Erid in Ho. by rewrite decide_True in Ho.
      + assert (Hloading : loading (step s e) = loading s).
        { unfold visible in Ev. congruence. }
        assert (Hon : loading s = true).
        { apply Hspin. exists id. split; [done|]. unfold outstanding, phase_of.
          rewrite Erid. by destruct (phase r). }
        rewrite Hloading, Hon. split; [|done]. intros _. exists id.
        rewrite Er. split; [done|]. unfold outstanding.
        rewrite (phase_of_set_phase _ _ _ _ id Eq), Erid. by rewrite decide_True. }
  destruct e as [|id o|id o|]; [|by apply (Hsettle id)..|discriminate].
  clear Hsettle. cbn [step]. unfold start.
  set (rs := match abortControllerRef s with
             | Some c => abort c (requests s) | None => requests s end).
  assert (Hnew : (rs ++ [{| aborted := false; phase := awaitingFetch |}]) !! length rs
                 = Some {| aborted := false; phase := awaitingFetch |}).
  { rewrite lookup_app_r by lia. by rewrite Nat.sub_diag. }
  split; cbn [abortControllerRef loading].
  - intros c [= <-]. unfold is_aborted. cbn [requests]. by rewrite Hnew.
  - split; [|done]. intros _. exists (length rs). split; [done|].
    unfold outstanding, phase_of. cbn [requests]. by rewrite Hnew.
Qed.

Lemma spinner_run es : forall s,
  forallb (fun e => negb (is_unmount e)) es = true ->
  one_live s -> spinner_tracks_request s ->
  spinner_tracks_request (run s es).
Proof.
  induction es as [|e es IH]; intros s Hes Hone Hsp; [done|].
  simpl in Hes. apply andb_true_iff in Hes as [He Hes].
  apply negb_true_iff in He. simpl.
  apply IH; [done|by apply one_live_step|by apply spinner_step].
Qed.

(** Once every controller is aborted, no settlement changes what the
    operator sees, and every controller stays aborted. *)
Lemma all_aborted_step s e :
  is_call e = false -> all_aborted s ->
  visible (step s e) = visible s /\ all_aborted (step s e).
Proof.
  intros Hcall Hall.
  assert (Hsettle : forall id, request_of e = Some id ->
            visible (step s e) = visible s /\ all_aborted (step s e)).
  { intros id He.
    destruct (settle_cases s e id He)
      as [->|[(Ha & Ev & Er & Eq)|(Ha & Hp & _)]]; [done|..].
    - split; [done|]. intros j r. rewrite Eq, set_phase_lookup.
      case_decide; [|by apply Hall].
      destruct (requests s !! j) as [r0|] eqn:E0; [|discriminate].
      intros [= <-]. cbn. by apply (Hall j).
    - exfalso. unfold is_aborted, phase_of in *.
      destruct (requests s !! id) as [r|] eqn:E; [|done].
      rewrite (Hall id r E) in Ha. discriminate. }
  destruct e as [|id o|id o|]; [discriminate|by apply (Hsettle id)..|].
  cbn [step]. unfold cleanup. destruct (abortControllerRef s) as [c|]; [|done].
  split; [done|]. intros j r. cbn [requests]. rewrite abort_lookup.
  case_decide; [|by apply Hall].
  destruct (requests s !! j); [|discriminate]. by intros [= <-].
Qed.

Lemma all_aborted_run es : forall s,
  forallb (fun e => negb (is_call e)) es = true -> all_aborted s ->
  visible (run s es) = visible s.
Proof.
  induction es as [|e es IH]; intros s Hes Hall; [done|].
  simpl in Hes. apply andb_true_iff in Hes as [He Hes].
  apply negb_true_iff in He. simpl.
  destruct (all_aborted_step s e He Hall) as [Ev Hall'].
  by rewrite IH.
Qed.

Lemma all_aborted_cleanup s : one_live s -> all_aborted (step s unmount).
Proof.
  intros [Hlive _]. cbn [step]. unfold cleanup.
  destruct (abortControllerRef s) as [c|] eqn:Ec.
  - intros j r. cbn [requests]. rewrite abort_lookup. case_decide.
    + destruct (requests s !! j); [|discriminate]. by intros [= <-].
    + intros Hj. apply (Hlive j r Hj). congruence.
  - intros j r Hj. apply (Hlive j r Hj). congruence.
Qed.

Lemma run_app s es1 es2 : run s (es1 ++ es2) = run (run s es1) es2.
Proof. unfold run. apply fold_left_app. Qed.

End FetchInvariants.

Section FetchLive.
Context `{Host}.
Import Fetch FetchRun.

(** The first [await] of a request that was not aborted: it ends the
    request with the spinner off, or hands over to the second [await]. *)
Lemma settle_fetch_live s id o :
  phase_of s id = awaitingFetch -> is_aborted s id = false ->
  (loading (step s (fetchSettles id o)) = false /\
   phase_of (step s (fetchSettles id o)) id = finished) \/
  (phase_of (step s (fetchSettles id o)) id = awaitingJson /\
   is_aborted (step s (fetchSettles id o)) id = false).
Proof.
  intros Hp Ha. cbn [step]. rewrite Hp. unfold afterFetch. rewrite Ha.
  unfold phase_of in Hp. unfold is_aborted in Ha.
  destruct (requests s !! id) as [r|] eqn:Er; [|discriminate].
  destruct o as [m|[|] status]; cbn.
  - left. split; [done|]. unfold phase_of. cbn [requests].
    by rewrite set_phase_lookup, decide_True, Er.
  - right. unfold phase_of, is_aborted. cbn [requests].
    by rewrite set_phase_lookup, decide_True, Er.
  - left. split; [done|]. unfold phase_of. cbn [requests].
    by rewrite set_phase_lookup, decide_True, Er.
Qed.

(** The second [await] of a request that was not aborted ends it with the
    spinner off. *)
Lemma settle_json_live s id o :
  phase_of s id = awaitingJson -> is_aborted s id = false ->
  loading (step s (jsonSettles id o)) = false.
Proof.
  intros Hp Ha. cbn [step]. rewrite Hp. unfold afterJson. rewrite Ha.
  by destruct o.
Qed.

(** The invariant behind the error box: it is never up while the spinner
    is on. *)
Lemma error_stops_spinner_step s e :
  (error s <> None -> loading s = false) ->
  error (step s e) <> None -> loading (step s e) = false.
Proof.
  intros Hinv.
  assert (Hsame : visible (step s e) = visible s ->
            error (step s e) <> None -> loading (step s e) = false).
  { unfold visible. intros [= _ _ -> ->]. exact Hinv. }
  assert (Hsettle : forall id, request_of e = Some id ->
            error (step s e) <> None -> loading (step s e) = false).
  { intros id He.
    destruct (settle_cases s e id He)
      as [->|[(_ & Ev & _)|(_ & _ & _ & [[El _]|[Ev _]])]]; auto. }
  destruct e as [|id o|id o|]; [done|by apply (Hsettle id)..|].
  apply Hsame. cbn [step]. unfold cleanup. by destruct (abortControllerRef s).
Qed.

End FetchLive.

(** X8.  At every point of every run of the component, an event that
    changes what the operator sees (records, last update, spinner or error
    box) is a call of [fetchData] or the settlement of a promise of the one
    request the ref holds, which is then neither aborted nor finished: no
    other request, however many were started, ever updates the page.  The
    records and the time of the last update change only with the parsed
    body of that request. *)
Theorem only_the_current_request_updates_the_page `{Host}
    (es : list Fetch.Event) (e : Fetch.Event) :
  Fetch.visible (Fetch.step (Fetch.run Fetch.initial es) e)
  <> Fetch.visible (Fetch.run Fetch.initial es) ->
  e = Fetch.call \/
  exists id,
    Fetch.request_of e = Some id /\
    Fetch.abortControllerRef (Fetch.run Fetch.initial es) = Some id /\
    Fetch.is_aborted (Fetch.run Fetch.initial es) id = false /\
    Fetch.outstanding (Fetch.run Fetch.initial es) id = true /\
    FetchRun.awaited (Fetch.run Fetch.initial es) e /\
    ((Fetch.records (Fetch.step (Fetch.run Fetch.initial es) e)
      = Fetch.records (Fetch.run Fetch.initial es) /\
      Fetch.lastUpdated (Fetch.step (Fetch.run Fetch.initial es) e)
      = Fetch.lastUpdated (Fetch.run Fetch.initial es)) \/
     exists d, e = Fetch.jsonSettles id (Fetch.jsonData d) /\
       Fetch.records (Fetch.step (Fetch.run Fetch.initial es) e) = Fetch.recs_of d /\
       Fetch.lastUpdated (Fetch.step (Fetch.run Fetch.initial es) e)
       = Fetch.lastUpdated_of d).
Proof.
  pose proof (one_live_run es Fetch.initial one_live_initial) as Hone.
  set (s := Fetch.run Fetch.initial es) in *. intros Hchg.
  assert (Hsettle : forall id, Fetch.request_of e = Some id ->
            Fetch.abortControllerRef s = Some id /\
            Fetch.is_aborted s id = false /\ Fetch.outstanding s id = true).
  { intros id He.
    destruct (settle_cases s e id He) as [E|[(_ & Ev & _)|(Ha & Hp & _)]].
    - by rewrite E in Hchg.
    - done.
    - split; [by apply live_is_current|]. split; [done|].
      unfold Fetch.outstanding. by destruct (Fetch.phase_of s id). }
  destruct e as [|id o|id o|].
  - by left.
  - right. exists id. destruct (Hsettle id eq_refl) as (Href & Ha & Ho).
    repeat (split; [done|]). split.
    + cbn. cbn [Fetch.step] in Hchg.
      by destruct (Fetch.phase_of s id).
    + left. cbn [Fetch.step] in *.
      destruct (Fetch.phase_of s id); try done.
      unfold Fetch.afterFetch. rewrite Ha. by destruct o as [m|[|] status].
  - right. exists id. destruct (Hsettle id eq_refl) as (Href & Ha & Ho).
    repeat (split; [done|]). split.
    + cbn. cbn [Fetch.step] in Hchg.
      by destruct (Fetch.phase_of s id).
    + cbn [Fetch.step] in *.
      destruct (Fetch.phase_of s id); try (by left).
      unfold Fetch.afterJson. rewrite Ha. destruct o as [m|d]; [by left|].
      right. by exists d.
  - exfalso. apply Hchg. cbn [Fetch.step]. unfold Fetch.cleanup.
    by destruct (Fetch.abortControllerRef s).
Qed.

Lemma only_the_current_request_updates_the_page_witness :
  Fetch.fetchSettles 0 (Fetch.fetchRejected "Failed to fetch") = Fetch.call \/
  exists id,
    Fetch.request_of (Fetch.fetchSettles 0 (Fetch.fetchRejected "Failed to fetch"))
    = Some id /\
    Fetch.abortControllerRef (@Fetch.run AsciiHost.host Fetch.initial [Fetch.call])
    = Some id /\
    Fetch.is_aborted (@Fetch.run AsciiHost.host Fetch.initial [Fetch.call]) id = false /\
    Fetch.outstanding (@Fetch.run AsciiHost.host Fetch.initial [Fetch.call]) id = true.
Proof.
  destruct (@only_the_current_request_updates_the_page AsciiHost.host
              [Fetch.call] (Fetch.fetchSettles 0 (Fetch.fetchRejected "Failed to fetch")))
    as [E|(id & H1 & H2 & H3 & H4 & _)].
  - vm_compute. discriminate.
  - by left.
  - right. by exists id.
Defined.

(** X9.  In a run without unmount the spinner is on exactly while the
    request of the ref is outstanding, and that request is never an aborted
    one; so the spinner cannot stay on: however the two promises of that
    request settle, the spinner is off afterwards. *)
Theorem spinner_follows_the_current_request `{Host} (es : list Fetch.Event) :
  forallb (fun e => negb (FetchRun.is_unmount e)) es = true ->
  FetchRun.spinner_tracks_request (Fetch.run Fetch.initial es) /\
  (forall c o1 o2,
     Fetch.abortControllerRef (Fetch.run Fetch.initial es) = Some c ->
     Fetch.loading
       (Fetch.run (Fetch.run Fetch.initial es)
          [Fetch.fetchSettles c o1; Fetch.jsonSettles c o2]) = false).
Proof.
  intros Hes.
  pose proof (spinner_run es Fetch.initial Hes one_live_initial spinner_initial)
    as Hsp.
  set (s := Fetch.run Fetch.initial es) in *.
  split; [exact Hsp|]. destruct Hsp as [Hcur Hspin].
  intros c o1 o2 Href. pose proof (Hcur c Href) as Ha.
  cbn [Fetch.run fold_left].
  destruct (Fetch.phase_of s c) eqn:Ep.
  - destruct (settle_fetch_live s c o1 Ep Ha) as [[El Ef]|[Ej Ha']].
    + revert El Ef. generalize (Fetch.step s (Fetch.fetchSettles c o1)).
      intros s1 El Ef. cbn [Fetch.step]. by rewrite Ef.
    + by apply settle_json_live.
  - assert (E1 : Fetch.step s (Fetch.fetchSettles c o1) = s).
    { cbn [Fetch.step]. by rewrite Ep. }
    rewrite E1. by apply settle_json_live.
  - assert (E1 : Fetch.step s (Fetch.fetchSettles c o1) = s).
    { cbn [Fetch.step]. by rewrite Ep. }
    rewrite E1. cbn [Fetch.step]. rewrite Ep.
    destruct (Fetch.loading s) eqn:El; [|done].
    destruct (proj1 Hspin eq_refl) as (c' & Hc' & Ho).
    rewrite Href in Hc'. injection Hc' as <-.
    unfold Fetch.outstanding in Ho. by rewrite Ep in Ho.
Qed.

Lemma spinner_follows_the_current_request_witness :
  FetchRun.spinner_tracks_request
    (@Fetch.run AsciiHost.host Fetch.initial
       [Fetch.call; Fetch.call; Fetch.fetchSettles 0 (Fetch.fetchRejected "late")]).
Proof.
  apply (@spinner_follows_the_current_request AsciiHost.host
           [Fetch.call; Fetch.call; Fetch.fetchSettles 0 (Fetch.fetchRejected "late")]).
  reflexivity.
Defined.

(** X10.  A request that fails without having been aborted (a rejected
    fetch, a reply that is not ok, a body that does not parse) leaves the
    records and the time of the last update as they were, turns the
    spinner off, ends the request and puts up a message that is never
    empty: the text of the error, "Failed to fetch data" when that text is
    empty, "API error: " and the status for a reply that is not ok.  The
    next call of [fetchData] takes the message down and still shows the
    old records. *)
Theorem failed_request_keeps_the_data `{Host} (s : Fetch.State) (e : Fetch.Event) :
  Fetch.genuine_failure s e -> FetchRun.awaited s e ->
  Fetch.records (Fetch.step s e) = Fetch.records s /\
  Fetch.lastUpdated (Fetch.step s e) = Fetch.lastUpdated s /\
  Fetch.loading (Fetch.step s e) = false /\
  (exists msg,
     Fetch.error (Fetch.step s e) = Some msg /\ msg <> EmptyString /\
     match e with
     | Fetch.fetchSettles _ (Fetch.fetchRejected m)
     | Fetch.jsonSettles _ (Fetch.jsonRejected m) =>
         msg = match m with EmptyString => "Failed to fetch data" | _ => m end
     | Fetch.fetchSettles _ (Fetch.fetchResponse _ status) =>
         msg = ("API error: " ++ numberToString (JSNumber.of_Z status))%string
     | _ => True
     end) /\
  (forall id, Fetch.request_of e = Some id ->
     Fetch.outstanding (Fetch.step s e) id = false) /\
  Fetch.error (Fetch.step (Fetch.step s e) Fetch.call) = None /\
  Fetch.loading (Fetch.step (Fetch.step s e) Fetch.call) = true /\
  Fetch.records (Fetch.step (Fetch.step s e) Fetch.call) = Fetch.records s.
Proof.
  intros Hfail Haw.
  assert (Hdone : forall id st,
            Fetch.requests st = Fetch.set_phase id Fetch.finished (Fetch.requests s) ->
            Fetch.outstanding st id = false).
  { intros id st E. unfold Fetch.outstanding.
    rewrite (phase_of_set_phase _ _ _ _ id E).
    destruct (Fetch.requests s !! id); [by rewrite decide_True|done]. }
  destruct e as [|id o|id o|]; cbn in Hfail, Haw; try done.
  - cbn [Fetch.step]. rewrite Haw. unfold Fetch.afterFetch.
    destruct o as [m|ok status].
    + rewrite Hfail. cbn. repeat (split; [done|]). split; [|split].
      * exists (JSString.or_else m "Failed to fetch data").
        split; [done|]. by destruct m.
      * intros ? [= <-]. by apply Hdone.
      * done.
    + destruct Hfail as [-> ->]. cbn. repeat (split; [done|]). split; [|split].
      * eexists. split; [reflexivity|]. done.
      * intros ? [= <-]. by apply Hdone.
      * done.
  - cbn [Fetch.step]. rewrite Haw. unfold Fetch.afterJson.
    destruct o as [m|d]; [|done].
    rewrite Hfail. cbn. repeat (split; [done|]). split; [|split].
    + exists (JSString.or_else m "Failed to fetch data").
      split; [done|]. by destruct m.
    + intros ? [= <-]. by apply Hdone.
    + done.
Qed.

Lemma failed_request_keeps_the_data_witness :
  Fetch.error
    (@Fetch.step AsciiHost.host
       (@Fetch.step AsciiHost.host
          (@Fetch.step AsciiHost.host Fetch.initial Fetch.call)
          (Fetch.fetchSettles 0 (Fetch.fetchResponse false 503)))
       Fetch.call) = None.
Proof.
  apply (@failed_request_keeps_the_data AsciiHost.host
           (@Fetch.step AsciiHost.host Fetch.initial Fetch.call)
           (Fetch.fetchSettles 0 (Fetch.fetchResponse false 503))).
  - split; reflexivity.
  - reflexivity.
Defined.

(** X11.  At every point of every run, the error box is not up while the
    spinner is on: a message is put up only together with turning the
    spinner off, and a call that turns the spinner on takes the message
    down. *)
Theorem error_box_and_spinner_exclude `{Host} (es : list Fetch.Event) :
  Fetch.error (Fetch.run Fetch.initial es) <> None ->
  Fetch.loading (Fetch.run Fetch.initial es) = false.
Proof.
  induction es as [|e es IH] using rev_ind; [done|].
  rewrite run_app. cbn [Fetch.run fold_left].
  by apply error_stops_spinner_step.
Qed.

Lemma error_box_and_spinner_exclude_witness :
  Fetch.loading
    (@Fetch.run AsciiHost.host Fetch.initial
       [Fetch.call; Fetch.fetchSettles 0 (Fetch.fetchRejected "Failed to fetch")])
  = false.
Proof.
  apply (@error_box_and_spinner_exclude AsciiHost.host
           [Fetch.call; Fetch.fetchSettles 0 (Fetch.fetchRejected "Failed to fetch")]).
  vm_compute. discriminate.
Defined.

(** X12.  After the component is unmounted, no promise that settles later
    changes the records, the time of the last update, the spinner or the
    error box, whatever happened before the unmount and in whatever order
    and with whatever outcome the outstanding promises settle. *)
Theorem no_update_after_unmount `{Host} (before later : list Fetch.Event) :
  forallb (fun e => negb (FetchRun.is_call e)) later = true ->
  Fetch.visible (Fetch.run Fetch.initial (before ++ Fetch.unmount :: later))
  = Fetch.visible (Fetch.run Fetch.initial before).
Proof.
  intros Hlater.
  pose proof (one_live_run before Fetch.initial one_live_initial) as Hone.
  rewrite run_app. set (s := Fetch.run Fetch.initial before) in *.
  change (Fetch.run s (Fetch.unmount :: later))
    with (Fetch.run (Fetch.step s Fetch.unmount) later).
  rewrite (all_aborted_run later _ Hlater (all_aborted_cleanup s Hone)).
  cbn [Fetch.step]. unfold Fetch.cleanup. by destruct (Fetch.abortControllerRef s).
Qed.

Lemma no_update_after_unmount_witness :
  Fetch.visible
    (@Fetch.run AsciiHost.host Fetch.initial
       ([Fetch.call] ++ Fetch.unmount ::
          [Fetch.fetchSettles 0 (Fetch.fetchResponse true 200);
           Fetch.jsonSettles 0 (Fetch.jsonData Samples.freshReply)]))
  = Fetch.visible (@Fetch.run AsciiHost.host Fetch.initial [Fetch.call]).
Proof.
  apply (@no_update_after_unmount AsciiHost.host [Fetch.call]
           [Fetch.fetchSettles 0 (Fetch.fetchResponse true 200);
            Fetch.jsonSettles 0 (Fetch.jsonData Samples.freshReply)]).
  reflexivity.
Defined.

(** ** Reading the exported document back *)

Section CsvDocument.
Context `{Host}.
Import Csv.
Local Open Scope string_scope.

Local Abbreviation document lines :=
  (JSString.join JSString.newline (map quotedLine lines)).
Local Abbreviation quote_free l := (Forall (fun s => no_dquote s = true) l).
Local Abbreviation well_formed lines :=
  (Forall (fun l : list string => l <> [] /\ quote_free l) lines).

(** The document of a list of lines, one field at a time. *)
Lemma document_unfold t ts (lines : list (list string)) :
  document ((t :: ts) :: lines)
  = JSString.dquote ++ t ++ JSString.dquote ++
    match ts, lines with
    | [], [] => EmptyString
    | [], _ :: _ => JSString.newline ++ document lines
    | _ :: _, _ => "," ++ document (ts :: lines)
    end.
Proof.
  destruct ts as [|t2 ts].
  - destruct lines as [|l lines]; cbn [map JSString.join quotedLine].
    + by rewrite string_app_nil_r.
    + by rewrite !string_app_assoc.
  - assert (E : quotedLine (t :: t2 :: ts)
              = (JSString.dquote ++ t ++ JSString.dquote) ++ "," ++ quotedLine (t2 :: ts))
      by reflexivity.
    destruct lines as [|l lines]; cbn [map JSString.join]; rewrite E.
    + by rewrite !string_app_assoc.
    + by rewrite !string_app_assoc.
Qed.

(** A text without double quote ends at the first double quote. *)
Lemma quote_free_split (a b x y : string) :
  no_dquote a = true -> no_dquote b = true ->
  a ++ JSString.dquote ++ x = b ++ JSString.dquote ++ y -> a = b /\ x = y.
Proof.
  revert b. induction a as [|c a IH]; intros [|c' b] Ha Hb E;
    cbn [no_dquote] in Ha, Hb.
  - change (String (ascii_of_nat 34) x = String (ascii_of_nat 34) y) in E.
    by injection E as ->.
  - change (String (ascii_of_nat 34) x = String c' (b ++ JSString.dquote ++ y)) in E.
    injection E as <- _. by rewrite Ascii.eqb_refl in Hb.
  - change (String c (a ++ JSString.dquote ++ x) = String (ascii_of_nat 34) y) in E.
    injection E as -> _. by rewrite Ascii.eqb_refl in Ha.
  - change (String c (a ++ JSString.dquote ++ x)
            = String c' (b ++ JSString.dquote ++ y)) in E.
    injection E as <- E. apply andb_true_iff in Ha as [_ Ha].
    apply andb_true_iff in Hb as [_ Hb].
    destruct (IH b Ha Hb E) as [-> ->]. done.
Qed.

Lemma newline_not_comma (a b : string) : JSString.newline ++ a <> "," ++ b.
Proof. cbv. discriminate. Qed.

Lemma separator_not_end (sep a : ascii) (x : string) :
  String sep x <> EmptyString.
Proof. discriminate. Qed.

(** Two lists of lines of texts without double quote that give the same
    document are the same. *)
Lemma document_inj (lines : list (list string)) : forall lines',
  well_formed lines -> well_formed lines' ->
  document lines = document lines' -> lines = lines'.
Proof.
  induction lines as [|l lines IHlines]; intros lines' Hw Hw' E.
  - destruct lines' as [|[|t' ts'] lines']; [done|..].
    + apply Forall_cons in Hw' as [[? _] _]. done.
    + rewrite document_unfold in E. discriminate.
  - destruct l as [|t ts]; [apply Forall_cons in Hw as [[? _] _]; done|].
    revert t lines' Hw Hw' E.
    induction ts as [|t2 ts IHts]; intros t lines' Hw Hw' E.
    all: destruct lines' as [|[|t' ts'] lines'];
      [ rewrite document_unfold in E; discriminate
      | apply Forall_cons in Hw' as [[? _] _]; done | ].
    all: rewrite (document_unfold t _ lines), (document_unfold t' ts' lines') in E.
    all: apply Forall_cons in Hw as [[_ Hq] Hw].
    all: apply Forall_cons in Hw' as [[_ Hq'] Hw'].
    all: apply Forall_cons in Hq as [Ht Hq].
    all: apply Forall_cons in Hq' as [Ht' Hq'].
    all: injection E as E.
    all: apply quote_free_split in E as [<- E]; [|done..].
    + destruct lines as [|l2 lines], ts' as [|t2' ts'], lines' as [|l2' lines'];
        try discriminate; try done.
      f_equal. apply IHlines; [done..|]. by injection E.
    + destruct ts' as [|t2' ts'].
      { destruct lines' as [|l2' lines']; discriminate. }
      injection E as E.
      assert (E' : (t2 :: ts) :: lines = (t2' :: ts') :: lines').
      { apply IHts; [| |exact E].
        - constructor; [split; [done|]|]; done.
        - constructor; [split; [done|]|]; done. }
      by injection E' as -> -> ->.
Qed.

Lemma fields_not_nil r : fields r <> [].
Proof. discriminate. Qed.

End CsvDocument.

(** X13.  The exported document can be read back: when no cell text of
    two views contains a double quote, the two views give the same
    document only if they have the same rows of cell texts, in the same
    order.  Commas and line feeds inside a cell do no harm, since every
    cell is between double quotes. *)
Theorem csv_document_determines_the_rows `{Host}
    (data data' : list PredictionRecord) :
  (forall r, r ∈ data ++ data' ->
     Forall (fun s => no_dquote s = true) (Csv.fields r)) ->
  Csv.csv data = Csv.csv data' ->
  map Csv.fields data = map Csv.fields data'.
Proof.
  intros Hq E. rewrite !csv_lines in E.
  assert (Hw : forall l, (forall r, r ∈ l -> r ∈ data ++ data') ->
            Forall (fun l : list string =>
                      l <> [] /\ Forall (fun s => no_dquote s = true) l)
                   (Csv.headers :: map Csv.fields l)).
  { intros l Hl. constructor.
    - split; [discriminate|]. repeat constructor.
    - apply Forall_forall. intros f (r & -> & Hr)%list_elem_of_fmap.
      split; [apply fields_not_nil|]. by apply Hq, Hl. }
  assert (E' : Csv.headers :: map Csv.fields data
               = Csv.headers :: map Csv.fields data').
  { apply document_inj.
    - apply Hw. intros r Hr. apply elem_of_app. by left.
    - apply Hw. intros r Hr. apply elem_of_app. by right.
    - cbn [map]. by rewrite !map_map. }
  by injection E'.
Qed.

Lemma csv_document_determines_the_rows_witness :
  map (@Csv.fields AsciiHost.host) [Samples.jeans; Samples.cap]
  = map (@Csv.fields AsciiHost.host) [MoreSamples.jeansLater; Samples.cap].
Proof.
  apply (@csv_document_determines_the_rows AsciiHost.host
           [Samples.jeans; Samples.cap] [MoreSamples.jeansLater; Samples.cap]).
  - intros r Hr. apply list_elem_of_In in Hr. simpl in Hr.
    repeat (destruct Hr as [<-|Hr]; [vm_compute; repeat constructor|]).
    destruct Hr.
  - reflexivity.
Defined.

Section CsvUnescaped.
Context `{Host}.
Import Csv.
Local Open Scope string_scope.

Lemma quotedLine_two (x y z : string) (rest : list string) :
  quotedLine (x :: y :: z :: rest)
  = (JSString.dquote ++ x ++ JSString.dquote) ++ "," ++
    (JSString.dquote ++ y ++ JSString.dquote) ++ "," ++ quotedLine (z :: rest).
Proof. reflexivity. Qed.

Lemma append_longer (a : string) c (x : string) : a ++ String c x <> a.
Proof.
  induction a as [|c' a IH]; [discriminate|].
  change (String c' (a ++ String c x) <> String c' a). intros E. apply IH.
  by injection E.
Qed.

End CsvUnescaped.

(** X14.  The exporter never escapes a double quote inside a cell: a
    record whose SKU is [a","b] at store [c] and a record with SKU [a] at
    store [b","c], otherwise the same, export the same document although
    their rows differ: a document whose cells hold double quotes cannot
    always be read back. *)
Theorem csv_export_does_not_escape_quotes `{Host}
    (r : PredictionRecord) (a b c : string) :
  let sep := (JSString.dquote ++ "," ++ JSString.dquote)%string in
  let r1 := relabelled r (a ++ sep ++ b)%string c in
  let r2 := relabelled r a (b ++ sep ++ c)%string in
  Csv.csv [r1] = Csv.csv [r2] /\ Csv.fields r1 <> Csv.fields r2.
Proof.
  intros sep r1 r2. split.
  - rewrite !csv_lines. cbn [map]. do 2 f_equal.
    unfold Csv.fields, Csv.row, r1, r2, relabelled, Csv.avgCell, Csv.daysCell,
      Csv.reorderCell, sep.
    cbn [map Csv.cellToString sku_id store_id current_stock avg_daily_sales
         days_to_stockout status recommended_reorder_quantity category city].
    rewrite !quotedLine_two. by rewrite !string_app_assoc.
  - unfold Csv.fields, Csv.row, r1, r2, relabelled, sep.
    cbn [map Csv.cellToString sku_id store_id]. intros E. injection E as E _.
    revert E. apply append_longer.
Qed.

(** ** Dark mode *)

Section ThemeFacts.
Import Theme.

Lemma bg_primary_after_effect b p :
  getPropertyValue (darkModeEffect b p) "--bg-primary"
  = if b then "#1f2937" else "#f9fafb".
Proof.
  unfold getPropertyValue, darkModeEffect. cbn [rootStyle].
  destruct b; rewrite !lookup_insert_ne by done; by rewrite lookup_insert_eq.
Qed.

(** In every state of a run, the page is as the effect of the current mode
    left it. *)
Lemma page_after_effect p es :
  exists p', page (run (mount p) es) = darkModeEffect (darkMode (run (mount p) es)) p'.
Proof.
  induction es as [|e es IH] using rev_ind.
  - by exists p.
  - unfold run in *. rewrite fold_left_app. cbn [fold_left].
    destruct IH as [p' IH]. destruct e; cbn [step toggle rerender page darkMode].
    + eexists. reflexivity.
    + by exists p'.
Qed.

End ThemeFacts.

(** X15.  The dark mode choice survives a reload: what the effect stores is
    what the initialiser of the state reads back, so a component mounted on
    the page a toggle left starts in the toggled mode.  The effect touches
    no other key of the storage and no other property of the root style,
    and the five colours it sets depend on the mode alone. *)
Theorem dark_mode_survives_reload (b : bool) (p : Theme.Page) (s : Theme.State) :
  Theme.initialDarkMode (Theme.darkModeEffect b p) = b /\
  Theme.darkMode (Theme.mount (Theme.page (Theme.toggle s)))
  = negb (Theme.darkMode s) /\
  (forall k, k <> "darkMode" ->
     Theme.localStorage (Theme.darkModeEffect b p) !! k = Theme.localStorage p !! k) /\
  (forall name, name ∉ Theme.variables ->
     Theme.rootStyle (Theme.darkModeEffect b p) !! name = Theme.rootStyle p !! name) /\
  (forall p', map (Theme.getPropertyValue (Theme.darkModeEffect b p)) Theme.variables
            = map (Theme.getPropertyValue (Theme.darkModeEffect b p')) Theme.variables) /\
  (map (Theme.getPropertyValue (Theme.darkModeEffect true p)) Theme.variables
   <> map (Theme.getPropertyValue (Theme.darkModeEffect false p)) Theme.variables).
Proof.
  assert (Hread : forall b' p', Theme.initialDarkMode (Theme.darkModeEffect b' p') = b').
  { intros b' p'. unfold Theme.initialDarkMode, Theme.darkModeEffect.
    cbn [Theme.localStorage]. rewrite lookup_insert_eq. by destruct b'. }
  assert (Hvars : forall b' p',
            map (Theme.getPropertyValue (Theme.darkModeEffect b' p')) Theme.variables
            = if b' then ["#1f2937"; "#374151"; "#4b5563"; "#f3f4f6"; "#d1d5db"]
              else ["#f9fafb"; "#ffffff"; "#f3f4f6"; "#111827"; "#6b7280"]).
  { intros b' p'. unfold Theme.variables, Theme.getPropertyValue, Theme.darkModeEffect.
    cbn [map Theme.rootStyle].
    destruct b';
      repeat (rewrite lookup_insert_eq || rewrite lookup_insert_ne by done); done. }
  split; [apply Hread|]. split; [|split; [|split; [|split]]].
  - unfold Theme.mount, Theme.toggle. cbn [Theme.darkMode Theme.page]. apply Hread.
  - intros k Hk. unfold Theme.darkModeEffect. cbn [Theme.localStorage].
    by rewrite lookup_insert_ne.
  - intros name Hname. unfold Theme.variables in Hname.
    rewrite !not_elem_of_cons in Hname. destruct Hname as (H1 & H2 & H3 & H4 & H5 & _).
    unfold Theme.darkModeEffect. cbn [Theme.rootStyle].
    destruct b; by rewrite !lookup_insert_ne.
  - intros p'. by rewrite !Hvars.
  - rewrite !Hvars. discriminate.
Qed.

(** X16.  The background of the container lags behind the toggle.  The
    render reads [--bg-primary] before the effect of the new mode has
    written it: in every state of every run, the render that follows a
    click on the toggle gives the container the light background
    [#f9fafb], also when the click switches to dark mode; the dark
    background [#1f2937] appears only with a later render.  A component
    mounted in dark mode on a page whose root style has no [--bg-primary]
    starts with the dark background. *)
Theorem dark_background_waits_for_next_render
    (p : Theme.Page) (es : list Theme.Event) :
  Theme.shownBackground (Theme.toggle (Theme.run (Theme.mount p) es)) = "#f9fafb" /\
  Theme.shownBackground
    (Theme.rerender (Theme.toggle (Theme.run (Theme.mount p) es)))
  = (if Theme.darkMode (Theme.run (Theme.mount p) es) then "#f9fafb" else "#1f2937") /\
  (Theme.rootStyle p !! "--bg-primary" = None ->
   Theme.shownBackground (Theme.mount p)
   = if Theme.initialDarkMode p then "#1f2937" else "#f9fafb").
Proof.
  destruct (page_after_effect p es) as [p' Hpage].
  set (s := Theme.run (Theme.mount p) es) in *.
  split; [|split].
  - unfold Theme.toggle. cbn [Theme.shownBackground]. unfold Theme.backgroundColor.
    rewrite Hpage, bg_primary_after_effect. by destruct (Theme.darkMode s).
  - unfold Theme.rerender, Theme.toggle.
    cbn [Theme.shownBackground Theme.darkMode Theme.page].
    unfold Theme.backgroundColor. rewrite bg_primary_after_effect.
    by destruct (Theme.darkMode s).
  - intros Hnone. unfold Theme.mount. cbn [Theme.shownBackground].
    unfold Theme.backgroundColor, Theme.getPropertyValue. rewrite Hnone.
    by destruct (Theme.initialDarkMode p).
Qed.

(** ** The search box *)

Section SearchFacts.
Import SearchBox.

Lemma run_snoc s es e : run s (es ++ [e]) = step (run s es) e.
Proof. unfold run. by rewrite fold_left_app. Qed.

Lemma lastTyped_snoc v es e :
  lastTyped v (es ++ [e])
  = match e with change val => val | timerFires _ => lastTyped v es end.
Proof. unfold lastTyped. by rewrite fold_left_app. Qed.

Lemma search_step_timer s id : search (step s (timerFires id)) = search s.
Proof. cbn [step]. by destruct (existsb (Nat.eqb id) (pending s)). Qed.

(** At most the timer of the ref is pending. *)
Lemma one_timer es :
  pending (run initial es) = [] \/
  exists t, pending (run initial es) = [t] /\
            searchTimeoutRef (run initial es) = Some t.
Proof.
  induction es as [|e es IH] using rev_ind; [by left|].
  rewrite run_snoc. set (s := run initial es) in *.
  destruct e as [val|id]; cbn [step].
  - right. exists (nextTimer s). split; [|done].
    cbn [handleSearchChange pending]. destruct IH as [->|(t & -> & ->)].
    + by destruct (searchTimeoutRef s).
    + cbn [clearTimeout List.filter]. by rewrite Nat.eqb_refl.
  - destruct (existsb (Nat.eqb id) (pending s)); [|exact IH].
    cbn [fire pending searchTimeoutRef]. destruct IH as [->|(t & -> & ->)].
    + by left.
    + cbn [List.filter]. destruct (Nat.eqb t id); cbn [negb]; [by left|].
      right. by exists t.
Qed.

End SearchFacts.

(** X17.  The timer of the search box delays nothing: after any run of
    key strokes and timers the state [search], which the filter effect
    depends on, is the text of the last key stroke, whether or not its timer
    has fired; a timer that fires changes neither [search] nor the ref.  At
    most one timer is pending, the one the ref holds. *)
Theorem search_is_applied_without_delay (es : list SearchBox.Event) :
  SearchBox.search (SearchBox.run SearchBox.initial es)
  = SearchBox.lastTyped EmptyString es /\
  (forall val,
     SearchBox.search
       (SearchBox.step (SearchBox.run SearchBox.initial es) (SearchBox.change val))
     = val) /\
  (forall id,
     SearchBox.search
       (SearchBox.step (SearchBox.run SearchBox.initial es) (SearchBox.timerFires id))
     = SearchBox.search (SearchBox.run SearchBox.initial es) /\
     SearchBox.searchTimeoutRef
       (SearchBox.step (SearchBox.run SearchBox.initial es) (SearchBox.timerFires id))
     = SearchBox.searchTimeoutRef (SearchBox.run SearchBox.initial es)) /\
  (length (SearchBox.pending (SearchBox.run SearchBox.initial es)) <= 1)%nat /\
  (forall t, t ∈ SearchBox.pending (SearchBox.run SearchBox.initial es) ->
     SearchBox.searchTimeoutRef (SearchBox.run SearchBox.initial es) = Some t).
Proof.
  split; [|split; [|split; [|split]]].
  - induction es as [|e es IH] using rev_ind; [done|].
    rewrite run_snoc, lastTyped_snoc. destruct e as [val|id]; [done|].
    by rewrite search_step_timer.
  - done.
  - intros id. split; [apply search_step_timer|].
    cbn [SearchBox.step].
    by destruct (existsb (Nat.eqb id) (SearchBox.pending (SearchBox.run SearchBox.initial es))).
  - destruct (one_timer es) as [->|(t & -> & _)]; simpl; lia.
  - intros t Ht. destruct (one_timer es) as [E|(t' & E & Eref)]; rewrite E in Ht.
    + by apply elem_of_nil in Ht.
    + apply list_elem_of_singleton in Ht. by subst.
Qed.

(** X18.  The badge of a row and the three cards.  A row gets the Safe
    style whenever its status is neither "Critical" nor "Warning", so the
    rows styled Safe are the records that the Critical and the Warning card
    do not count; they are at least as many as the Safe card counts, and
    exactly as many when every status is one of the three words. *)
Theorem safe_badge_covers_unknown_status (recs : list PredictionRecord) :
  let safeStyled :=
    List.filter (fun r => match StatusBadge (status r) with
                          | statusSafe => true | _ => false end) recs in
  (forall r, StatusBadge (status r) = statusCritical <-> isCritical r = true) /\
  (forall r, StatusBadge (status r) = statusWarning <-> isWarning r = true) /\
  (forall r, isSafe r = true -> StatusBadge (status r) = statusSafe) /\
  (length safeStyled + countCritical recs + countWarning recs = length recs)%nat /\
  (countSafe recs <= length safeStyled)%nat /\
  (countSafe recs = length safeStyled <->
   forall r, r ∈ recs ->
     status r = "Critical" \/ status r = "Warning" \/ status r = "Safe").
Proof.
  intros safeStyled.
  assert (Hcases : forall r,
    (status r = "Critical" /\ StatusBadge (status r) = statusCritical /\
     isCritical r = true /\ isWarning r = false /\ isSafe r = false) \/
    (status r = "Warning" /\ StatusBadge (status r) = statusWarning /\
     isCritical r = false /\ isWarning r = true /\ isSafe r = false) \/
    (status r = "Safe" /\ StatusBadge (status r) = statusSafe /\
     isCritical r = false /\ isWarning r = false /\ isSafe r = true) \/
    (status r <> "Critical" /\ status r <> "Warning" /\ status r <> "Safe" /\
     StatusBadge (status r) = statusSafe /\
     isCritical r = false /\ isWarning r = false /\ isSafe r = false)).
  { intros r. unfold StatusBadge, isCritical, isWarning, isSafe.
    destruct (String.eqb_spec (status r) "Critical") as [->|H1]; [by left|].
    destruct (String.eqb_spec (status r) "Warning") as [->|H2]; [by right; left|].
    destruct (String.eqb_spec (status r) "Safe") as [->|H3];
      [by right; right; left|by right; right; right]. }
  split; [|split; [|split]].
  - intros r. destruct (Hcases r) as [(_&->&->&_)|[(_&->&->&_)|[(_&->&->&_)|(_&_&_&->&->&_)]]];
      split; done.
  - intros r.
    destruct (Hcases r) as [(_&->&_&->&_)|[(_&->&_&->&_)|[(_&->&_&->&_)|(_&_&_&->&_&->&_)]]];
      split; done.
  - intros r Hs.
    destruct (Hcases r) as [(_&_&_&_&E)|[(_&_&_&_&E)|[(_&->&_)|(_&_&_&->&_)]]];
      [congruence..|done|done].
  - unfold safeStyled, countCritical, countWarning, countSafe. clear safeStyled.
    induction recs as [|r recs IH].
    { split; [done|]. split; [done|]. split; [|done].
      intros _ r Hr. by apply elem_of_nil in Hr. }
    destruct IH as (IH1 & IH2 & IH3). cbn [List.filter].
    assert (Hin : forall P : PredictionRecord -> Prop,
              (forall x, x ∈ r :: recs -> P x) <-> P r /\ forall x, x ∈ recs -> P x).
    { intros P. split.
      - intros HP. split; [apply HP, list_elem_of_here|].
        intros x Hx. by apply HP, list_elem_of_further.
      - intros [Hr Hrest] x [->|Hx]%elem_of_cons; auto. }
    rewrite Hin.
    destruct (Hcases r)
      as [(Es&->&->&->&->)|[(Es&->&->&->&->)|[(Es&->&->&->&->)|(N1&N2&N3&->&->&->&->)]]];
      cbn [length]; (split; [lia|]); (split; [lia|]).
    + rewrite <- IH3. split; [intros; split; [auto|lia]|intros [_ ?]; lia].
    + rewrite <- IH3. split; [intros; split; [auto|lia]|intros [_ ?]; lia].
    + rewrite <- IH3. split; [intros; split; [auto|lia]|intros [_ ?]; lia].
    + split; [lia|]. intros [[?|[?|?]] _]; done.
Qed.
